(** * Zoe elastic scheduler: a shallow embedding of
      [zoe_master/scheduler/elastic_scheduler.py]

    The development has two parts.  Part I embeds the scheduler class
    [ZoeElasticScheduler] method by method; Part II states and proves the
    properties of the embedding.

    Conventions of the embedding.
    - Python integers are [Z]; numbers that the code obtains from
      [time.time()] or from the true division [/] are exact rationals [Q],
      except in [Binary64], which embeds the arithmetic of the core-limit
      rebalancer in binary64, with its rounding, for the bound on the cores
      that it issues.
    - An [Execution] or [Service] object is identified by its [id], the
      primary key of the state store: queues hold ids, and the attributes of the
      objects live in a store indexed by id, so that every alias of an
      object sees its mutations.
    - A method of the scheduler is a computation in a state-and-exception
      monad over the machine state; a raised exception keeps the mutations
      done before it, as in Python.
    - Calls to the backend are recorded, in order, in a log. *)

From Stdlib Require Import ZArith QArith Lqa Sorted.
From Stdlib Require SpecFloat.
From stdpp Require Import gmap list strings functions.

Local Open Scope Z_scope.

(* ===================================================================== *)
(** * Part I: the embedding *)
(* ===================================================================== *)

(** ** State-and-exception monad *)

Inductive Exception :=
| KeyError
| ValueError
| RuntimeError
| AssertionError
| ZoeException
| UnsupportedSchedulerPolicyError.

#[global] Instance Exception_eq_dec : EqDecision Exception.
Proof. solve_decision. Defined.

Inductive Result (A : Type) :=
| Return (a : A)
| Raise (e : Exception).
Arguments Return {A} a.
Arguments Raise {A} e.

Definition M (S A : Type) : Type := S -> Result A * S.

Definition ret {S A} (a : A) : M S A := fun s => (Return a, s).

Definition bind {S A B} (m : M S A) (k : A -> M S B) : M S B :=
  fun s => match m s with
           | (Return a, s') => k a s'
           | (Raise e, s') => (Raise e, s')
           end.

Definition raise {S A} (e : Exception) : M S A := fun s => (Raise e, s).
Definition get {S} : M S S := fun s => (Return s, s).
Definition gets {S A} (f : S -> A) : M S A := fun s => (Return (f s), s).
Definition modify {S} (f : S -> S) : M S unit := fun s => (Return tt, f s).

(** [try: m except: e => h] runs the handler [h] when [m] raises [e]. *)
Definition try_except {S A} (m : M S A) (e : Exception) (h : M S A) : M S A :=
  fun s => match m s with
           | (Raise e', s') => if decide (e' = e) then h s' else (Raise e', s')
           | r => r
           end.

Declare Scope py_scope.
Delimit Scope py_scope with py.
Notation "'let*' x := m 'in' k" := (bind m (fun x => k))
  (at level 10, x name, m at level 100, k at level 200) : py_scope.
Notation "m >> k" := (bind m (fun _ => k))
  (at level 100, k at level 200, right associativity) : py_scope.

(** [for x in l: body x], over a list that the body does not mutate. *)
Fixpoint for_each {S A} (l : list A) (body : A -> M S unit) : M S unit :=
  match l with
  | [] => ret tt
  | x :: l' => bind (body x) (fun _ => for_each l' body)
  end.

(** ** Python list operations *)

(** [l.remove(x)]: drops the first occurrence; [None] stands for the
    [ValueError] raised when there is none. *)
Fixpoint list_remove (x : Z) (l : list Z) : option (list Z) :=
  match l with
  | [] => None
  | y :: l' => if decide (x = y) then Some l' else cons y <$> list_remove x l'
  end.

(** [sorted(l, key=key)] and [l.sort(key=key)]: a stable sort, ascending by
    key.  Insertion from the right keeps equal keys in their input order. *)
Fixpoint insert_by_key {A} (key : A -> Q) (x : A) (l : list A) : list A :=
  match l with
  | [] => [x]
  | y :: l' => if Qle_bool (key x) (key y) then x :: y :: l'
               else y :: insert_by_key key x l'
  end.

Definition sorted {A} (l : list A) (key : A -> Q) : list A :=
  foldr (insert_by_key key) [] l.

(** ** Data model *)

Inductive BackendStatus :=
| BACKEND_UNDEFINED_STATUS
| BACKEND_START_STATUS
| BACKEND_DIE_STATUS
| BACKEND_DESTROY_STATUS.

Inductive ExecutionStatus :=
| SUBMITTED_STATUS
| SCHEDULED_STATUS
| STARTING_STATUS
| IMAGE_DL_STATUS
| RUNNING_STATUS
| CLEANING_UP_STATUS
| TERMINATED_STATUS
| ERROR_STATUS.

#[global] Instance BackendStatus_eq_dec : EqDecision BackendStatus.
Proof. solve_decision. Defined.
#[global] Instance ExecutionStatus_eq_dec : EqDecision ExecutionStatus.
Proof. solve_decision. Defined.

(** Modelled from the spec: the [Service] objects of [zoe_lib.state], which
    is not among the sources.  Only the attributes that the scheduler reads
    are kept. *)
Record Service := mkService {
  service_essential : bool;
  service_backend_status : BackendStatus;
  service_backend_host : string;
  service_cores_min : Q;     (* resource_reservation.cores.min *)
  service_memory_min : Z     (* resource_reservation.memory.min *)
}.

(** Modelled from the spec: the [Execution] objects of [zoe_lib.state].
    The derived flags ([is_running], [essential_services_running],
    [all_services_active], [all_services_running]) are not attributes: they
    are computed by code that is not among the sources, and are taken as
    parameters in [Environment] below. *)
Record Execution := mkExecution {
  exec_size : Q;
  exec_status : ExecutionStatus;
  exec_services : list Z;
  exec_cores_min : Q;        (* total_reservations.cores.min *)
  exec_memory_min : Z        (* total_reservations.memory.min *)
}.

(** The state store ([SQLManager]): the objects by id, and the ids of the
    rows of the two tables. *)
Record Store := mkStore {
  executions : Z -> Execution;
  services : Z -> Service;
  execution_rows : list Z;
  service_rows : list Z
}.

(** Modelled from the spec: [NodeStats] and [ClusterStats] of
    [zoe_master.stats]. *)
Record NodeStats := mkNodeStats {
  node_name : string;
  cores_total : Q;
  cores_reserved : Q;
  memory_total : Z;
  memory_reserved : Z
}.

Record ClusterStats := mkClusterStats { nodes : list NodeStats }.

(** Placements: service id to node name. *)
Abbreviation Placements := (gmap Z string).

Inductive StartResult := StartOk | StartRequeue | StartFatal.

(** A call to [zoe_master.backends.interface], as written at the call
    site; keyword arguments are kept with their keywords, and a call whose
    result the scheduler reads is logged with that result. *)
Inductive BackendCall :=
| CallStartEssential (execution : Z) (returned : StartResult)
| CallStartElastic (execution : Z)
| CallTerminateService (service : Z)
| CallUpdateServiceResourceLimits (service : Z) (kwargs : list (string * Q)).

(** What the scheduler gets from code that is not among the sources: the
    derived flags of an execution, the answers of the backend, the wall
    clock and the metrics.  The clock and the metrics are indexed by the
    number of readings made so far. *)
Class Environment := {
  is_running : Store -> Z -> bool;
  essential_services_running : Store -> Z -> bool;
  all_services_active : Store -> Z -> bool;
  all_services_running : Store -> Z -> bool;
  start_essential : Z -> Placements -> Store -> StartResult * Store;
  start_elastic : Z -> Placements -> Store -> Store;
  time_time : nat -> Q;
  current_stats : nat -> option ClusterStats
}.

(** ** Scheduler state *)

Record ExecutionProgress := mkExecutionProgress {
  last_time_scheduled : Q;
  progress_sequence : list Q
}.

(** [ExecutionProgress.__init__] *)
Definition ExecutionProgress_init : ExecutionProgress :=
  {| last_time_scheduled := 0; progress_sequence := [] |}.

(** The attributes of [ZoeElasticScheduler].  A termination thread is
    represented by the id of the execution it terminates. *)
Record Scheduler := mkScheduler {
  policy : string;
  queue : list Z;
  queue_running : list Z;
  additional_exec_state : gmap Z ExecutionProgress;
  async_threads : list Z;
  trigger_semaphore : nat;
  core_limit_recalc_trigger : bool;
  loop_quit : bool
}.

(** The machine the scheduler runs on: the scheduler object, the state
    store, the termination locks currently held, the log of backend calls
    and the number of readings of the clock and of the metrics. *)
Record Machine := mkMachine {
  self : Scheduler;
  state : Store;
  held_locks : gset Z;
  backend_log : list BackendCall;
  readings : nat
}.

Definition with_queue (q : list Z) (s : Scheduler) : Scheduler :=
  mkScheduler (policy s) q (queue_running s) (additional_exec_state s)
    (async_threads s) (trigger_semaphore s) (core_limit_recalc_trigger s) (loop_quit s).

Definition with_queue_running (q : list Z) (s : Scheduler) : Scheduler :=
  mkScheduler (policy s) (queue s) q (additional_exec_state s)
    (async_threads s) (trigger_semaphore s) (core_limit_recalc_trigger s) (loop_quit s).

Definition with_additional_exec_state (d : gmap Z ExecutionProgress) (s : Scheduler) : Scheduler :=
  mkScheduler (policy s) (queue s) (queue_running s) d
    (async_threads s) (trigger_semaphore s) (core_limit_recalc_trigger s) (loop_quit s).

Definition with_async_threads (t : list Z) (s : Scheduler) : Scheduler :=
  mkScheduler (policy s) (queue s) (queue_running s) (additional_exec_state s)
    t (trigger_semaphore s) (core_limit_recalc_trigger s) (loop_quit s).

Definition with_trigger_semaphore (n : nat) (s : Scheduler) : Scheduler :=
  mkScheduler (policy s) (queue s) (queue_running s) (additional_exec_state s)
    (async_threads s) n (core_limit_recalc_trigger s) (loop_quit s).

Definition with_core_limit_recalc_trigger (b : bool) (s : Scheduler) : Scheduler :=
  mkScheduler (policy s) (queue s) (queue_running s) (additional_exec_state s)
    (async_threads s) (trigger_semaphore s) b (loop_quit s).

Definition with_self (f : Scheduler -> Scheduler) (m : Machine) : Machine :=
  mkMachine (f (self m)) (state m) (held_locks m) (backend_log m) (readings m).

Definition with_state (f : Store -> Store) (m : Machine) : Machine :=
  mkMachine (self m) (f (state m)) (held_locks m) (backend_log m) (readings m).

Definition with_held_locks (f : gset Z -> gset Z) (m : Machine) : Machine :=
  mkMachine (self m) (state m) (f (held_locks m)) (backend_log m) (readings m).

Definition log_call (c : BackendCall) (m : Machine) : Machine :=
  mkMachine (self m) (state m) (held_locks m) (backend_log m ++ [c]) (readings m).

Definition next_reading (m : Machine) : Machine :=
  mkMachine (self m) (state m) (held_locks m) (backend_log m) (S (readings m)).

Definition with_execution (e : Z) (f : Execution -> Execution) (st : Store) : Store :=
  mkStore (<[e := f (executions st e)]> (executions st)) (services st)
    (execution_rows st) (service_rows st).

Definition with_service (sv : Z) (f : Service -> Service) (st : Store) : Store :=
  mkStore (executions st) (<[sv := f (services st sv)]> (services st))
    (execution_rows st) (service_rows st).

(** Modelled from the spec: the mutators of [zoe_lib.state] that the
    scheduler calls.  [set_size] stores the new size, [set_running] and
    [set_cleaning_up] set the status, and [restarted] puts the backend status
    of a dead service back to [start]. *)
Definition set_size (v : Q) (x : Execution) : Execution :=
  mkExecution v (exec_status x) (exec_services x) (exec_cores_min x) (exec_memory_min x).

Definition set_status (v : ExecutionStatus) (x : Execution) : Execution :=
  mkExecution (exec_size x) v (exec_services x) (exec_cores_min x) (exec_memory_min x).

Definition set_running : Execution -> Execution := set_status RUNNING_STATUS.
Definition set_cleaning_up : Execution -> Execution := set_status CLEANING_UP_STATUS.

Definition restarted (x : Service) : Service :=
  mkService (service_essential x) BACKEND_START_STATUS (service_backend_host x)
    (service_cores_min x) (service_memory_min x).

Local Open Scope py_scope.

(** [time.time()] *)
Definition time `{Environment} : M Machine Q :=
  let* n := gets readings in modify next_reading >> ret (time_time n).

(** [lock.acquire(blocking=False)] and [lock.release()] on the termination
    lock of an execution. *)
Definition termination_lock_acquire (execution : Z) : M Machine bool :=
  let* h := gets held_locks in
  if decide (execution ∈ h) then ret false
  else modify (with_held_locks (fun h => {[execution]} ∪ h)) >> ret true.

Definition termination_lock_release (execution : Z) : M Machine unit :=
  let* h := gets held_locks in
  if decide (execution ∈ h) then modify (with_held_locks (fun h => h ∖ {[execution]}))
  else raise RuntimeError.

(** [self.queue.remove(execution)], [self.queue_running.remove(execution)] *)
Definition queue_remove (execution : Z) : M Machine unit :=
  let* q := gets (fun m => queue (self m)) in
  match list_remove execution q with
  | Some q' => modify (with_self (with_queue q'))
  | None => raise ValueError
  end.

Definition queue_running_remove (execution : Z) : M Machine unit :=
  let* q := gets (fun m => queue_running (self m)) in
  match list_remove execution q with
  | Some q' => modify (with_self (with_queue_running q'))
  | None => raise ValueError
  end.

(** [self.additional_exec_state[execution.id]] *)
Definition additional_exec_state_get (execution : Z) : M Machine ExecutionProgress :=
  let* d := gets (fun m => additional_exec_state (self m)) in
  match d !! execution with
  | Some exec_data => ret exec_data
  | None => raise KeyError
  end.

(** [del self.additional_exec_state[execution.id]] *)
Definition additional_exec_state_del (execution : Z) : M Machine unit :=
  let* d := gets (fun m => additional_exec_state (self m)) in
  match d !! execution with
  | Some _ => modify (with_self (with_additional_exec_state (delete execution d)))
  | None => raise KeyError
  end.

(** ** The methods of [ZoeElasticScheduler] *)

(** [__init__]: the policy is checked, and the executions that the state
    store has in status [running] are recovered into one of the two
    queues.  The two threads it starts are the loops embedded below. *)
Definition recover `{Environment} (st : Store) (execution : Z) (s : Scheduler) : Scheduler :=
  if all_services_running st execution
  then with_queue_running (queue_running s ++ [execution]) s
  else with_additional_exec_state
         (<[execution := ExecutionProgress_init]> (additional_exec_state s))
         (with_queue (queue s ++ [execution]) s).

Definition init `{Environment} (st : Store) (pol : string) : Result Machine :=
  if decide (pol ≠ "FIFO" ∧ pol ≠ "SIZE" ∧ pol ≠ "DYNSIZE")
  then Raise UnsupportedSchedulerPolicyError
  else
    let fresh := mkScheduler pol [] [] ∅ [] 0%nat false false in
    let running :=
      filter (fun e => exec_status (executions st e) = RUNNING_STATUS) (execution_rows st) in
    Return (mkMachine (foldl (fun s e => recover st e s) fresh running) st ∅ [] 0%nat).

(** [trigger] *)
Definition trigger : M Machine unit :=
  modify (with_self (fun s => with_trigger_semaphore (S (trigger_semaphore s)) s)).

(** [incoming] *)
Definition incoming (execution : Z) : M Machine unit :=
  let exec_data := ExecutionProgress_init in
  modify (with_self (fun s =>
    with_additional_exec_state (<[execution := exec_data]> (additional_exec_state s)) s)) >>
  modify (with_self (fun s => with_queue (queue s ++ [execution]) s)) >>
  trigger.

(** [terminate].  The termination thread [th] runs [async_termination]
    concurrently with the scheduler; here it is started and recorded in
    [async_threads], and its body is not run. *)
Definition terminate (execution : Z) : M Machine unit :=
  let* found :=
    try_except (queue_remove execution >> ret true) ValueError
      (try_except (queue_running_remove execution >> ret true) ValueError
         (ret false)) in
  if found : bool then
    try_except (additional_exec_state_del execution) KeyError (ret tt) >>
    modify (with_self (with_core_limit_recalc_trigger true)) >>
    modify (with_self (fun s => with_async_threads (async_threads s ++ [execution]) s))
  else ret tt.

(** [_refresh_execution_sizes] *)
Definition refresh_one `{Environment} (execution : Z) : M Machine unit :=
  let* exec_data := additional_exec_state_get execution in
  if Qeq_bool (last_time_scheduled exec_data) 0 then ret tt
  else
    let* x := gets (fun m => executions (state m) execution) in
    if Qle_bool (exec_size x) 0 then
      modify (with_state (with_execution execution
        (set_size (exec_cores_min x * inject_Z (exec_memory_min x))%Q)))
    else
      let* now := time in
      let new_size :=
        (exec_size x - (now - last_time_scheduled exec_data) * inject_Z (256 * 1024 ^ 2))%Q in
      modify (with_state (with_execution execution (set_size new_size))).

Definition _refresh_execution_sizes `{Environment} : M Machine unit :=
  let* s := gets self in
  if decide (policy s = "FIFO") then ret tt
  else if decide (policy s = "SIZE") then ret tt
  else if decide (policy s = "DYNSIZE") then for_each (queue s) refresh_one
  else ret tt.

(** [_pop_all]; [pop_from l out_list] is its loop over the rest [l] of the
    queue. *)
Fixpoint pop_from (l : list Z) (out_list : list Z) : M Machine (list Z) :=
  match l with
  | [] => ret out_list
  | execution :: l' =>
      let* r := termination_lock_acquire execution in
      let* x := gets (fun m => executions (state m) execution) in
      if r && bool_decide (exec_status x ≠ TERMINATED_STATUS)
      then pop_from l' (out_list ++ [execution])
      else pop_from l' out_list
  end.

Definition _pop_all : M Machine (list Z) :=
  let* q := gets (fun m => queue (self m)) in
  pop_from q [].

(** [_requeue].  The right-hand side [time.time()] is evaluated before the
    subscript of the assignment target. *)
Definition _requeue `{Environment} (execution : Z) : M Machine unit :=
  termination_lock_release execution >>
  let* now := time in
  let* exec_data := additional_exec_state_get execution in
  modify (with_self (fun s =>
    with_additional_exec_state
      (<[execution := mkExecutionProgress now (progress_sequence exec_data)]>
         (additional_exec_state s)) s)).

(** [stats]: the dictionary it returns, as a record. *)
Record SchedulerStats := mkSchedulerStats {
  queue_length : nat;
  running_length : nat;
  termination_threads_count : nat;
  stats_queue : list Z;
  stats_running_queue : list Z
}.

Definition stats (m : Machine) : SchedulerStats :=
  let s := self m in
  let queue' :=
    if decide (policy s = "SIZE")
    then sorted (queue s) (fun execution => exec_size (executions (state m) execution))
    else queue s in
  {| queue_length := length (queue s);
     running_length := length (queue_running s);
     termination_threads_count := length (async_threads s);
     stats_queue := queue';
     stats_running_queue := queue_running s |}.

(** ** The simulated platform, as the scheduler uses it *)

(** [zoe_master.scheduler.simulated_platform] is not among the sources: the
    scheduler loop is embedded over any implementation [P] of the five
    operations it calls, and of the constructor. *)
Class SimulatedPlatformOps (P : Type) := {
  SimulatedPlatform : ClusterStats -> P;
  allocate_essential : Store -> Z -> P -> bool * P;
  allocate_elastic : Store -> Z -> P -> P;
  deallocate_elastic : Store -> Z -> P -> P;
  aggregated_free_memory : P -> Z;
  get_service_allocation : P -> Placements
}.

(** ** The scheduler loop, [loop_start_th] *)

(** The [for job in jobs_to_attempt_scheduling] loop that looks for a
    placement in the simulation.  The simulated platform, [jobs_to_launch] and
    [free_resources] are the local variables it updates; the result is their
    value when the loop is left. *)
Fixpoint placement_loop `{Environment} `{SimulatedPlatformOps P} (st : Store)
    (jobs_to_attempt_scheduling : list Z) (cluster_status_snapshot : P)
    (jobs_to_launch : list Z) (free_resources : Z) : P * list Z * Z :=
  match jobs_to_attempt_scheduling with
  | [] => (cluster_status_snapshot, jobs_to_launch, free_resources)
  | job :: rest =>
      let jobs_to_launch_copy := jobs_to_launch in
      let sim1 :=
        foldl (fun sim job_aux => deallocate_elastic st job_aux sim)
              cluster_status_snapshot jobs_to_launch in
      let '(job_can_start, sim2) :=
        if negb (is_running st job) then allocate_essential st job sim1
        else (false, sim1) in
      let jobs_to_launch' :=
        if job_can_start || is_running st job then jobs_to_launch ++ [job]
        else jobs_to_launch in
      let sim3 :=
        foldl (fun sim job_aux => allocate_elastic st job_aux sim) sim2 jobs_to_launch' in
      let current_free_resources := aggregated_free_memory sim3 in
      if current_free_resources >=? free_resources
      then (sim3, jobs_to_launch_copy, free_resources)
      else placement_loop st rest sim3 jobs_to_launch' current_free_resources
  end.

(** [jobs_to_attempt_scheduling.remove(job)] on the local list. *)
Definition local_remove (job : Z) (l : list Z) : M Machine (list Z) :=
  match list_remove job l with
  | Some l' => ret l'
  | None => raise ValueError
  end.

(** The end of the body of the commit loop: an execution whose services are
    all active leaves the pending queue for the running queue. *)
Definition promote_if_active `{Environment} (job : Z)
    (jobs_to_attempt_scheduling : list Z) : M Machine (list Z) :=
  let* st := gets state in
  if all_services_active st job then
    termination_lock_release job >>
    let* jobs' := local_remove job jobs_to_attempt_scheduling in
    queue_remove job >>
    modify (with_self (fun s => with_queue_running (queue_running s ++ [job]) s)) >>
    ret jobs'
  else ret jobs_to_attempt_scheduling.

(** The body of the commit loop from [start_elastic] on. *)
Definition start_elastic_and_promote `{Environment} (placements : Placements) (job : Z)
    (jobs_to_attempt_scheduling : list Z) : M Machine (list Z) :=
  modify (log_call (CallStartElastic job)) >>
  modify (with_state (start_elastic job placements)) >>
  promote_if_active job jobs_to_attempt_scheduling.

(** The branch [ret == "fatal"]: the execution is thrown away. *)
Definition throw_away (job : Z) (jobs_to_attempt_scheduling : list Z)
    : M Machine (list Z) :=
  let* jobs' := local_remove job jobs_to_attempt_scheduling in
  queue_remove job >>
  termination_lock_release job >>
  ret jobs'.

(** The body of [for job in jobs_to_launch], which ports the simulation
    into the cluster.  It returns the local list
    [jobs_to_attempt_scheduling]. *)
Definition commit_job `{Environment} (placements : Placements) (job : Z)
    (jobs_to_attempt_scheduling : list Z) : M Machine (list Z) :=
  let* st := gets state in
  if negb (essential_services_running st job) then
    let '(r, st') := start_essential job placements st in
    modify (log_call (CallStartEssential job r)) >>
    modify (with_state (fun _ => st')) >>
    match r with
    | StartFatal => throw_away job jobs_to_attempt_scheduling
    | StartRequeue => _requeue job >> ret jobs_to_attempt_scheduling
    | StartOk =>
        modify (with_state (with_execution job set_running)) >>
        start_elastic_and_promote placements job jobs_to_attempt_scheduling
    end
  else start_elastic_and_promote placements job jobs_to_attempt_scheduling.

Fixpoint commit_loop `{Environment} (placements : Placements) (jobs_to_launch : list Z)
    (jobs_to_attempt_scheduling : list Z) : M Machine (list Z) :=
  match jobs_to_launch with
  | [] => ret jobs_to_attempt_scheduling
  | job :: rest =>
      let* jobs' := commit_job placements job jobs_to_attempt_scheduling in
      commit_loop placements rest jobs'
  end.

(** Lines 259 to 287: the commit loop, the signal to the core-limit
    thread and the requeue pass. *)
Definition commit_and_requeue `{Environment} (placements : Placements)
    (jobs_to_launch jobs_to_attempt_scheduling : list Z) : M Machine unit :=
  let* jobs' := commit_loop placements jobs_to_launch jobs_to_attempt_scheduling in
  modify (with_self (with_core_limit_recalc_trigger true)) >>
  for_each jobs' _requeue.

(** [self.queue.sort(key=lambda execution: execution.size)] under the two
    policies that order by size. *)
Definition sort_queue : M Machine unit :=
  let* m := get in
  if decide (policy (self m) = "SIZE" ∨ policy (self m) = "DYNSIZE") then
    modify (with_self (with_queue
      (sorted (queue (self m)) (fun execution => exec_size (executions (state m) execution)))))
  else ret tt.

(** [self.metrics.current_stats]; raises [ZoeException] when the metrics
    are not available. *)
Definition metrics_current_stats `{Environment} : M Machine ClusterStats :=
  let* n := gets readings in
  modify next_reading >>
  match current_stats n with
  | Some platform_state => ret platform_state
  | None => raise ZoeException
  end.

(** One pass of the body of the inner [while True]; the result tells
    whether the loop goes on ([true]) or is left by a [break]. *)
Definition inner_iteration `{Environment} (P : Type) `{SimulatedPlatformOps P} : M Machine bool :=
  _refresh_execution_sizes >>
  sort_queue >>
  let* jobs_to_attempt_scheduling := _pop_all in
  let* stats_result :=
    try_except (let* ps := metrics_current_stats in ret (Some ps)) ZoeException (ret None) in
  match stats_result with
  | None => for_each jobs_to_attempt_scheduling _requeue >> ret false
  | Some platform_state =>
      let cluster_status_snapshot : P := SimulatedPlatform platform_state in
      let free_resources := aggregated_free_memory cluster_status_snapshot in
      let* st := gets state in
      let '(sim, jobs_to_launch, _) :=
        placement_loop st jobs_to_attempt_scheduling cluster_status_snapshot [] free_resources in
      let placements := get_service_allocation sim in
      commit_and_requeue placements jobs_to_launch jobs_to_attempt_scheduling >>
      let* q := gets (fun m => queue (self m)) in
      if decide (length q = 0%nat) then ret false
      else if decide (length jobs_to_launch = 0%nat) then ret false
      else ret true
  end.

(** The same pass cut in two at line 284.  [pass_until_requeue] is lines
    207 to 282: its result is the local list [jobs_to_attempt_scheduling]
    as the commit loop leaves it, with [jobs_to_launch]; when the metrics
    are not available it is the list of the candidates, with [None].
    [requeue_and_decide] is the rest: the signal to the core-limit thread,
    the requeue pass over that list, and the two tests that end the inner
    loop. *)
Definition pass_until_requeue `{Environment} (P : Type) `{SimulatedPlatformOps P}
    : M Machine (list Z * option (list Z)) :=
  _refresh_execution_sizes >>
  sort_queue >>
  let* jobs_to_attempt_scheduling := _pop_all in
  let* stats_result :=
    try_except (let* ps := metrics_current_stats in ret (Some ps)) ZoeException (ret None) in
  match stats_result with
  | None => ret (jobs_to_attempt_scheduling, None)
  | Some platform_state =>
      let cluster_status_snapshot : P := SimulatedPlatform platform_state in
      let free_resources := aggregated_free_memory cluster_status_snapshot in
      let* st := gets state in
      let '(sim, jobs_to_launch, _) :=
        placement_loop st jobs_to_attempt_scheduling cluster_status_snapshot [] free_resources in
      let placements := get_service_allocation sim in
      let* jobs' := commit_loop placements jobs_to_launch jobs_to_attempt_scheduling in
      ret (jobs', Some jobs_to_launch)
  end.

Definition requeue_and_decide `{Environment} (r : list Z * option (list Z))
    : M Machine bool :=
  match r with
  | (jobs_to_attempt_scheduling, None) =>
      for_each jobs_to_attempt_scheduling _requeue >> ret false
  | (jobs_to_attempt_scheduling, Some jobs_to_launch) =>
      modify (with_self (with_core_limit_recalc_trigger true)) >>
      for_each jobs_to_attempt_scheduling _requeue >>
      let* q := gets (fun m => queue (self m)) in
      if decide (length q = 0%nat) then ret false
      else if decide (length jobs_to_launch = 0%nat) then ret false
      else ret true
  end.

(** ** The dead-service detector, [_check_dead_services] *)

(** [for x in l: body x] when the body may mutate the list [l] it runs
    over: the iterator of a Python list keeps an index into the live list,
    reads the element at that index on each turn and stops when the index
    is past the end.  [current] reads the live list; [fuel] bounds the
    number of turns. *)
Fixpoint for_each_live {St A} (fuel : nat) (current : St -> list A) (i : nat)
    (body : A -> M St unit) : M St unit :=
  match fuel with
  | O => ret tt
  | S fuel' =>
      let* l := gets current in
      match l !! i with
      | None => ret tt
      | Some x => body x >> for_each_live fuel' current (S i) body
      end
  end.

(** The service on which the inner [for service in execution.services]
    stops: the first dead one of the given kind. *)
Definition first_dead_service (st : Store) (essential : bool) (execution : Z) : option Z :=
  List.find
    (fun service =>
       bool_decide (service_essential (services st service) = essential) &&
       bool_decide (service_backend_status (services st service) = BACKEND_DIE_STATUS))
    (exec_services (executions st execution)).

(** The body of the first sweep: an essential service died. *)
Definition terminate_if_essential_died (execution : Z) : M Machine unit :=
  let* st := gets state in
  match first_dead_service st true execution with
  | Some service =>
      modify (with_state (with_service service restarted)) >>
      modify (with_state (with_execution execution set_cleaning_up)) >>
      terminate execution
  | None => ret tt
  end.

(** The body of the second sweep: an elastic service died. *)
Definition reschedule_if_elastic_died (execution : Z) : M Machine unit :=
  let* st := gets state in
  match first_dead_service st false execution with
  | Some service =>
      modify (log_call (CallTerminateService service)) >>
      modify (with_state (with_service service restarted)) >>
      queue_running_remove execution >>
      modify (with_self (fun s => with_queue (queue s ++ [execution]) s))
  | None => ret tt
  end.

(** Both sweeps run over [self.queue_running] while their bodies remove
    executions from it.  Neither body lengthens the list, so its length on
    entry bounds the number of turns. *)
Definition sweep (body : Z -> M Machine unit) : M Machine unit :=
  let* n := gets (fun m => length (queue_running (self m))) in
  for_each_live n (fun m => queue_running (self m)) 0 body.

Definition _check_dead_services : M Machine unit :=
  sweep terminate_if_essential_died >>
  sweep reschedule_if_elastic_died.

(** [inner_loop] is the inner [while True], with [fuel] bounding its
    passes; [loop_start_th] is one wake-up of the scheduler loop, after the
    trigger semaphore was acquired and [loop_quit] found false. *)
Fixpoint inner_loop `{Environment} (P : Type) `{SimulatedPlatformOps P} (fuel : nat)
    : M Machine unit :=
  match fuel with
  | O => ret tt
  | S fuel' =>
      let* again := inner_iteration P in
      if again : bool then inner_loop P fuel' else ret tt
  end.

Definition loop_start_th `{Environment} (P : Type) `{SimulatedPlatformOps P} (fuel : nat)
    : M Machine unit :=
  _check_dead_services >>
  let* q := gets (fun m => queue (self m)) in
  if decide (length q = 0%nat)
  then modify (with_self (with_core_limit_recalc_trigger true))
  else inner_loop P fuel.

(** ** The core-limit thread, [_adjust_core_limits] *)

(** Modelled from the spec: [self.state.services.select(backend_host=...,
    backend_status=...)] returns the services of the table with these two
    attributes. *)
Definition services_select (st : Store) (host : string) (status : BackendStatus) : list Z :=
  filter (fun service =>
            service_backend_host (services st service) = host ∧
            service_backend_status (services st service) = status)
         (service_rows st).

(** [cores_to_add] for a node with [n] started services. *)
Definition cores_to_add (node : NodeStats) (n : nat) : Q :=
  if Qlt_le_dec (cores_reserved node) (cores_total node) then
    let cores_free := (cores_total node - cores_reserved node)%Q in
    (cores_free / inject_Z (Z.of_nat n))%Q
  else 0%Q.

(** The body of [for node in stats.nodes]. *)
Definition adjust_node (node : NodeStats) : M Machine unit :=
  let* st := gets state in
  let node_services := services_select st (node_name node) BACKEND_START_STATUS in
  if decide (length node_services = 0%nat) then ret tt
  else
    let new_core_allocations : gmap Z Q :=
      foldl (fun d service => <[service := service_cores_min (services st service)]> d)
            ∅ node_services in
    let extra := cores_to_add node (length node_services) in
    for_each node_services (fun service =>
      match new_core_allocations !! service with
      | Some baseline =>
          modify (log_call
            (CallUpdateServiceResourceLimits service [("cores", (baseline + extra)%Q)]))
      | None => raise KeyError
      end).

(** [_adjust_core_limits]: one cycle of its loop, from the return of
    [core_limit_recalc_trigger.wait()] with [loop_quit] false to the
    [clear()] that ends the cycle. *)
Definition _adjust_core_limits `{Environment} : M Machine unit :=
  let* stats := metrics_current_stats in
  for_each (nodes stats) adjust_node >>
  modify (with_self (with_core_limit_recalc_trigger false)).

(** ** The simulated platform itself *)

Module Simulated.

(** Modelled from the spec: the class [SimulatedPlatform] of
    [zoe_master/scheduler/simulated_platform.py], which is not among the
    sources.  The platform holds a mutable copy of the nodes of the
    snapshot and the placements made so far; a placement records the
    position of the node in the snapshot. *)
Record Platform := mkPlatform {
  sim_nodes : list NodeStats;
  sim_allocation : gmap Z nat
}.

Definition new (platform_state : ClusterStats) : Platform :=
  {| sim_nodes := nodes platform_state; sim_allocation := ∅ |}.

(** Reserving [mem] on the node leaves its reserved memory within its
    total. *)
Definition fits (mem : Z) (node : NodeStats) : bool :=
  memory_reserved node + mem <=? memory_total node.

Definition residual (node : NodeStats) : Z := memory_total node - memory_reserved node.

(** Best fit by residual memory, ties broken by node name ascending. *)
Definition better (a b : NodeStats) : bool :=
  (residual a <? residual b) ||
  ((residual a =? residual b) && String.ltb (node_name a) (node_name b)).

Fixpoint choose_node (mem : Z) (l : list NodeStats) (i : nat)
    (best : option (nat * NodeStats)) : option (nat * NodeStats) :=
  match l with
  | [] => best
  | node :: l' =>
      let best' :=
        if fits mem node then
          match best with
          | None => Some (i, node)
          | Some (_, b) => if better node b then Some (i, node) else best
          end
        else best in
      choose_node mem l' (S i) best'
  end.

Definition reserve (mem : Z) (node : NodeStats) : NodeStats :=
  mkNodeStats (node_name node) (cores_total node) (cores_reserved node)
    (memory_total node) (memory_reserved node + mem).

(** Place one service: record the placement and deduct the reservation;
    [None] when the service fits on no node. *)
Definition place (st : Store) (service : Z) (p : Platform) : option Platform :=
  let mem := service_memory_min (services st service) in
  match choose_node mem (sim_nodes p) 0 None with
  | Some (i, _) =>
      Some {| sim_nodes := alter (reserve mem) i (sim_nodes p);
              sim_allocation := <[service := i]> (sim_allocation p) |}
  | None => None
  end.

Definition services_of (st : Store) (essential : bool) (execution : Z) : list Z :=
  filter (fun service => service_essential (services st service) = essential)
         (exec_services (executions st execution)).

Fixpoint place_all (st : Store) (l : list Z) (p : Platform) : option Platform :=
  match l with
  | [] => Some p
  | service :: l' =>
      match place st service p with
      | Some p' => place_all st l' p'
      | None => None
      end
  end.

(** All-or-nothing: when an essential service fits nowhere the platform is
    rolled back to what it was on entry. *)
Definition allocate_essential (st : Store) (execution : Z) (p : Platform) : bool * Platform :=
  let on_entry := p in
  match place_all st (services_of st true execution) p with
  | Some p' => (true, p')
  | None => (false, on_entry)
  end.

(** Greedy: a service that does not fit is skipped, and one that is
    already placed is left where it is. *)
Definition allocate_elastic (st : Store) (execution : Z) (p : Platform) : Platform :=
  foldl (fun p service =>
           match sim_allocation p !! service with
           | Some _ => p
           | None => default p (place st service p)
           end)
        p (services_of st false execution).

Definition deallocate_elastic (st : Store) (execution : Z) (p : Platform) : Platform :=
  foldl (fun p service =>
           match sim_allocation p !! service with
           | Some i =>
               {| sim_nodes :=
                    alter (reserve (- service_memory_min (services st service))) i (sim_nodes p);
                  sim_allocation := delete service (sim_allocation p) |}
           | None => p
           end)
        p (services_of st false execution).

Definition aggregated_free_memory (p : Platform) : Z :=
  foldr (fun node acc => residual node + acc) 0 (sim_nodes p).

Definition get_service_allocation (p : Platform) : Placements :=
  omap (fun i => node_name <$> sim_nodes p !! i) (sim_allocation p).

(** The memory that the services [l] reserve in all, and the part of it
    that the allocation [alloc] puts on the node at position [i]. *)
Definition memory_mins (st : Store) (l : list Z) : Z :=
  foldr (fun service acc => service_memory_min (services st service) + acc) 0 l.

Definition deducted (st : Store) (alloc : gmap Z nat) (l : list Z) (i : nat) : Z :=
  foldr (fun service acc =>
           if decide (alloc !! service = Some i)
           then service_memory_min (services st service) + acc else acc) 0 l.

(** No node has more memory reserved than it has. *)
Definition within_memory (p : Platform) : Prop :=
  Forall (fun node => memory_reserved node <= memory_total node) (sim_nodes p).

#[global] Instance ops : SimulatedPlatformOps Platform :=
  Build_SimulatedPlatformOps Platform new allocate_essential allocate_elastic
    deallocate_elastic aggregated_free_memory get_service_allocation.

End Simulated.

(** ** The state after [terminate] *)

(** What [terminate] leaves behind once the execution was found in a
    queue; [q] and [qr] are the two queues after the removal. *)
Definition terminated (execution : Z) (q qr : list Z) (m : Machine) : Machine :=
  with_self (fun s =>
    with_async_threads (async_threads s ++ [execution])
      (with_core_limit_recalc_trigger true
         (with_additional_exec_state (delete execution (additional_exec_state s))
            (with_queue_running qr (with_queue q s))))) m.

(** ** The inner placement round, as the specification words it *)

Section PlacementSpec.
Context `{Environment} `{SimulatedPlatformOps P} (st : Store).

(** What processing one candidate does to the simulator and to
    [jobs_to_launch], up to the comparison of the free memory: deallocate
    the elastic placements of every job to launch; a running candidate is
    placeable, for another one [allocate_essential] decides; a placeable
    candidate is appended; the elastic services of every job to launch are
    allocated again. *)
Definition spec_candidate (candidate : Z) (sim : P) (jobs_to_launch : list Z)
    : P * list Z :=
  let sim_d := fold_left (fun s j => deallocate_elastic st j s) jobs_to_launch sim in
  let '(placeable, sim_e) :=
    if is_running st candidate then (true, sim_d)
    else allocate_essential st candidate sim_d in
  let jobs_to_launch' :=
    if placeable then jobs_to_launch ++ [candidate] else jobs_to_launch in
  (fold_left (fun s j => allocate_elastic st j s) jobs_to_launch' sim_e, jobs_to_launch').

(** [spec_round candidates sim jobs free recorded out]: from the simulator
    [sim], the jobs to launch [jobs] and the recorded free memory [free],
    the round over [candidates] records the free memories [recorded], one
    per accepted candidate, and ends with [out]. *)
Inductive spec_round : list Z -> P -> list Z -> Z -> list Z -> P * list Z * Z -> Prop :=
| spec_round_end sim jobs free :
    spec_round [] sim jobs free [] (sim, jobs, free)
| spec_round_no_progress candidate rest sim jobs free sim' jobs' :
    spec_candidate candidate sim jobs = (sim', jobs') ->
    free <= aggregated_free_memory sim' ->
    spec_round (candidate :: rest) sim jobs free [] (sim', jobs, free)
| spec_round_progress candidate rest sim jobs free sim' jobs' recorded out :
    spec_candidate candidate sim jobs = (sim', jobs') ->
    aggregated_free_memory sim' < free ->
    spec_round rest sim' jobs' (aggregated_free_memory sim') recorded out ->
    spec_round (candidate :: rest) sim jobs free
      (aggregated_free_memory sim' :: recorded) out.

End PlacementSpec.

(** ** The core-limit rebalancer, as the specification words it *)

(** The calls for one node: none when no service is started on it,
    otherwise one [update_service_resource_limits] per started service,
    with [cores] equal to the [cores.min] of the service plus the extra. *)
Definition spec_extra (node : NodeStats) (count : nat) : Q :=
  if Qlt_le_dec (cores_reserved node) (cores_total node)
  then ((cores_total node - cores_reserved node) / inject_Z (Z.of_nat count))%Q
  else 0%Q.

Definition spec_node_calls (st : Store) (node : NodeStats) : list BackendCall :=
  let started := services_select st (node_name node) BACKEND_START_STATUS in
  match started with
  | [] => []
  | _ =>
      map (fun service =>
             CallUpdateServiceResourceLimits service
               [("cores",
                 (service_cores_min (services st service) +
                  spec_extra node (length started))%Q)])
          started
  end.

(** The machine after the calls [cs] were made. *)
Definition log_calls (cs : list BackendCall) (m : Machine) : Machine :=
  mkMachine (self m) (state m) (held_locks m) (backend_log m ++ cs) (readings m).

(** The calls made since the machine was in state [m]. *)
Definition calls_since (m m' : Machine) : list BackendCall :=
  drop (length (backend_log m)) (backend_log m').

(** The value of a keyword argument of a call. *)
Fixpoint kwarg (k : string) (kwargs : list (string * Q)) : option Q :=
  match kwargs with
  | [] => None
  | (k', v) :: rest => if decide (k' = k) then Some v else kwarg k rest
  end.

(** The cores a call requests, and their total over a list of calls. *)
Definition cores_requested (c : BackendCall) : Q :=
  match c with
  | CallUpdateServiceResourceLimits _ kwargs => default 0%Q (kwarg "cores" kwargs)
  | _ => 0%Q
  end.

Definition total_cores_requested (cs : list BackendCall) : Q :=
  foldr (fun c acc => (cores_requested c + acc)%Q) 0%Q cs.

(** A call that sets a memory limit. *)
Definition changes_memory (c : BackendCall) : Prop :=
  match c with
  | CallUpdateServiceResourceLimits _ kwargs => is_Some (kwarg "memory" kwargs)
  | _ => False
  end.

(** The sum of the [cores.min] of a list of services. *)
Definition baselines (st : Store) (l : list Z) : Q :=
  foldr (fun service acc => (service_cores_min (services st service) + acc)%Q) 0%Q l.

(** The rebalancer keeps the node within its total: the cores requested
    for the node by [adjust_node] sum to at most [cores_total], and no call
    requests more than [cores_total]. *)
Definition within_cores_total (m : Machine) (node : NodeStats) : Prop :=
  let calls := calls_since m (adjust_node node m).2 in
  (total_cores_requested calls <= cores_total node)%Q /\
  Forall (fun c => (cores_requested c <= cores_total node)%Q) calls.

(** ** The arithmetic of the rebalancer in binary64 *)

(** The cores of a node and the [cores.min] of a service are Python
    numbers, and [cores_free / len(node_services)] is a true division:
    lines 336 to 343 compute in binary64, rounding to nearest, ties to
    even.  [Binary64] embeds them over the specification of IEEE 754
    arithmetic of the Standard Library.  An operand that Python holds as an
    [int] enters the arithmetic converted to a float, which is exact below
    2^53.  The calls are collected in a log of their own, each with the
    service and the float passed as [cores]. *)
Module Binary64.

Definition float : Type := SpecFloat.spec_float.
Definition prec : Z := 53.
Definition emax : Z := 1024.

Definition add : float -> float -> float := SpecFloat.SFadd prec emax.
Definition sub : float -> float -> float := SpecFloat.SFsub prec emax.
Definition div : float -> float -> float := SpecFloat.SFdiv prec emax.
Definition ltb : float -> float -> bool := SpecFloat.SFltb.

(** [float(n)] for an [int] [n]. *)
Definition of_Z (n : Z) : float := SpecFloat.binary_normalize prec emax n 0 false.


(** The rational number that a finite float is. *)
Definition to_Q (x : float) : Q :=
  match x with
  | SpecFloat.S754_finite s m e =>
      ((if s then -1 else 1) * inject_Z (Z.pos m) * Qpower 2 e)%Q
  | _ => 0%Q
  end.

Record Node := mkNode {
  name : string;
  cores_total : float;
  cores_reserved : float
}.

(** Lines 336 to 340: [cores_to_add] for a node with [n] started
    services. *)
Definition cores_to_add (node : Node) (n : nat) : float :=
  if ltb (cores_reserved node) (cores_total node) then
    let cores_free := sub (cores_total node) (cores_reserved node) in
    div cores_free (of_Z (Z.of_nat n))
  else of_Z 0.

Definition update_service_resource_limits (service : Z) (cores : float)
    : M (list (Z * float)) unit :=
  modify (fun log => log ++ [(service, cores)]).

(** Lines 328 to 343, the body of [for node in stats.nodes];
    [cores_min service] is [service.resource_reservation.cores.min]. *)
Definition adjust_node (st : Store) (cores_min : Z -> float) (node : Node)
    : M (list (Z * float)) unit :=
  let node_services := services_select st (name node) BACKEND_START_STATUS in
  if decide (length node_services = 0%nat) then ret tt
  else
    let new_core_allocations : gmap Z float :=
      foldl (fun d service => <[service := cores_min service]> d) ∅ node_services in
    let extra := cores_to_add node (length node_services) in
    for_each node_services (fun service =>
      match new_core_allocations !! service with
      | Some baseline => update_service_resource_limits service (add baseline extra)
      | None => raise KeyError
      end).

(** The calls made for a node, and the total of the cores they issue. *)
Definition issued (st : Store) (cores_min : Z -> float) (node : Node) : list (Z * float) :=
  (adjust_node st cores_min node []).2.

Definition total_issued (calls : list (Z * float)) : Q :=
  foldr (fun c acc => (to_Q c.2 + acc)%Q) 0%Q calls.

(** The sum of the [cores.min] of a list of services. *)
Definition baselines (cores_min : Z -> float) (l : list Z) : Q :=
  foldr (fun service acc => (to_Q (cores_min service) + acc)%Q) 0%Q l.


(** The bound as the specification states it: the cores issued for the
    node sum to at most [cores_total], and no call requests more. *)
Definition within_cores_total (st : Store) (cores_min : Z -> float) (node : Node) : Prop :=
  let calls := issued st cores_min node in
  (total_issued calls <= to_Q (cores_total node))%Q /\
  Forall (fun c => (to_Q c.2 <= to_Q (cores_total node))%Q) calls.



End Binary64.

(** ** The refresh of the sizes, execution by execution *)

(** What the specification says of the size of a queued execution with
    [last_time_scheduled > 0]: it is never at or below zero unless it is the
    floor [cores.min * memory.min]. *)
Definition floor_size (x : Execution) : Q :=
  (exec_cores_min x * inject_Z (exec_memory_min x))%Q.

Definition sizes_floored (m : Machine) : Prop :=
  forall (e : Z) (d : ExecutionProgress),
    e ∈ queue (self m) ->
    additional_exec_state (self m) !! e = Some d ->
    (0 < last_time_scheduled d)%Q ->
    (0 < exec_size (executions (state m) e))%Q \/
    exec_size (executions (state m) e) == floor_size (executions (state m) e).

(** What [_refresh_execution_sizes] does to the execution [e], of progress
    [d], between the machine states [m] and [m']: nothing when it was never
    scheduled; a reset to the floor when its size was at or below zero;
    otherwise a decay by the time elapsed at some reading [k] of the clock
    made in between, with no floor. *)
Definition decay_rate : Q := inject_Z (256 * 1024 ^ 2).

Definition refreshed `{Environment} (m m' : Machine) (e : Z) (d : ExecutionProgress) : Prop :=
  let x := executions (state m) e in
  let x' := executions (state m') e in
  (last_time_scheduled d == 0 -> x' = x) /\
  (~ last_time_scheduled d == 0 -> (exec_size x <= 0)%Q ->
   x' = set_size (floor_size x) x) /\
  (~ last_time_scheduled d == 0 -> (0 < exec_size x)%Q ->
   exists k : nat,
     (readings m <= k < readings m')%nat /\
     x' = set_size
            (exec_size x - (time_time k - last_time_scheduled d) * decay_rate)%Q x).

(** ** What the commit loop leaves alone *)

(** The number of times an execution occurs in a queue. *)
Definition occurrences (e : Z) (l : list Z) : nat := count_occ Z.eq_dec l e.
Arguments occurrences : simpl never.

(** The scheduler did nothing about the execution [e] between [m] and
    [m']: it occurs as often in each queue, its termination lock is in the
    same state and its [ExecutionProgress] is the same. *)
Definition untouched (e : Z) (m m' : Machine) : Prop :=
  occurrences e (queue (self m')) = occurrences e (queue (self m)) /\
  occurrences e (queue_running (self m')) = occurrences e (queue_running (self m)) /\
  (e ∈ held_locks m' <-> e ∈ held_locks m) /\
  additional_exec_state (self m') !! e = additional_exec_state (self m) !! e.

(** A computation that makes no backend call and leaves every execution
    other than [job] untouched. *)
Definition quiet {A} (job : Z) (c : M Machine A) : Prop :=
  forall m, backend_log (c m).2 = backend_log m /\
            forall e, e ≠ job -> untouched e m (c m).2.

(** The local list returned is the one received, or the one received
    without the job. *)
Definition shrinks_by (j : Z) (ja : list Z) (r : Result (list Z)) : Prop :=
  forall ja', r = Return ja' -> ja' = ja \/ list_remove j ja = Some ja'.

(** A computation that leaves the scheduler object, the locks and the log
    of backend calls as they are. *)
Definition silent {A} (c : M Machine A) : Prop :=
  forall m, self (c m).2 = self m /\
            held_locks (c m).2 = held_locks m /\
            backend_log (c m).2 = backend_log m.

(** The execution that a call to the backend is about. *)
Definition call_about (job : Z) (c : BackendCall) : Prop :=
  match c with
  | CallStartEssential e _ => e = job
  | CallStartElastic e => e = job
  | _ => False
  end.

(** ** Invariants *)

(** Every execution of the pending queue has its [ExecutionProgress]. *)
Definition queue_has_progress (s : Scheduler) : Prop :=
  forall e : Z, e ∈ queue s -> is_Some (additional_exec_state s !! e).

(** ** Concrete scenarios *)

Module Scenario.

(** A cluster of one node with 8 cores, 4 of them reserved, and 8 GiB of
    memory; two executions, [1] and [2], each with an essential service
    ([11], [21]) and an elastic one ([12], [22]), all started on the
    node. *)
Definition GiB : Z := 1024 ^ 3.
Definition MiB : Z := 1024 ^ 2.

Definition N1 : NodeStats := mkNodeStats "N1" 8 4 (8 * GiB) 0.

(** The same node when it reports 2 cores in total and 4 reserved. *)
Definition N1_overcommitted : NodeStats := mkNodeStats "N1" 2 4 (8 * GiB) 0.

Definition service_table (service : Z) : Service :=
  mkService (bool_decide (service = 11 \/ service = 21)) BACKEND_START_STATUS "N1" 1 (2 * GiB).

Definition execution_table (execution : Z) : Execution :=
  mkExecution (if decide (execution = 1) then inject_Z (100 * MiB) else inject_Z (10 * MiB))
    RUNNING_STATUS [execution * 10 + 1; execution * 10 + 2] 1 (2 * GiB).

Definition store : Store := mkStore execution_table service_table [1; 2] [11; 12; 21; 22].

Definition all_started (st : Store) (l : list Z) : bool :=
  forallb (fun service =>
             bool_decide (service_backend_status (services st service) = BACKEND_START_STATUS)) l.

(** An environment for the scenarios: an execution is running when its
    status says so, its services are running or active when all of them
    are started, the backend answers [fatal] to [start_essential], a second
    passes between two readings of the clock, and the metrics report the
    single node. *)
Definition env : Environment := {|
  is_running st e := bool_decide (exec_status (executions st e) = RUNNING_STATUS);
  essential_services_running st e := false;
  all_services_active st e := all_started st (exec_services (executions st e));
  all_services_running st e := all_started st (exec_services (executions st e));
  start_essential e placements st := (StartFatal, st);
  start_elastic e placements st := st;
  time_time n := inject_Z (Z.of_nat n);
  current_stats n := Some (mkClusterStats [N1])
|}.

(** The backend reports a service as dead. *)
Definition dies (x : Service) : Service :=
  mkService (service_essential x) BACKEND_DIE_STATUS (service_backend_host x)
    (service_cores_min x) (service_memory_min x).

Definition scheduler (pol : string) (q qr : list Z) (aes : gmap Z ExecutionProgress)
    : Scheduler :=
  mkScheduler pol q qr aes [] 0%nat false false.

Definition machine (pol : string) (q qr : list Z) (aes : gmap Z ExecutionProgress)
    : Machine :=
  mkMachine (scheduler pol q qr aes) store ∅ [] 0%nat.

(** Both running executions lose their elastic service. *)
Definition two_dead_elastic : Machine :=
  with_state (with_service 22 dies)
    (with_state (with_service 12 dies) (machine "FIFO" [] [1; 2] ∅)).

(** Execution [1] loses its essential service; execution [2] loses its
    essential service and its elastic one. *)
Definition two_dead_essential : Machine :=
  with_state (with_service 22 dies)
    (with_state (with_service 21 dies)
       (with_state (with_service 11 dies) (machine "FIFO" [] [1; 2] ∅))).

(** Execution [1], of size 100 MiB, is queued under DYNSIZE; it was last
    scheduled at time 1 and the next reading of the clock gives 2. *)
Definition aged : Machine :=
  mkMachine (scheduler "DYNSIZE" [1] [] {[1 := mkExecutionProgress 1 []]})
    store ∅ [] 2%nat.

(** The single node with 7 of its 8 GiB reserved. *)
Definition N1_full : NodeStats := mkNodeStats "N1" 8 4 (8 * GiB) (7 * GiB).

End Scenario.

(** Two more environments for the scenarios: in the first the backend
    answers [requeue] to [start_essential]; in the second the metrics are
    not available. *)
Module Answers.

Definition env_requeue : Environment := {|
  is_running st e := bool_decide (exec_status (executions st e) = RUNNING_STATUS);
  essential_services_running st e := false;
  all_services_active st e := Scenario.all_started st (exec_services (executions st e));
  all_services_running st e := Scenario.all_started st (exec_services (executions st e));
  start_essential e placements st := (StartRequeue, st);
  start_elastic e placements st := st;
  time_time n := inject_Z (Z.of_nat n);
  current_stats n := Some (mkClusterStats [Scenario.N1])
|}.

Definition env_outage : Environment := {|
  is_running st e := bool_decide (exec_status (executions st e) = RUNNING_STATUS);
  essential_services_running st e := false;
  all_services_active st e := Scenario.all_started st (exec_services (executions st e));
  all_services_running st e := Scenario.all_started st (exec_services (executions st e));
  start_essential e placements st := (StartFatal, st);
  start_elastic e placements st := st;
  time_time n := inject_Z (Z.of_nat n);
  current_stats n := None
|}.

End Answers.

(** Two nodes for the arithmetic in binary64.  The first is the node of
    the rebalance scenario of the specification: 8 cores, 4 reserved, four
    started services of [cores.min] 1.  The second has 8 cores, 3 reserved,
    and six started services of [cores.min] 0.5. *)
Module Rounding.






End Rounding.

(** ** Counting the calls that start an execution *)

(** The calls to [start_essential] and to [start_elastic] for a job. *)
Definition starts_essential (job : Z) (c : BackendCall) : bool :=
  match c with
  | CallStartEssential e _ => bool_decide (e = job)
  | _ => false
  end.

Definition starts_elastic (job : Z) (c : BackendCall) : bool :=
  match c with
  | CallStartElastic e => bool_decide (e = job)
  | _ => false
  end.

(** ** The scheduler thread: cleanup, the loop around a wake-up, [quit] *)

Definition with_loop_quit (b : bool) (s : Scheduler) : Scheduler :=
  mkScheduler (policy s) (queue s) (queue_running s) (additional_exec_state s)
    (async_threads s) (trigger_semaphore s) (core_limit_recalc_trigger s) b.

(** [_cleanup_async_threads].  Whether a termination thread is still alive
    after [join(0.1)] is for the thread to say: [isAlive k th] is the answer
    that the [k]-th thread looked at during the call gives. *)
Fixpoint cleanup_loop (isAlive : nat -> Z -> bool) (counter probe : nat)
    : M Machine unit :=
  match counter with
  | O => ret tt
  | S counter' =>
      let* ts := gets (fun m => async_threads (self m)) in
      match ts with
      | [] => ret tt
      | th :: rest =>
          modify (with_self (with_async_threads rest)) >>
          (if isAlive probe th
           then modify (with_self (fun s => with_async_threads (async_threads s ++ [th]) s))
           else ret tt) >>
          cleanup_loop isAlive counter' (S probe)
      end
  end.

Definition _cleanup_async_threads (isAlive : nat -> Z -> bool) : M Machine unit :=
  let* counter := gets (fun m => length (async_threads (self m))) in
  cleanup_loop isAlive counter 0.

(** The threads of a list that answer that they are alive, the first one
    being asked at probe [probe]. *)
Fixpoint found_alive (isAlive : nat -> Z -> bool) (probe : nat) (ts : list Z) : list Z :=
  match ts with
  | [] => []
  | th :: rest =>
      (if isAlive probe th then [th] else []) ++ found_alive isAlive (S probe) rest
  end.

(** [quit], up to the two [join]s, which wait for the threads to end. *)
Definition quit : M Machine unit :=
  modify (with_self (with_loop_quit true)) >>
  trigger >>
  modify (with_self (with_core_limit_recalc_trigger true)).

Definition SELF_TRIGGER_TIMEOUT : Z := 60.

(** [self.trigger_semaphore.acquire(timeout=1)] when no other thread
    releases the semaphore during the wait: it succeeds when the counter is
    positive, and times out otherwise. *)
Definition trigger_semaphore_acquire : M Machine bool :=
  let* n := gets (fun m => trigger_semaphore (self m)) in
  match n with
  | O => ret false
  | S n' => modify (with_self (with_trigger_semaphore n')) >> ret true
  end.

(** How a bounded run of the outer [while True] of [loop_start_th] ends:
    by its [break], or with turns left to do and the value [auto_trigger]
    has. *)
Inductive LoopEnd :=
| LoopBreak
| LoopGoesOn (auto_trigger : Z).

(** The outer [while True] of [loop_start_th], for [turns] turns.
    [isAlive t] gives the answers of the termination threads at the turn
    that has [t] turns after it; [fuel] bounds the passes of the inner loop
    of each wake-up. *)
Fixpoint scheduler_loop `{Environment} (P : Type) `{SimulatedPlatformOps P}
    (isAlive : nat -> nat -> Z -> bool) (fuel turns : nat) (auto_trigger : Z)
    : M Machine LoopEnd :=
  match turns with
  | O => ret (LoopGoesOn auto_trigger)
  | S turns' =>
      let* r := trigger_semaphore_acquire in
      if negb r then
        _cleanup_async_threads (isAlive turns') >>
        let auto_trigger' := auto_trigger - 1 in
        if decide (auto_trigger' = 0) then
          trigger >> scheduler_loop P isAlive fuel turns' SELF_TRIGGER_TIMEOUT
        else scheduler_loop P isAlive fuel turns' auto_trigger'
      else
        let* q := gets (fun m => loop_quit (self m)) in
        if q : bool then ret LoopBreak
        else loop_start_th P fuel >> scheduler_loop P isAlive fuel turns' auto_trigger
  end.

(** The scheduler thread, as [loop_start_th] starts it. *)
Definition scheduler_thread `{Environment} (P : Type) `{SimulatedPlatformOps P}
    (isAlive : nat -> nat -> Z -> bool) (fuel turns : nat) : M Machine LoopEnd :=
  scheduler_loop P isAlive fuel turns SELF_TRIGGER_TIMEOUT.

(** [catch_exceptions_and_retry]: the function is run again after every
    exception, for at most [attempts] runs here; the result tells whether a
    run ended without exception, which ends the thread. *)
Fixpoint catch_exceptions_and_retry {A} (func : M Machine A) (attempts : nat)
    : M Machine bool :=
  match attempts with
  | O => ret false
  | S attempts' =>
      fun m => match func m with
               | (Return _, m') => (Return true, m')
               | (Raise _, m') => catch_exceptions_and_retry func attempts' m'
               end
  end.

(* ===================================================================== *)
(** * Part II: properties *)
(* ===================================================================== *)

(** ** Python list operations *)

Lemma list_remove_None (x : Z) (l : list Z) : list_remove x l = None <-> x ∉ l.
Proof.
  induction l as [|y l IH]; simpl.
  - split; [intros _; apply not_elem_of_nil | done].
  - case_decide as Hxy.
    + subst. split; [done | intros Hn; exfalso; apply Hn; left].
    + rewrite not_elem_of_cons. destruct (list_remove x l) eqn:E; simpl.
      * split; [done | intros [_ Hn]; apply IH in Hn; done].
      * split; [intros _; split; [done | by apply IH] | done].
Qed.

Lemma list_remove_split (x : Z) (l1 l2 : list Z) :
  x ∉ l1 -> list_remove x (l1 ++ x :: l2) = Some (l1 ++ l2).
Proof.
  induction l1 as [|y l1 IH]; simpl; intros Hn.
  - by rewrite decide_True.
  - apply not_elem_of_cons in Hn as [Hxy Hn].
    rewrite decide_False by done. by rewrite IH.
Qed.

Lemma list_remove_Some (x : Z) (l l' : list Z) :
  list_remove x l = Some l' ->
  exists l1 l2, l = l1 ++ x :: l2 /\ (x ∉ l1) /\ l' = l1 ++ l2.
Proof.
  revert l'; induction l as [|y l IH]; intros l'; simpl; [done|].
  case_decide as Hxy.
  - subst y. intros [= <-]. exists [], l. split_and!; [done | apply not_elem_of_nil | done].
  - destruct (list_remove x l) as [r|] eqn:E; simpl; [|done].
    intros [= <-]. destruct (IH r eq_refl) as (l1 & l2 & -> & Hn & ->).
    exists (y :: l1), l2. split_and!; [done | | done].
    apply not_elem_of_cons. done.
Qed.

Lemma list_remove_app_last (x : Z) (l : list Z) :
  x ∉ l -> list_remove x (l ++ [x]) = Some l.
Proof.
  intros Hn. rewrite list_remove_split by done. by rewrite app_nil_r.
Qed.

Lemma list_remove_is_Some (x : Z) (l : list Z) : x ∈ l -> is_Some (list_remove x l).
Proof.
  intros Hin. destruct (list_remove x l) eqn:E; [by eexists|].
  apply list_remove_None in E. done.
Qed.

(** [sorted] returns its input rearranged, in ascending order of the
    keys. *)
Lemma insert_by_key_Permutation {A} (key : A -> Q) (x : A) (l : list A) :
  insert_by_key key x l ≡ₚ x :: l.
Proof.
  induction l as [|y l IH]; cbn; [done|].
  destruct (Qle_bool (key x) (key y)); [done|].
  rewrite IH. apply Permutation_swap.
Qed.

Lemma sorted_Permutation {A} (l : list A) (key : A -> Q) : sorted l key ≡ₚ l.
Proof.
  unfold sorted. induction l as [|x l IH]; cbn; [done|].
  rewrite insert_by_key_Permutation. by apply perm_skip.
Qed.

Lemma insert_by_key_ascending {A} (key : A -> Q) (x : A) (l : list A) :
  StronglySorted (fun a b => (key a <= key b)%Q) l ->
  StronglySorted (fun a b => (key a <= key b)%Q) (insert_by_key key x l).
Proof.
  induction 1 as [|y l Hl IH Hy]; cbn.
  - repeat constructor.
  - destruct (Qle_bool (key x) (key y)) eqn:Hxy.
    + apply Qle_bool_iff in Hxy. constructor; [by constructor|].
      constructor; [done|]. eapply List.Forall_impl; [|exact Hy].
      cbn. intros a Ha. lra.
    + assert (Hyx : (key y <= key x)%Q).
      { apply Qlt_le_weak, Qnot_le_lt. intros Hle. apply Qle_bool_iff in Hle. congruence. }
      constructor; [exact IH|].
      rewrite insert_by_key_Permutation. by constructor.
Qed.

Lemma sorted_ascending {A} (l : list A) (key : A -> Q) :
  StronglySorted (fun a b => (key a <= key b)%Q) (sorted l key).
Proof.
  unfold sorted. induction l as [|x l IH]; cbn; [constructor|].
  by apply insert_by_key_ascending.
Qed.

(** ** The monad *)

Lemma bind_run {A B} (c : M Machine A) (k : A -> M Machine B) (m : Machine) :
  bind c k m =
  match c m with
  | (Return a, m') => k a m'
  | (Raise e, m') => (Raise e, m')
  end.
Proof. reflexivity. Qed.

Lemma bind_modify {A} (f : Machine -> Machine) (k : unit -> M Machine A) (m : Machine) :
  bind (modify f) k m = k tt (f m).
Proof. reflexivity. Qed.

Lemma bind_gets {A B} (f : Machine -> A) (k : A -> M Machine B) (m : Machine) :
  bind (gets f) k m = k (f m) m.
Proof. reflexivity. Qed.

(** ** [incoming] and [terminate] *)

(** Unfolds the monad in the goal. *)
Ltac run :=
  unfold bind, ret, raise, get, gets, modify, try_except; cbn.

Lemma incoming_run (execution : Z) (m : Machine) :
  incoming execution m =
  (Return tt,
   with_self (fun s =>
     with_trigger_semaphore (S (trigger_semaphore s))
       (with_queue (queue s ++ [execution])
          (with_additional_exec_state
             (<[execution := ExecutionProgress_init]> (additional_exec_state s)) s))) m).
Proof. reflexivity. Qed.

Lemma terminate_tail (execution : Z) (m : Machine) :
  (try_except (additional_exec_state_del execution) KeyError (ret tt) >>
   modify (with_self (with_core_limit_recalc_trigger true)) >>
   modify (with_self (fun s => with_async_threads (async_threads s ++ [execution]) s)))%py m
  = (Return tt,
     terminated execution (queue (self m)) (queue_running (self m)) m).
Proof.
  destruct m as [[pol q qr aes th sem clt lq] st h lg rd].
  unfold additional_exec_state_del. run.
  destruct (aes !! execution) eqn:E; cbn.
  - reflexivity.
  - unfold terminated, with_self; cbn. rewrite (delete_id aes execution E). reflexivity.
Qed.

Lemma terminate_from_queue (execution : Z) (m : Machine) (q' : list Z) :
  list_remove execution (queue (self m)) = Some q' ->
  terminate execution m =
  (Return tt, terminated execution q' (queue_running (self m)) m).
Proof.
  intros Hq. unfold terminate.
  unfold bind at 1. unfold try_except at 1. unfold queue_remove.
  unfold bind at 1. unfold bind at 1. unfold gets at 1. rewrite Hq.
  unfold modify at 1, ret at 1.
  rewrite terminate_tail. destruct m as [[] ? ? ? ?]; reflexivity.
Qed.

Lemma terminate_from_queue_running (execution : Z) (m : Machine) (qr' : list Z) :
  list_remove execution (queue (self m)) = None ->
  list_remove execution (queue_running (self m)) = Some qr' ->
  terminate execution m =
  (Return tt, terminated execution (queue (self m)) qr' m).
Proof.
  intros Hq Hqr. unfold terminate.
  unfold bind at 1. unfold try_except at 1. unfold queue_remove.
  unfold bind at 1. unfold bind at 1. unfold gets at 1. rewrite Hq.
  unfold raise at 1. rewrite decide_True by done.
  unfold try_except at 1. unfold queue_running_remove.
  unfold bind at 1. unfold bind at 1. unfold gets at 1. rewrite Hqr.
  unfold modify at 1, ret at 1.
  rewrite terminate_tail. destruct m as [[] ? ? ? ?]; reflexivity.
Qed.

Lemma terminate_in_no_queue (execution : Z) (m : Machine) :
  list_remove execution (queue (self m)) = None ->
  list_remove execution (queue_running (self m)) = None ->
  terminate execution m = (Return tt, m).
Proof.
  intros Hq Hqr. unfold terminate.
  unfold bind at 1. unfold try_except at 1. unfold queue_remove.
  unfold bind at 1. unfold bind at 1. unfold gets at 1. rewrite Hq.
  unfold raise at 1. rewrite decide_True by done.
  unfold try_except at 1. unfold queue_running_remove.
  unfold bind at 1. unfold bind at 1. unfold gets at 1. rewrite Hqr.
  unfold raise at 1. rewrite decide_True by done. reflexivity.
Qed.

(** C6.  For an execution [e] that is in neither queue, [incoming e]
    followed by [terminate e] leaves the pending queue and the running queue
    as they were before [incoming e]; only [async_threads] has grown, by
    the termination thread of [e].  In particular [incoming] appends [e] to
    the pending queue only; and, from any state, [terminate] removes [e]
    from the pending queue when it is there, otherwise from the running
    queue when it is there, touching no other queue, and leaves no
    [ExecutionProgress] entry for [e]; when [e] is in neither queue
    [terminate] changes nothing. *)
Theorem incoming_then_terminate_restores_queues (m : Machine) (e : Z) :
  e ∉ queue (self m) -> e ∉ queue_running (self m) ->
  (exists m1 m2,
     incoming e m = (Return tt, m1) /\
     terminate e m1 = (Return tt, m2) /\
     queue (self m1) = queue (self m) ++ [e] /\
     queue_running (self m1) = queue_running (self m) /\
     additional_exec_state (self m1) !! e = Some ExecutionProgress_init /\
     queue (self m2) = queue (self m) /\
     queue_running (self m2) = queue_running (self m) /\
     additional_exec_state (self m2) !! e = None /\
     async_threads (self m2) = async_threads (self m) ++ [e] /\
     state m2 = state m) /\
  (forall m0 : Machine,
     let m3 := (terminate e m0).2 in
     match list_remove e (queue (self m0)), list_remove e (queue_running (self m0)) with
     | Some q', _ =>
         queue (self m3) = q' /\ queue_running (self m3) = queue_running (self m0) /\
         additional_exec_state (self m3) !! e = None
     | None, Some qr' =>
         queue (self m3) = queue (self m0) /\ queue_running (self m3) = qr' /\
         additional_exec_state (self m3) !! e = None
     | None, None => m3 = m0
     end).
Proof.
  intros Hq Hqr. split.
  - eexists _, _. split; [apply incoming_run|].
    split.
    + apply terminate_from_queue. cbn. by apply list_remove_app_last.
    + destruct m as [[pol q qr aes th sem clt lq] st h lg rd]; cbn in *.
      split_and!; try reflexivity.
      * apply lookup_insert_eq.
      * apply lookup_delete_eq.
  - intros m0 m3. subst m3.
    destruct (list_remove e (queue (self m0))) as [q'|] eqn:E1.
    + rewrite (terminate_from_queue _ _ _ E1).
      destruct m0 as [[] ? ? ? ?]; cbn. split_and!; try reflexivity.
      apply lookup_delete_eq.
    + destruct (list_remove e (queue_running (self m0))) as [qr'|] eqn:E2.
      * rewrite (terminate_from_queue_running _ _ _ E1 E2).
        destruct m0 as [[] ? ? ? ?]; cbn. split_and!; try reflexivity.
        apply lookup_delete_eq.
      * by rewrite (terminate_in_no_queue _ _ E1 E2).
Qed.

Lemma incoming_then_terminate_restores_queues_witness :
  let m := Scenario.machine "FIFO" [2] [3] ∅ in
  (1 ∉ queue (self m)) /\ (1 ∉ queue_running (self m)) /\
  exists m1 m2,
    incoming 1 m = (Return tt, m1) /\ terminate 1 m1 = (Return tt, m2) /\
    queue (self m2) = [2] /\ queue_running (self m2) = [3].
Proof.
  intros m.
  assert (Hq : 1 ∉ queue (self m)) by compute_done.
  assert (Hqr : 1 ∉ queue_running (self m)) by compute_done.
  split; [exact Hq|]. split; [exact Hqr|].
  destruct (incoming_then_terminate_restores_queues m 1 Hq Hqr)
    as [(m1 & m2 & H1 & H2 & _ & _ & _ & H3 & H4 & _) _].
  exists m1, m2. done.
Defined.

(** ** [stats] *)

(** The fields of [stats] that do not depend on the policy. *)
Lemma stats_lengths (m : Machine) :
  queue_length (stats m) = length (queue (self m)) /\
  running_length (stats m) = length (queue_running (self m)) /\
  termination_threads_count (stats m) = length (async_threads (self m)) /\
  stats_running_queue (stats m) = queue_running (self m).
Proof. done. Qed.

Lemma stats_queue_FIFO (m : Machine) :
  policy (self m) = "FIFO" -> stats_queue (stats m) = queue (self m).
Proof. intros Hp. unfold stats; cbn. rewrite Hp. reflexivity. Qed.

Lemma stats_queue_SIZE (m : Machine) :
  policy (self m) = "SIZE" ->
  stats_queue (stats m) =
  sorted (queue (self m)) (fun e => exec_size (executions (state m) e)).
Proof. intros Hp. unfold stats; cbn. rewrite Hp. reflexivity. Qed.

(** C9.  Under the policy DYNSIZE, with execution [1] of size 100 MiB
    queued before execution [2] of size 10 MiB, [stats] reports the queue
    as [1; 2], in insertion order, whereas ascending by size is [2; 1], the
    order in which the scheduler loop sorts the queue under that policy. *)
Theorem stats_DYNSIZE_not_in_size_order :
  let m := (incoming 2 (incoming 1 (Scenario.machine "DYNSIZE" [] [] ∅)).2).2 in
  let size_of e := exec_size (executions (state m) e) in
  stats_queue (stats m) = [1; 2] /\
  Qlt (size_of 2) (size_of 1) /\
  sorted (queue (self m)) size_of = [2; 1] /\
  queue (self (sort_queue m).2) = [2; 1].
Proof. cbn. split_and!; try reflexivity. Qed.

(** ** [_check_dead_services] *)

(** The fuel of a loop over a live list is enough as soon as it covers the
    part of the list from the index on, when the body never lengthens the
    list: more fuel changes nothing. *)
Lemma for_each_live_fuel {St A} (current : St -> list A) (body : A -> M St unit) :
  (forall x s, (length (current (body x s).2) <= length (current s))%nat) ->
  forall (fuel fuel' i : nat) (s : St),
    (length (current s) <= i + fuel)%nat ->
    (length (current s) <= i + fuel')%nat ->
    for_each_live fuel current i body s = for_each_live fuel' current i body s.
Proof.
  intros Hbody. induction fuel as [|fuel IH]; intros [|fuel'] i s H1 H2; cbn.
  - reflexivity.
  - unfold bind, gets. rewrite lookup_ge_None_2 by lia. reflexivity.
  - unfold bind, gets. rewrite lookup_ge_None_2 by lia. reflexivity.
  - unfold bind, gets. destruct (current s !! i) as [x|] eqn:Hx; [|reflexivity].
    pose proof (Hbody x s) as Hlen.
    destruct (body x s) as [[[]|e] s1]; [|reflexivity].
    cbn in Hlen. apply IH; lia.
Qed.

Lemma list_remove_length (x : Z) (l l' : list Z) :
  list_remove x l = Some l' -> length l = S (length l').
Proof.
  intros Hr. apply list_remove_Some in Hr as (l1 & l2 & -> & _ & ->).
  rewrite !length_app. cbn. lia.
Qed.

Lemma terminate_queue_running_length (e : Z) (m : Machine) :
  (length (queue_running (self (terminate e m).2)) <= length (queue_running (self m)))%nat.
Proof.
  destruct (list_remove e (queue (self m))) as [q'|] eqn:E1.
  - rewrite (terminate_from_queue _ _ _ E1). destruct m as [[] ? ? ? ?]; cbn. lia.
  - destruct (list_remove e (queue_running (self m))) as [qr'|] eqn:E2.
    + rewrite (terminate_from_queue_running _ _ _ E1 E2).
      apply list_remove_length in E2. destruct m as [[] ? ? ? ?]; cbn in *. lia.
    + rewrite (terminate_in_no_queue _ _ E1 E2). cbn. lia.
Qed.

Lemma terminate_if_essential_died_length (e : Z) (m : Machine) :
  (length (queue_running (self (terminate_if_essential_died e m).2))
   <= length (queue_running (self m)))%nat.
Proof.
  unfold terminate_if_essential_died. unfold bind at 1. cbn [gets].
  destruct (first_dead_service (state m) true e) as [service|]; [|cbn; lia].
  unfold bind at 1. cbn [modify]. unfold bind at 1. cbn [modify].
  etransitivity; [apply terminate_queue_running_length|]. cbn. lia.
Qed.

Lemma reschedule_if_elastic_died_length (e : Z) (m : Machine) :
  (length (queue_running (self (reschedule_if_elastic_died e m).2))
   <= length (queue_running (self m)))%nat.
Proof.
  unfold reschedule_if_elastic_died, queue_running_remove. unfold bind; cbn.
  destruct (first_dead_service (state m) false e) as [service|]; [|cbn; lia].
  cbn. destruct (list_remove e (queue_running (self m))) as [qr'|] eqn:E; cbn; [|lia].
  apply list_remove_length in E. lia.
Qed.

(** Hence the length of the running queue on entry is fuel enough for
    both sweeps. *)
Lemma sweep_fuel_enough (fuel : nat) (m : Machine) :
  (length (queue_running (self m)) <= fuel)%nat ->
  for_each_live fuel (fun m => queue_running (self m)) 0 terminate_if_essential_died m
    = sweep terminate_if_essential_died m /\
  for_each_live fuel (fun m => queue_running (self m)) 0 reschedule_if_elastic_died m
    = sweep reschedule_if_elastic_died m.
Proof.
  intros Hfuel. unfold sweep. rewrite !bind_gets. split.
  - apply for_each_live_fuel; [apply terminate_if_essential_died_length | lia | lia].
  - apply for_each_live_fuel; [apply reschedule_if_elastic_died_length | lia | lia].
Qed.

(** C5.  With the running queue [1; 2] and the elastic service of each of
    the two executions dead ([12] and [22]), and no essential service dead,
    [_check_dead_services] reschedules execution [1] only: execution [2]
    stays in the running queue, [terminate_service] is not called on its
    dead service [22], and [22] is still dead afterwards.  Removing
    execution [1] from the list the loop runs over makes the loop skip the
    execution that follows it. *)
Theorem check_dead_services_skips_next_execution :
  let m := Scenario.two_dead_elastic in
  let m' := (_check_dead_services m).2 in
  queue_running (self m) = [1; 2] /\
  first_dead_service (state m) false 1 = Some 12 /\
  first_dead_service (state m) false 2 = Some 22 /\
  first_dead_service (state m) true 1 = None /\
  first_dead_service (state m) true 2 = None /\
  (_check_dead_services m).1 = Return tt /\
  queue (self m') = [1] /\
  queue_running (self m') = [2] /\
  backend_log m' = [CallTerminateService 12] /\
  service_backend_status (services (state m') 22) = BACKEND_DIE_STATUS.
Proof. cbn. split_and!; reflexivity. Qed.

(** The first sweep skips in the same way: with the essential service of
    both executions dead, and the elastic service of execution [2] dead as
    well, only execution [1] is terminated; the second sweep then
    reschedules execution [2], whose essential service is dead. *)
Lemma check_dead_services_reschedules_dead_essential :
  let m := Scenario.two_dead_essential in
  let m' := (_check_dead_services m).2 in
  first_dead_service (state m) true 2 = Some 21 /\
  (_check_dead_services m).1 = Return tt /\
  async_threads (self m') = [1] /\
  queue (self m') = [2] /\
  queue_running (self m') = [] /\
  exec_status (executions (state m') 2) = RUNNING_STATUS /\
  service_backend_status (services (state m') 21) = BACKEND_DIE_STATUS.
Proof. cbn. split_and!; reflexivity. Qed.

(** ** The [ExecutionProgress] of queued executions *)

Lemma incoming_queue_has_progress (e : Z) (m : Machine) :
  queue_has_progress (self m) -> queue_has_progress (self (incoming e m).2).
Proof.
  intros Hinv. rewrite incoming_run. destruct m as [[pol q qr aes th sem clt lq] st h lg rd].
  cbn in *. intros x Hx; cbn in *.
  destruct (decide (x = e)) as [->|Hne].
  - rewrite lookup_insert_eq. by eexists.
  - rewrite lookup_insert_ne by done. apply Hinv; cbn.
    apply elem_of_app in Hx as [Hx|Hx]; [done|].
    apply list_elem_of_singleton in Hx. done.
Qed.

Lemma recover_queue_has_progress `{Environment} (st : Store) (e : Z) (s : Scheduler) :
  queue_has_progress s -> queue_has_progress (recover st e s).
Proof.
  intros Hinv. unfold recover. destruct (all_services_running st e).
  - destruct s; exact Hinv.
  - destruct s as [pol q qr aes th sem clt lq]. intros x Hx; cbn in *.
    destruct (decide (x = e)) as [->|Hne].
    + rewrite lookup_insert_eq. by eexists.
    + rewrite lookup_insert_ne by done. apply Hinv; cbn.
      apply elem_of_app in Hx as [Hx|Hx]; [done|].
      apply list_elem_of_singleton in Hx. done.
Qed.

Lemma init_queue_has_progress `{Environment} (st : Store) (pol : string) (m : Machine) :
  init st pol = Return m -> queue_has_progress (self m).
Proof.
  unfold init. case_decide; [done|]. intros [= <-]; cbn.
  generalize (filter (fun e => exec_status (executions st e) = RUNNING_STATUS)
                (execution_rows st)).
  intros l.
  assert (Hfresh : queue_has_progress (mkScheduler pol [] [] ∅ [] 0%nat false false)).
  { intros x Hx. cbn in Hx. by apply not_elem_of_nil in Hx. }
  revert Hfresh. generalize (mkScheduler pol [] [] ∅ [] 0%nat false false).
  induction l as [|e l IH]; intros s Hs; cbn; [done|].
  apply IH. by apply recover_queue_has_progress.
Qed.

(** C10.  The scheduler is built over a store whose two running
    executions have all their services running: both are recovered into
    the running queue and neither gets an [ExecutionProgress].  When the
    elastic service [12] of execution [1] then dies, [_check_dead_services]
    moves execution [1] to the pending queue without creating its entry:
    the invariant, true after construction, no longer holds, and both
    [_refresh_execution_sizes] and [_requeue] raise [KeyError] on the queued
    execution. *)
Theorem check_dead_services_requeues_without_progress :
  exists m0 : Machine,
    init (H := Scenario.env) Scenario.store "DYNSIZE" = Return m0 /\
    queue_has_progress (self m0) /\
    let m1 := with_state (with_service 12 Scenario.dies) m0 in
    let m2 := (_check_dead_services m1).2 in
    (_check_dead_services m1).1 = Return tt /\
    queue (self m2) = [1] /\
    additional_exec_state (self m2) !! 1 = None /\
    ~ queue_has_progress (self m2) /\
    (_refresh_execution_sizes (H := Scenario.env) m2).1 = Raise KeyError /\
    ((_pop_all >> _requeue (H := Scenario.env) 1)%py m2).1 = Raise KeyError.
Proof.
  eexists. split; [reflexivity|]. split.
  { intros x Hx. cbn in Hx. by apply not_elem_of_nil in Hx. }
  cbn. split_and!; try reflexivity.
  intros Hinv. destruct (Hinv 1) as [d Hd]; [cbn; left|]. cbn in Hd. done.
Qed.

(** ** The placement loop *)

Lemma foldl_fold_left {A B} (f : A -> B -> A) (l : list B) (a : A) :
  foldl f a l = fold_left f l a.
Proof. revert a; induction l as [|x l IH]; intros a; cbn; [done | apply IH]. Qed.

Lemma last_cons_default {A} (a : A) (l : list A) (d d' : A) :
  List.last (a :: l) d = List.last (a :: l) d'.
Proof.
  revert a; induction l as [|b l IH]; intros a; [reflexivity|].
  change (List.last (b :: l) d = List.last (b :: l) d'). apply IH.
Qed.

Section PlacementLoop.
Context `{Environment} `{SimulatedPlatformOps P} (st : Store).

(** One turn of the loop of the code yields what the specification says
    of one candidate. *)
Lemma placement_loop_cons (job : Z) (rest : list Z) (sim : P) (jobs : list Z) (free : Z) :
  placement_loop st (job :: rest) sim jobs free =
  let '(sim', jobs') := spec_candidate st job sim jobs in
  if aggregated_free_memory sim' >=? free then (sim', jobs, free)
  else placement_loop st rest sim' jobs' (aggregated_free_memory sim').
Proof.
  cbn [placement_loop]. unfold spec_candidate.
  destruct (is_running st job); cbn [negb].
  - rewrite orb_true_r, !foldl_fold_left. reflexivity.
  - rewrite foldl_fold_left.
    destruct (allocate_essential st job _) as [ok sim2].
    rewrite orb_false_r, foldl_fold_left. reflexivity.
Qed.

(** C1.  The candidate loop of the code runs the inner placement round
    of the specification: each candidate is processed as [spec_candidate]
    says; when the free memory after it is at least the recorded one, the
    jobs to launch are those from before the candidate and the loop is
    left; otherwise the new free memory is recorded and the loop goes on.
    Consequently the recorded free memories, starting from the one on
    entry, decrease strictly, the last of them is the free memory the
    loop ends with, and every job added to the jobs to launch accounts for
    one strict decrease. *)
Theorem placement_loop_runs_spec_round (candidates : list Z) (sim : P)
    (jobs : list Z) (free : Z) :
  exists recorded : list Z,
    spec_round st candidates sim jobs free recorded
      (placement_loop st candidates sim jobs free) /\
    StronglySorted Z.gt (free :: recorded) /\
    (placement_loop st candidates sim jobs free).2 = List.last recorded free /\
    (placement_loop st candidates sim jobs free).2 + Z.of_nat (length recorded) <= free /\
    (length (placement_loop st candidates sim jobs free).1.2
     <= length jobs + length recorded)%nat.
Proof.
  revert sim jobs free.
  induction candidates as [|job rest IH]; intros sim jobs free.
  - exists []. cbn. split_and!; try done; try lia.
    + constructor.
    + repeat constructor.
  - rewrite placement_loop_cons.
    destruct (spec_candidate st job sim jobs) as [sim' jobs'] eqn:Hc.
    destruct (Z.geb_spec (aggregated_free_memory sim') free) as [Hge|Hlt].
    + exists []. cbn. split_and!; try done; try lia.
      * eapply spec_round_no_progress; [exact Hc | lia].
      * repeat constructor.
    + destruct (IH sim' jobs' (aggregated_free_memory sim'))
        as (recorded & Hround & Hsorted & Hlast & Hsum & Hlen).
      exists (aggregated_free_memory sim' :: recorded).
      assert (Hjobs' : (length jobs' <= S (length jobs))%nat).
      { unfold spec_candidate in Hc.
        destruct (is_running st job).
        - injection Hc as _ <-. rewrite length_app. cbn. lia.
        - destruct (allocate_essential st job _) as [[] ?];
            injection Hc as _ <-; [rewrite length_app; cbn|]; lia. }
      split_and!.
      * eapply spec_round_progress; [exact Hc | lia | exact Hround].
      * constructor; [exact Hsorted|].
        constructor; [lia|].
        apply StronglySorted_inv in Hsorted as [_ Hall].
        eapply Forall_impl; [|exact Hall]. cbn. intros z Hz. lia.
      * rewrite Hlast. destruct recorded as [|z recorded]; [reflexivity|].
        change (List.last (z :: recorded) (aggregated_free_memory sim') =
                List.last (z :: recorded) free).
        apply last_cons_default.
      * cbn [length]. lia.
      * cbn [length]. lia.
Qed.

(** The jobs to launch are the ones on entry followed by some of the
    candidates, in their order. *)
Lemma placement_loop_jobs (candidates : list Z) (sim : P) (jobs : list Z) (free : Z) :
  exists added,
    (placement_loop st candidates sim jobs free).1.2 = jobs ++ added /\
    added `sublist_of` candidates.
Proof.
  revert sim jobs free.
  induction candidates as [|job rest IH]; intros sim jobs free.
  - exists []. cbn. by rewrite app_nil_r.
  - rewrite placement_loop_cons.
    destruct (spec_candidate st job sim jobs) as [sim' jobs'] eqn:Hc.
    destruct (aggregated_free_memory sim' >=? free).
    + exists []. cbn. rewrite app_nil_r. split; [done | apply sublist_nil_l].
    + destruct (IH sim' jobs' (aggregated_free_memory sim')) as (added & -> & Hsub).
      unfold spec_candidate in Hc.
      assert (Hjobs' : jobs' = jobs ++ [job] \/ jobs' = jobs).
      { destruct (is_running st job).
        - injection Hc as _ <-. by left.
        - destruct (allocate_essential st job _) as [[] ?];
            injection Hc as _ <-; [by left | by right]. }
      destruct Hjobs' as [->| ->].
      * exists (job :: added). rewrite <- app_assoc. split; [done | by apply sublist_skip].
      * exists added. split; [done | by apply sublist_cons].
Qed.

End PlacementLoop.

(** The loop on the simulated platform of the specification.  With 8 GiB
    free, executions [1] and [2], both running, are accepted in turn: their
    elastic services take 2 GiB each.  With 1 GiB free the elastic service
    of execution [1] does not fit, the free memory does not go down, and the
    loop is left with no job to launch. *)
Example placement_loop_accepts_both :
  let sim := Simulated.new (mkClusterStats [Scenario.N1]) in
  let out :=
    placement_loop (H := Scenario.env) Scenario.store [1; 2] sim []
      (Simulated.aggregated_free_memory sim) in
  out.1.2 = [1; 2] /\ out.2 = 4 * Scenario.GiB /\
  Simulated.sim_allocation out.1.1 = {[12 := 0%nat; 22 := 0%nat]}.
Proof. split_and!; reflexivity. Qed.

Example placement_loop_no_progress :
  let sim := Simulated.new (mkClusterStats [Scenario.N1_full]) in
  let out :=
    placement_loop (H := Scenario.env) Scenario.store [1; 2] sim []
      (Simulated.aggregated_free_memory sim) in
  out.1.2 = [] /\ out.2 = 1 * Scenario.GiB.
Proof. split_and!; reflexivity. Qed.

(** ** The core-limit rebalancer *)

Lemma log_calls_nil (m : Machine) : log_calls [] m = m.
Proof. destruct m; unfold log_calls; cbn. by rewrite app_nil_r. Qed.

Lemma log_calls_app (cs1 cs2 : list BackendCall) (m : Machine) :
  log_calls cs2 (log_calls cs1 m) = log_calls (cs1 ++ cs2) m.
Proof. destruct m; unfold log_calls; cbn. by rewrite app_assoc. Qed.

Lemma calls_since_log_calls (cs : list BackendCall) (m : Machine) :
  calls_since m (log_calls cs m) = cs.
Proof. unfold calls_since, log_calls; cbn. by rewrite drop_app_length. Qed.

(** The dictionary [new_core_allocations] maps every service of the node
    to its own [cores.min]. *)
Lemma new_core_allocations_lookup (f : Z -> Q) (l : list Z) (d0 : gmap Z Q) (x : Z) :
  foldl (fun d service => <[service := f service]> d) d0 l !! x =
  if decide (x ∈ l) then Some (f x) else d0 !! x.
Proof.
  revert d0; induction l as [|y l IH]; intros d0; cbn.
  - rewrite decide_False; [done | apply not_elem_of_nil].
  - rewrite IH. destruct (decide (x ∈ l)) as [Hin|Hnin].
    + rewrite decide_True; [done | by right].
    + destruct (decide (x = y)) as [->|Hne].
      * rewrite decide_True by left. apply lookup_insert_eq.
      * rewrite decide_False.
        -- by apply lookup_insert_ne.
        -- rewrite not_elem_of_cons. done.
Qed.

Lemma for_each_update_limits (f : Z -> Q) (alloc : gmap Z Q) (extra : Q)
    (l : list Z) (m : Machine) :
  (forall x, x ∈ l -> alloc !! x = Some (f x)) ->
  for_each l (fun service =>
    match alloc !! service with
    | Some baseline =>
        modify (log_call
          (CallUpdateServiceResourceLimits service [("cores", (baseline + extra)%Q)]))
    | None => raise KeyError
    end) m
  = (Return tt,
     log_calls (map (fun service =>
       CallUpdateServiceResourceLimits service [("cores", (f service + extra)%Q)]) l) m).
Proof.
  revert m; induction l as [|x l IH]; intros m Hl; cbn.
  - by rewrite log_calls_nil.
  - unfold bind. rewrite (Hl x) by left. cbn.
    rewrite IH by (intros y Hy; apply Hl; by right).
    f_equal. unfold log_calls, log_call; cbn. by rewrite <- app_assoc.
Qed.

Lemma adjust_node_run (node : NodeStats) (m : Machine) :
  adjust_node node m = (Return tt, log_calls (spec_node_calls (state m) node) m).
Proof.
  unfold adjust_node, spec_node_calls. unfold bind at 1. cbn [gets].
  destruct (services_select (state m) (node_name node) BACKEND_START_STATUS)
    as [|sv l] eqn:Hsel.
  - cbn. by rewrite log_calls_nil.
  - rewrite decide_False by done.
    apply for_each_update_limits. intros x Hx.
    rewrite new_core_allocations_lookup. by rewrite decide_True.
Qed.

Lemma for_each_adjust_node (l : list NodeStats) (m : Machine) :
  for_each l adjust_node m =
  (Return tt, log_calls (concat (map (spec_node_calls (state m)) l)) m).
Proof.
  revert m; induction l as [|node l IH]; intros m; cbn.
  - by rewrite log_calls_nil.
  - unfold bind. rewrite adjust_node_run, IH. cbn.
    by rewrite log_calls_app.
Qed.

Lemma spec_node_calls_cores_only (st : Store) (node : NodeStats) :
  Forall (fun c => ~ changes_memory c) (spec_node_calls st node).
Proof.
  unfold spec_node_calls.
  destruct (services_select st (node_name node) BACKEND_START_STATUS) as [|sv l]; [constructor|].
  apply Forall_map, Forall_forall. intros x _. cbn.
  intros [v Hv]. done.
Qed.

(** C2.  One cycle of the rebalancer over the nodes of the snapshot makes,
    node after node, the calls of [spec_node_calls]: none for a node with no
    started service, otherwise one [update_service_resource_limits] per
    started service with [cores] equal to its [cores.min] plus the extra,
    where the extra is [(cores_total - cores_reserved) / count] when
    [cores_reserved < cores_total] and 0 otherwise.  No call carries a
    memory limit, and the state store is left as it was. *)
Theorem adjust_core_limits_cycle_calls `{Environment} (m : Machine) (stats : ClusterStats) :
  current_stats (readings m) = Some stats ->
  exists m',
    _adjust_core_limits m = (Return tt, m') /\
    calls_since m m' = concat (map (spec_node_calls (state m)) (nodes stats)) /\
    Forall (fun c => ~ changes_memory c) (calls_since m m') /\
    state m' = state m /\
    (forall node,
       services_select (state m) (node_name node) BACKEND_START_STATUS = [] ->
       spec_node_calls (state m) node = []) /\
    (forall node service,
       service ∈ services_select (state m) (node_name node) BACKEND_START_STATUS ->
       CallUpdateServiceResourceLimits service
         [("cores",
           (service_cores_min (services (state m) service) +
            cores_to_add node
              (length (services_select (state m) (node_name node) BACKEND_START_STATUS)))%Q)]
       ∈ spec_node_calls (state m) node).
Proof.
  intros Hstats.
  exists (with_self (with_core_limit_recalc_trigger false)
            (log_calls (concat (map (spec_node_calls (state m)) (nodes stats)))
               (next_reading m))).
  split_and!.
  - unfold _adjust_core_limits, metrics_current_stats.
    unfold bind at 1. unfold bind at 1. cbn [gets]. unfold bind at 1. cbn [modify].
    rewrite Hstats. cbn [ret]. unfold bind at 1.
    rewrite for_each_adjust_node. reflexivity.
  - unfold calls_since; cbn. by rewrite drop_app_length.
  - unfold calls_since; cbn. rewrite drop_app_length.
    apply Forall_concat, Forall_map, Forall_forall. intros node _.
    apply spec_node_calls_cores_only.
  - reflexivity.
  - intros node Hnone. unfold spec_node_calls. by rewrite Hnone.
  - intros node service Hin. unfold spec_node_calls.
    destruct (services_select (state m) (node_name node) BACKEND_START_STATUS)
      as [|sv l] eqn:Hsel; [by apply not_elem_of_nil in Hin|].
    apply list_elem_of_fmap. exists service. split; [reflexivity | exact Hin].
Qed.

Lemma adjust_core_limits_cycle_calls_witness :
  let m := Scenario.machine "FIFO" [] [1; 2] ∅ in
  current_stats (Environment := Scenario.env) (readings m) =
    Some (mkClusterStats [Scenario.N1]) /\
  exists m',
    _adjust_core_limits (H := Scenario.env) m = (Return tt, m') /\
    map (fun c => match c with
                  | CallUpdateServiceResourceLimits service _ => service
                  | _ => 0
                  end) (calls_since m m') = [11; 12; 21; 22] /\
    Forall (fun c => cores_requested c == 2) (calls_since m m').
Proof.
  intros m.
  assert (Hstats : current_stats (Environment := Scenario.env) (readings m) =
                   Some (mkClusterStats [Scenario.N1])) by reflexivity.
  split; [exact Hstats|].
  destruct (adjust_core_limits_cycle_calls (H := Scenario.env) m _ Hstats)
    as (m' & Hrun & Hcalls & _).
  exists m'. split; [exact Hrun|]. rewrite Hcalls. split; [reflexivity|].
  repeat constructor.
Defined.

Lemma total_cores_requested_cons (c : BackendCall) (cs : list BackendCall) :
  total_cores_requested (c :: cs) = (cores_requested c + total_cores_requested cs)%Q.
Proof. reflexivity. Qed.

Lemma baselines_cons (st : Store) (x : Z) (l : list Z) :
  baselines st (x :: l) = (service_cores_min (services st x) + baselines st l)%Q.
Proof. reflexivity. Qed.

Lemma total_cores_requested_map (st : Store) (extra : Q) (l : list Z) :
  total_cores_requested
    (map (fun service =>
       CallUpdateServiceResourceLimits service
         [("cores", (service_cores_min (services st service) + extra)%Q)]) l)
  == baselines st l + inject_Z (Z.of_nat (length l)) * extra.
Proof.
  induction l as [|x l IH].
  - change (0 == 0 + 0 * extra). ring.
  - rewrite map_cons, total_cores_requested_cons, baselines_cons, IH.
    change (length (x :: l)) with (S (length l)).
    rewrite Nat2Z.inj_succ. unfold Z.succ. rewrite inject_Z_plus.
    change (cores_requested _) with
      (service_cores_min (services st x) + extra)%Q.
    change (inject_Z 1) with 1%Q. ring.
Qed.

Lemma cores_requested_le_total (c : BackendCall) (cs : list BackendCall) :
  Forall (fun c => 0 <= cores_requested c)%Q cs -> c ∈ cs ->
  (cores_requested c <= total_cores_requested cs)%Q.
Proof.
  induction 1 as [|c' cs Hc' Hcs IH]; intros Hin.
  - by apply not_elem_of_nil in Hin.
  - assert (Hnonneg : (0 <= total_cores_requested cs)%Q).
    { clear IH Hin. induction Hcs as [|d ds Hd Hds IHds].
      - change (0 <= 0)%Q. lra.
      - rewrite total_cores_requested_cons. lra. }
    rewrite total_cores_requested_cons.
    apply elem_of_cons in Hin as [->|Hin]; [lra|].
    specialize (IH Hin). lra.
Qed.

Lemma spec_extra_nonneg (node : NodeStats) (count : nat) :
  (0 < count)%nat -> (0 <= spec_extra node count)%Q.
Proof.
  intros Hcount. unfold spec_extra.
  destruct (Qlt_le_dec (cores_reserved node) (cores_total node)) as [Hlt|Hle]; [|lra].
  apply Qle_shift_div_l.
  - change 0%Q with (inject_Z 0). rewrite <- Zlt_Qlt. lia.
  - lra.
Qed.

Lemma spec_extra_total (node : NodeStats) (count : nat) :
  (0 < count)%nat -> (cores_reserved node <= cores_total node)%Q ->
  inject_Z (Z.of_nat count) * spec_extra node count
  == cores_total node - cores_reserved node.
Proof.
  intros Hcount Hle. unfold spec_extra.
  assert (Hn : ~ inject_Z (Z.of_nat count) == 0).
  { change 0%Q with (inject_Z 0). rewrite inject_Z_injective. lia. }
  destruct (Qlt_le_dec (cores_reserved node) (cores_total node)) as [Hlt|Hge].
  - field. exact Hn.
  - assert (cores_total node == cores_reserved node) as -> by lra. ring.
Qed.

(** Over the rationals, that is in exact arithmetic: when the [cores.min]
    of the started services of the node are not negative and sum to at most
    [cores_reserved], and [cores_reserved] is at most [cores_total], the
    cores requested for the node sum to at most [cores_total], and no call
    requests more than [cores_total]. *)
Theorem adjust_node_within_cores_total (m : Machine) (node : NodeStats) :
  let started := services_select (state m) (node_name node) BACKEND_START_STATUS in
  (forall service, service ∈ started ->
     (0 <= service_cores_min (services (state m) service))%Q) ->
  (baselines (state m) started <= cores_reserved node)%Q ->
  (cores_reserved node <= cores_total node)%Q ->
  within_cores_total m node.
Proof.
  intros started Hnonneg Hsum Hle. unfold within_cores_total.
  rewrite adjust_node_run. cbn [snd]. rewrite calls_since_log_calls.
  unfold spec_node_calls. fold started.
  destruct (decide (started = [])) as [Hnil|Hne].
  { rewrite Hnil in *. change (baselines _ []) with 0%Q in Hsum.
    split; [change (0 <= cores_total node)%Q; lra | constructor]. }
  assert (Hcount : (0 < length started)%nat) by (destruct started; [done | cbn; lia]).
  set (calls := map _ started).
  assert (Hcalls : match started with [] => [] | _ => calls end = calls)
    by (destruct started; done).
  rewrite Hcalls. clear Hcalls.
  assert (Htotal : (total_cores_requested calls <= cores_total node)%Q).
  { unfold calls. rewrite total_cores_requested_map, spec_extra_total by done. lra. }
  split; [exact Htotal|].
  apply Forall_forall. intros c Hc.
  eapply Qle_trans; [|exact Htotal].
  apply cores_requested_le_total; [|by apply list_elem_of_In].
  apply Forall_map, Forall_forall. intros service Hservice.
  change (0 <= service_cores_min (services (state m) service) +
               spec_extra node (length started))%Q.
  pose proof (spec_extra_nonneg node _ Hcount).
  pose proof (Hnonneg service (proj2 (list_elem_of_In _ _) Hservice)). lra.
Qed.

Lemma adjust_node_within_cores_total_witness :
  let m := Scenario.machine "FIFO" [] [1; 2] ∅ in
  let started :=
    services_select (state m) (node_name Scenario.N1) BACKEND_START_STATUS in
  (forall service, service ∈ started ->
     (0 <= service_cores_min (services (state m) service))%Q) /\
  (baselines (state m) started <= cores_reserved Scenario.N1)%Q /\
  (cores_reserved Scenario.N1 <= cores_total Scenario.N1)%Q /\
  within_cores_total m Scenario.N1.
Proof.
  intros m started.
  assert (H1 : forall service, service ∈ started ->
                 (0 <= service_cores_min (services (state m) service))%Q).
  { intros service _. vm_compute. discriminate. }
  assert (H2 : (baselines (state m) started <= cores_reserved Scenario.N1)%Q).
  { vm_compute. discriminate. }
  assert (H3 : (cores_reserved Scenario.N1 <= cores_total Scenario.N1)%Q).
  { vm_compute. discriminate. }
  split; [exact H1|]. split; [exact H2|]. split; [exact H3|].
  exact (adjust_node_within_cores_total m Scenario.N1 H1 H2 H3).
Defined.

(** The hypothesis [cores_reserved <= cores_total] is needed: on a node
    that reports 2 cores in total and 4 reserved, with four started services
    of [cores.min] 1, the extra is 0 and the four calls request 4 cores in
    all. *)
Lemma adjust_node_exceeds_cores_total :
  let m := Scenario.machine "FIFO" [] [1; 2] ∅ in
  length (calls_since m (adjust_node Scenario.N1_overcommitted m).2) = 4%nat /\
  total_cores_requested (calls_since m (adjust_node Scenario.N1_overcommitted m).2) == 4 /\
  cores_total Scenario.N1_overcommitted == 2 /\
  ~ within_cores_total m Scenario.N1_overcommitted.
Proof.
  intros m. split_and!; try reflexivity.
  intros [Htotal _]. vm_compute in Htotal. apply Htotal. reflexivity.
Qed.

(** ** The bound of the rebalancer in binary64 *)












(** ** [_refresh_execution_sizes] *)

Section Refresh.
Context `{Environment}.

Lemma refresh_one_run (e : Z) (d : ExecutionProgress) (m : Machine) :
  additional_exec_state (self m) !! e = Some d ->
  exists m',
    refresh_one e m = (Return tt, m') /\
    self m' = self m /\
    (readings m <= readings m' <= S (readings m))%nat /\
    (forall e', e' ≠ e -> executions (state m') e' = executions (state m) e') /\
    refreshed m m' e d.
Proof.
  intros Hd. unfold refresh_one, additional_exec_state_get.
  unfold bind at 1. unfold bind at 1. cbn [gets]. rewrite Hd. cbn [ret].
  destruct (Qeq_bool (last_time_scheduled d) 0) eqn:Hlts.
  - apply Qeq_bool_iff in Hlts.
    exists m. split_and!; try done; try lia.
  - assert (Hne : ~ last_time_scheduled d == 0).
    { intros Heq. apply Qeq_bool_iff in Heq. congruence. }
    unfold bind at 1. cbn [gets].
    destruct (Qle_bool (exec_size (executions (state m) e)) 0) eqn:Hsize.
    + apply Qle_bool_iff in Hsize.
      eexists. split; [reflexivity|]. cbn.
      split_and!; try done; try lia.
      * intros e' Hne'. by rewrite fn_lookup_insert_ne.
      * unfold refreshed; cbn. rewrite fn_lookup_insert.
        split_and!; [done | done | intros _ Hpos; lra].
    + assert (Hpos : (0 < exec_size (executions (state m) e))%Q).
      { apply Qnot_le_lt. intros Hle. apply Qle_bool_iff in Hle. congruence. }
      eexists. split; [reflexivity|]. cbn.
      split_and!; try done; try lia.
      * intros e' Hne'. by rewrite fn_lookup_insert_ne.
      * unfold refreshed; cbn. rewrite fn_lookup_insert.
        split_and!; [done | intros _ Hle; lra |].
        intros _ _. exists (readings m). split; [lia | reflexivity].
Qed.

Lemma for_each_refresh_one (l : list Z) (m : Machine) :
  NoDup l ->
  (forall e, e ∈ l -> is_Some (additional_exec_state (self m) !! e)) ->
  exists m',
    for_each l refresh_one m = (Return tt, m') /\
    self m' = self m /\
    (readings m <= readings m')%nat /\
    (forall e, e ∉ l -> executions (state m') e = executions (state m) e) /\
    (forall e d, e ∈ l -> additional_exec_state (self m) !! e = Some d ->
                 refreshed m m' e d).
Proof.
  revert m; induction l as [|e l IH]; intros m Hnodup Hprogress.
  - exists m. split_and!; try done. intros e d Hin. by apply not_elem_of_nil in Hin.
  - pose proof (NoDup_cons_1_1 _ _ Hnodup) as Hnotin.
    apply NoDup_cons_1_2 in Hnodup.
    destruct (Hprogress e) as [d Hd]; [left|].
    destruct (refresh_one_run e d m Hd) as (m1 & Hrun1 & Hself1 & Hread1 & Hother1 & Hrefr1).
    destruct (IH m1 Hnodup) as (m' & Hrun & Hself & Hread & Hother & Hrefr).
    { intros e' He'. rewrite Hself1. apply Hprogress. by right. }
    exists m'. split_and!.
    + cbn [for_each]. unfold bind. rewrite Hrun1. exact Hrun.
    + congruence.
    + lia.
    + intros e' He'. apply not_elem_of_cons in He' as [Hne He'].
      rewrite Hother by done. by apply Hother1.
    + intros e' d' Hin Hd'. apply elem_of_cons in Hin as [->|Hin].
      * assert (d' = d) as -> by congruence.
        unfold refreshed in *. rewrite (Hother e Hnotin).
        destruct Hrefr1 as (R1 & R2 & R3). split_and!; [done | done |].
        intros Hn Hpos. destruct (R3 Hn Hpos) as (k & Hk & Hx).
        exists k. split; [lia | done].
      * assert (Hne : e' ≠ e) by (intros ->; done).
        rewrite <- Hself1 in Hd'.
        specialize (Hrefr e' d' Hin Hd'). unfold refreshed in *.
        rewrite (Hother1 e' Hne) in Hrefr.
        destruct Hrefr as (R1 & R2 & R3). split_and!; [done | done |].
        intros Hn Hpos. destruct (R3 Hn Hpos) as (k & Hk & Hx).
        exists k. split; [lia | done].
Qed.

(** C3, as the code has it.  Under FIFO and SIZE nothing changes.  Under
    DYNSIZE, when every queued execution is queued once and has its
    [ExecutionProgress], the refresh ends normally, changes nothing but
    sizes and the clock, leaves the executions that are not queued as they
    were, and does to each queued execution what [refreshed] says: nothing
    when [last_time_scheduled] is 0; a reset to [cores.min * memory.min]
    when the size was at or below zero on entry; otherwise a decay by the
    elapsed time at 256 MiB per second, stored as it is even when the
    result is at or below zero. *)
Theorem refresh_execution_sizes_by_policy (m : Machine) :
  (policy (self m) = "FIFO" \/ policy (self m) = "SIZE" ->
   _refresh_execution_sizes m = (Return tt, m)) /\
  (policy (self m) = "DYNSIZE" ->
   NoDup (queue (self m)) ->
   queue_has_progress (self m) ->
   exists m',
     _refresh_execution_sizes m = (Return tt, m') /\
     self m' = self m /\
     (forall e, e ∉ queue (self m) ->
                executions (state m') e = executions (state m) e) /\
     (forall e d, e ∈ queue (self m) ->
                  additional_exec_state (self m) !! e = Some d ->
                  refreshed m m' e d)).
Proof.
  unfold _refresh_execution_sizes. split.
  - intros [Hp|Hp]; unfold bind; cbn [gets]; rewrite Hp; reflexivity.
  - intros Hp Hnodup Hprogress.
    destruct (for_each_refresh_one (queue (self m)) m Hnodup Hprogress)
      as (m' & Hrun & Hself & _ & Hother & Hrefr).
    exists m'. split_and!; try done.
    unfold bind; cbn [gets]. rewrite Hp. exact Hrun.
Qed.

End Refresh.

Lemma refresh_execution_sizes_by_policy_witness :
  let m := Scenario.aged in
  let d := mkExecutionProgress 1 [] in
  policy (self m) = "DYNSIZE" /\
  NoDup (queue (self m)) /\
  queue_has_progress (self m) /\
  exists m',
    _refresh_execution_sizes (H := Scenario.env) m = (Return tt, m') /\
    refreshed (H := Scenario.env) m m' 1 d.
Proof.
  intros m d.
  assert (Hp : policy (self m) = "DYNSIZE") by reflexivity.
  assert (Hnodup : NoDup (queue (self m))) by (apply NoDup_singleton).
  assert (Hprogress : queue_has_progress (self m)).
  { intros e He. apply list_elem_of_singleton in He as ->. by exists d. }
  split; [exact Hp|]. split; [exact Hnodup|]. split; [exact Hprogress|].
  destruct (proj2 (refresh_execution_sizes_by_policy (H := Scenario.env) m)
              Hp Hnodup Hprogress) as (m' & Hrun & _ & _ & Hrefr).
  exists m'. split; [exact Hrun|].
  apply Hrefr; [by left | reflexivity].
Defined.

(** C3 as stated fails: execution [1] of [Scenario.aged] has size 100 MiB
    and was last scheduled one second before the reading of the clock, so
    its size decays to 100 MiB - 256 MiB; the negative size is stored and
    is not reset to [cores.min * memory.min], which is 2 GiB. *)
Lemma refresh_execution_sizes_leaves_negative_size :
  let m' := (_refresh_execution_sizes (H := Scenario.env) Scenario.aged).2 in
  (_refresh_execution_sizes (H := Scenario.env) Scenario.aged).1 = Return tt /\
  exec_size (executions (state m') 1) == inject_Z (- (156 * Scenario.MiB)) /\
  floor_size (executions (state m') 1) == inject_Z (2 * Scenario.GiB) /\
  ~ sizes_floored m'.
Proof.
  intros m'. split_and!; try reflexivity.
  intros Hfloored.
  destruct (Hfloored 1 (mkExecutionProgress 1 [])) as [Hpos|Heq].
  - by left.
  - reflexivity.
  - reflexivity.
  - vm_compute in Hpos. discriminate.
  - vm_compute in Heq. discriminate.
Qed.

(** ** The simulated platform *)

Module SimulatedFacts.
Import Simulated.

Lemma choose_node_spec (mem : Z) (l : list NodeStats) (i : nat)
    (best : option (nat * NodeStats)) (j : nat) (node : NodeStats) :
  choose_node mem l i best = Some (j, node) ->
  best = Some (j, node) \/
  exists k, j = (i + k)%nat /\ l !! k = Some node /\ fits mem node = true.
Proof.
  revert i best; induction l as [|n l IH]; intros i best Hc; cbn in Hc.
  - by left.
  - apply IH in Hc as [Hbest|(k & -> & Hk & Hfit)].
    + destruct (fits mem n) eqn:Hfit; [|by left].
      destruct best as [[b nb]|].
      * destruct (better n nb); [|by left].
        injection Hbest as <- <-. right. exists 0%nat. split_and!; [lia | done | done].
      * injection Hbest as <- <-. right. exists 0%nat. split_and!; [lia | done | done].
    + right. exists (S k). split_and!; [lia | done | done].
Qed.

Lemma place_spec (st : Store) (service : Z) (p p' : Platform) :
  place st service p = Some p' ->
  exists i node,
    sim_nodes p !! i = Some node /\
    fits (service_memory_min (services st service)) node = true /\
    sim_nodes p' = alter (reserve (service_memory_min (services st service))) i (sim_nodes p) /\
    sim_allocation p' = <[service := i]> (sim_allocation p).
Proof.
  unfold place.
  destruct (choose_node _ (sim_nodes p) 0 None) as [[i node]|] eqn:Hc; [|done].
  intros [= <-]. apply choose_node_spec in Hc as [Hc|(k & -> & Hk & Hfit)]; [done|].
  exists k, node. done.
Qed.

Lemma aggregated_alter_reserve (mem : Z) (i : nat) (l : list NodeStats) :
  (i < length l)%nat ->
  foldr (fun node acc => residual node + acc) 0 (alter (reserve mem) i l) =
  foldr (fun node acc => residual node + acc) 0 l - mem.
Proof.
  revert i; induction l as [|n l IH]; intros i Hi; cbn in *; [lia|].
  destruct i as [|i]; cbn.
  - unfold residual, reserve; cbn. lia.
  - rewrite IH by lia. lia.
Qed.

(** Placing one service. *)
Lemma place_effect (st : Store) (service : Z) (p p' : Platform) :
  place st service p = Some p' ->
  aggregated_free_memory p' =
    aggregated_free_memory p - service_memory_min (services st service) /\
  (within_memory p -> within_memory p') /\
  exists i0,
    sim_allocation p' = <[service := i0]> (sim_allocation p) /\
    (i0 < length (sim_nodes p))%nat /\
    forall i node, sim_nodes p !! i = Some node ->
      exists node',
        sim_nodes p' !! i = Some node' /\
        node_name node' = node_name node /\
        memory_total node' = memory_total node /\
        memory_reserved node' =
          memory_reserved node +
          (if decide (i0 = i) then service_memory_min (services st service) else 0).
Proof.
  intros Hplace. apply place_spec in Hplace as (i0 & n0 & Hn0 & Hfit & Hnodes & Halloc).
  pose proof (lookup_lt_Some _ _ _ Hn0) as Hlt.
  split_and!.
  - unfold aggregated_free_memory. rewrite Hnodes. by apply aggregated_alter_reserve.
  - unfold within_memory. rewrite Hnodes. intros Hwithin.
    apply Forall_lookup. intros i node' Hnode'.
    destruct (decide (i0 = i)) as [->|Hne].
    + rewrite list_lookup_alter_eq, Hn0 in Hnode'. cbn in Hnode'.
      injection Hnode' as <-.
      unfold fits in Hfit. cbn. lia.
    + rewrite list_lookup_alter_ne in Hnode' by done.
      by eapply (Forall_lookup_1 _ _ _ _ Hwithin).
  - exists i0. split_and!; [done | done |].
    intros i node Hnode. rewrite Hnodes.
    destruct (decide (i0 = i)) as [->|Hne].
    + rewrite list_lookup_alter_eq, Hnode. eexists. split; [reflexivity|]. cbn. done.
    + rewrite list_lookup_alter_ne by done. exists node. split_and!; try done. lia.
Qed.

(** A service is placed when the platform records it on one of its
    nodes. *)
Lemma place_placed (st : Store) (service : Z) (p p' : Platform) (s : Z) :
  place st service p = Some p' ->
  (s = service \/
   exists i, sim_allocation p !! s = Some i /\ (i < length (sim_nodes p))%nat) ->
  exists i, sim_allocation p' !! s = Some i /\ (i < length (sim_nodes p'))%nat.
Proof.
  intros Hplace Hs.
  apply place_spec in Hplace as (i0 & n0 & Hn0 & _ & Hnodes & Halloc).
  pose proof (lookup_lt_Some _ _ _ Hn0) as Hlt.
  rewrite Hnodes, Halloc, length_alter.
  destruct (decide (s = service)) as [->|Hne].
  - exists i0. by rewrite lookup_insert_eq.
  - destruct Hs as [?|(i & Hi & Hlen)]; [done|].
    exists i. by rewrite lookup_insert_ne.
Qed.

Lemma place_all_placed (st : Store) (l : list Z) (p p' : Platform) (s : Z) :
  place_all st l p = Some p' ->
  (s ∈ l \/
   exists i, sim_allocation p !! s = Some i /\ (i < length (sim_nodes p))%nat) ->
  exists i, sim_allocation p' !! s = Some i /\ (i < length (sim_nodes p'))%nat.
Proof.
  revert p; induction l as [|t l IH]; intros p Hall Hs; cbn in Hall.
  - injection Hall as <-. destruct Hs as [Hs|Hs]; [by apply not_elem_of_nil in Hs | done].
  - destruct (place st t p) as [p1|] eqn:Hplace; [|done].
    apply (IH p1 Hall).
    destruct Hs as [Hs|Hs].
    + apply elem_of_cons in Hs as [->|Hs]; [|by left].
      right. eapply place_placed; [exact Hplace | by left].
    + right. eapply place_placed; [exact Hplace | by right].
Qed.

Lemma place_all_other (st : Store) (l : list Z) (p p' : Platform) (s : Z) :
  place_all st l p = Some p' -> s ∉ l ->
  sim_allocation p' !! s = sim_allocation p !! s.
Proof.
  revert p; induction l as [|t l IH]; intros p Hall Hs; cbn in Hall.
  - by injection Hall as <-.
  - destruct (place st t p) as [p1|] eqn:Hplace; [|done].
    apply not_elem_of_cons in Hs as [Hne Hs].
    rewrite (IH p1 Hall Hs).
    apply place_spec in Hplace as (i0 & n0 & _ & _ & _ & Halloc).
    rewrite Halloc. by apply lookup_insert_ne.
Qed.

Lemma place_all_effect (st : Store) (l : list Z) (p p' : Platform) :
  place_all st l p = Some p' ->
  aggregated_free_memory p' = aggregated_free_memory p - memory_mins st l /\
  (within_memory p -> within_memory p') /\
  (NoDup l ->
   forall i node, sim_nodes p !! i = Some node ->
     exists node',
       sim_nodes p' !! i = Some node' /\
       node_name node' = node_name node /\
       memory_total node' = memory_total node /\
       memory_reserved node' =
         memory_reserved node + deducted st (sim_allocation p') l i).
Proof.
  revert p; induction l as [|t l IH]; intros p Hall; cbn in Hall.
  - injection Hall as <-.
    split_and!; [change (memory_mins st []) with 0; lia | done |].
    intros _ i node Hnode. exists node. split_and!; try done.
    change (deducted st (sim_allocation p) [] i) with 0. lia.
  - destruct (place st t p) as [p1|] eqn:Hplace; [|done].
    destruct (place_effect _ _ _ _ Hplace) as (Hagg1 & Hwithin1 & i0 & Halloc1 & Hlt & Hnodes1).
    destruct (IH p1 Hall) as (Hagg & Hwithin & Hnodes).
    split_and!.
    + rewrite Hagg, Hagg1.
      change (memory_mins st (t :: l))
        with (service_memory_min (services st t) + memory_mins st l). lia.
    + auto.
    + intros Hnodup i node Hnode.
      pose proof (NoDup_cons_1_1 _ _ Hnodup) as Hnotin.
      apply NoDup_cons_1_2 in Hnodup.
      destruct (Hnodes1 i node Hnode) as (node1 & Hnode1 & Hname1 & Htotal1 & Hres1).
      destruct (Hnodes Hnodup i node1 Hnode1) as (node' & Hnode' & Hname & Htotal & Hres).
      exists node'. split_and!; [done | congruence | congruence |].
      rewrite Hres, Hres1. cbn [deducted foldr].
      fold (deducted st (sim_allocation p') l i).
      rewrite (place_all_other _ _ _ _ _ Hall Hnotin), Halloc1, lookup_insert_eq.
      destruct (decide (i0 = i)) as [->|Hne].
      * rewrite decide_True by done. lia.
      * rewrite decide_False by congruence. lia.
Qed.

(** C8.  [allocate_essential] is all-or-nothing.  When it returns false
    the platform is what it was, and so is the aggregated free memory.
    When it returns true every essential service of the execution is
    recorded on a node of the platform, which is the node that
    [get_service_allocation] reports for it; the aggregated free memory has
    gone down by the [memory.min] of the essential services; no node is
    driven over its total; and, the essential services being distinct,
    the reserved memory of every node has grown by the [memory.min] of the
    essential services recorded on it. *)
Theorem allocate_essential_all_or_nothing (st : Store) (execution : Z) (p : Platform) :
  let essential := services_of st true execution in
  let p' := (allocate_essential st execution p).2 in
  if (allocate_essential st execution p).1 then
    (forall service, service ∈ essential ->
       exists i node,
         sim_allocation p' !! service = Some i /\
         sim_nodes p' !! i = Some node /\
         get_service_allocation p' !! service = Some (node_name node)) /\
    aggregated_free_memory p' = aggregated_free_memory p - memory_mins st essential /\
    (within_memory p -> within_memory p') /\
    (NoDup essential ->
     forall i node, sim_nodes p !! i = Some node ->
       exists node',
         sim_nodes p' !! i = Some node' /\
         node_name node' = node_name node /\
         memory_total node' = memory_total node /\
         memory_reserved node' =
           memory_reserved node + deducted st (sim_allocation p') essential i)
  else
    p' = p /\ aggregated_free_memory p' = aggregated_free_memory p.
Proof.
  intros essential p'. subst p'. unfold allocate_essential. fold essential.
  destruct (place_all st essential p) as [p1|] eqn:Hall; cbn [fst snd]; [|done].
  destruct (place_all_effect _ _ _ _ Hall) as (Hagg & Hwithin & Hnodes).
  split_and!; [|done|done|done].
  intros service Hin.
  destruct (place_all_placed st essential p p1 service Hall (or_introl Hin))
    as (i & Hi & Hlen).
  destruct (lookup_lt_is_Some_2 _ _ Hlen) as [node Hnode].
  exists i, node. split_and!; [done | done |].
  unfold get_service_allocation. rewrite lookup_omap, Hi. cbn. by rewrite Hnode.
Qed.

End SimulatedFacts.

(** ** The commit loop *)

Lemma occurrences_list_remove (j : Z) (l l' : list Z) (x : Z) :
  list_remove j l = Some l' ->
  occurrences x l = (occurrences x l' + (if decide (x = j) then 1 else 0))%nat.
Proof.
  intros Hr. apply list_remove_Some in Hr as (l1 & l2 & -> & _ & ->).
  unfold occurrences. rewrite !count_occ_app. cbn.
  destruct (Z.eq_dec j x) as [->|Hne].
  - rewrite decide_True by done. lia.
  - rewrite decide_False by congruence. lia.
Qed.

Lemma occurrences_app (x : Z) (l1 l2 : list Z) :
  occurrences x (l1 ++ l2) = (occurrences x l1 + occurrences x l2)%nat.
Proof. apply count_occ_app. Qed.

Lemma occurrences_singleton_ne (x j : Z) : x ≠ j -> occurrences x [j] = 0%nat.
Proof. intros Hne. unfold occurrences; cbn. destruct (Z.eq_dec j x); [congruence | done]. Qed.

Lemma occurrences_elem_of (x : Z) (l : list Z) : x ∈ l <-> (0 < occurrences x l)%nat.
Proof. rewrite list_elem_of_In. apply count_occ_In. Qed.

Lemma untouched_refl (e : Z) (m : Machine) : untouched e m m.
Proof. done. Qed.

Lemma untouched_trans (e : Z) (m1 m2 m3 : Machine) :
  untouched e m1 m2 -> untouched e m2 m3 -> untouched e m1 m3.
Proof.
  intros (A1 & A2 & A3 & A4) (B1 & B2 & B3 & B4).
  split_and!; [congruence | congruence | tauto | congruence].
Qed.

Lemma quiet_ret {A} (j : Z) (a : A) : quiet j (ret a).
Proof. intros m. split; [done | intros; apply untouched_refl]. Qed.

Lemma quiet_raise {A} (j : Z) (e : Exception) : quiet j (raise (A := A) e).
Proof. intros m. split; [done | intros; apply untouched_refl]. Qed.

Lemma quiet_gets {A} (j : Z) (f : Machine -> A) : quiet j (gets f).
Proof. intros m. split; [done | intros; apply untouched_refl]. Qed.

Lemma quiet_bind {A B} (j : Z) (c : M Machine A) (k : A -> M Machine B) :
  quiet j c -> (forall a, quiet j (k a)) -> quiet j (bind c k).
Proof.
  intros Hc Hk m. unfold bind. specialize (Hc m).
  destruct (c m) as [[a|e] m1]; cbn in *; [|exact Hc].
  destruct Hc as [Hlog Hun]. destruct (Hk a m1) as [Hlog' Hun'].
  split; [congruence|]. intros x Hx. eapply untouched_trans; eauto.
Qed.

Lemma quiet_modify (j : Z) (f : Machine -> Machine) :
  (forall m, backend_log (f m) = backend_log m /\ forall e, e ≠ j -> untouched e m (f m)) ->
  quiet j (modify f).
Proof. intros Hf m. exact (Hf m). Qed.

Lemma quiet_termination_lock_release (j : Z) : quiet j (termination_lock_release j).
Proof.
  unfold termination_lock_release. apply quiet_bind; [apply quiet_gets|].
  intros h. case_decide; [|apply quiet_raise].
  apply quiet_modify. intros m. split; [done|]. intros e He.
  unfold untouched; cbn. split_and!; try done.
  rewrite elem_of_difference, elem_of_singleton. tauto.
Qed.

Lemma quiet_queue_remove (j : Z) : quiet j (queue_remove j).
Proof.
  unfold queue_remove. intros m. unfold bind; cbn.
  destruct (list_remove j (queue (self m))) as [q'|] eqn:Hq; cbn.
  - split; [done|]. intros e He. unfold untouched; cbn. split_and!; try done.
    rewrite (occurrences_list_remove _ _ _ e Hq). rewrite decide_False by done.
    lia.
  - split; [done | intros; apply untouched_refl].
Qed.

Lemma quiet_local_remove (j : Z) (l : list Z) : quiet j (local_remove j l).
Proof.
  unfold local_remove. destruct (list_remove j l); [apply quiet_ret | apply quiet_raise].
Qed.

Lemma quiet_time `{Environment} (j : Z) : quiet j time.
Proof.
  unfold time. apply quiet_bind; [apply quiet_gets|]. intros n.
  apply quiet_bind; [|intros; apply quiet_ret].
  apply quiet_modify. intros m. split; [done | intros; by unfold untouched].
Qed.

Lemma quiet_requeue `{Environment} (j : Z) : quiet j (_requeue j).
Proof.
  unfold _requeue. apply quiet_bind; [apply quiet_termination_lock_release|]. intros _.
  apply quiet_bind; [apply quiet_time|]. intros now.
  apply quiet_bind.
  { unfold additional_exec_state_get. apply quiet_bind; [apply quiet_gets|].
    intros d. destruct (d !! j); [apply quiet_ret | apply quiet_raise]. }
  intros d. apply quiet_modify. intros m. split; [done|]. intros e He.
  unfold untouched; cbn. split_and!; try done.
  by rewrite lookup_insert_ne.
Qed.

Section Commit.
Context `{Environment} (placements : Placements).

Lemma quiet_promote_if_active (j : Z) (ja : list Z) : quiet j (promote_if_active j ja).
Proof.
  unfold promote_if_active. apply quiet_bind; [apply quiet_gets|]. intros st.
  destruct (all_services_active st j); [|apply quiet_ret].
  apply quiet_bind; [apply quiet_termination_lock_release|]. intros _.
  apply quiet_bind; [apply quiet_local_remove|]. intros ja'.
  apply quiet_bind; [apply quiet_queue_remove|]. intros _.
  apply quiet_bind; [|intros; apply quiet_ret].
  apply quiet_modify. intros m. split; [done|]. intros e He.
  unfold untouched; cbn. split_and!; try done.
  rewrite occurrences_app, occurrences_singleton_ne by done. lia.
Qed.

Lemma quiet_throw_away (j : Z) (ja : list Z) : quiet j (throw_away j ja).
Proof.
  unfold throw_away. apply quiet_bind; [apply quiet_local_remove|]. intros ja'.
  apply quiet_bind; [apply quiet_queue_remove|]. intros _.
  apply quiet_bind; [apply quiet_termination_lock_release|]. intros _.
  apply quiet_ret.
Qed.

Lemma promote_if_active_shrinks (j : Z) (ja : list Z) (m : Machine) :
  shrinks_by j ja (promote_if_active j ja m).1.
Proof.
  unfold promote_if_active, termination_lock_release, local_remove, queue_remove.
  unfold bind; cbn.
  destruct (all_services_active (state m) j); cbn; [|intros ? [= <-]; by left].
  case_decide; cbn; [|done].
  destruct (list_remove j ja) as [ja'|] eqn:Hja; cbn; [|done].
  destruct (list_remove j (queue (self m))); cbn; [|done].
  intros ? [= <-]. by right.
Qed.

Lemma throw_away_shrinks (j : Z) (ja : list Z) (m : Machine) :
  shrinks_by j ja (throw_away j ja m).1.
Proof.
  unfold throw_away, termination_lock_release, local_remove, queue_remove.
  unfold bind; cbn.
  destruct (list_remove j ja) as [ja'|] eqn:Hja; cbn; [|done].
  destruct (list_remove j (queue (self m))); cbn; [|done].
  case_decide; cbn; [|done].
  intros ? [= <-]. by right.
Qed.

(** When the job is a candidate, is queued and has its lock held,
    throwing it away goes through. *)
Lemma throw_away_run (j : Z) (ja : list Z) (m : Machine) :
  j ∈ ja -> j ∈ queue (self m) -> j ∈ held_locks m ->
  exists ja' q',
    list_remove j ja = Some ja' /\
    list_remove j (queue (self m)) = Some q' /\
    throw_away j ja m =
      (Return ja',
       with_held_locks (fun h => h ∖ {[j]}) (with_self (with_queue q') m)).
Proof.
  intros Hja Hq Hheld.
  destruct (list_remove_is_Some _ _ Hja) as [ja' Hja'].
  destruct (list_remove_is_Some _ _ Hq) as [q' Hq'].
  exists ja', q'. split_and!; [done | done |].
  unfold throw_away, termination_lock_release, local_remove, queue_remove.
  unfold bind; cbn. rewrite Hja'; cbn. rewrite Hq'; cbn.
  rewrite decide_True by done. reflexivity.
Qed.

Lemma start_elastic_and_promote_cases (j : Z) (ja : list Z) (m : Machine) :
  let out := start_elastic_and_promote placements j ja m in
  backend_log out.2 = backend_log m ++ [CallStartElastic j] /\
  (forall x, x ≠ j -> untouched x m out.2) /\
  shrinks_by j ja out.1.
Proof.
  unfold start_elastic_and_promote. rewrite !bind_modify.
  set (m2 := with_state _ (log_call _ m)).
  destruct (quiet_promote_if_active j ja m2) as [Hlog Hun].
  split_and!.
  - rewrite Hlog. reflexivity.
  - intros x Hx. eapply untouched_trans; [|by apply Hun]. done.
  - apply promote_if_active_shrinks.
Qed.

(** What one turn of the commit loop does, by the calls it makes. *)
Lemma commit_job_cases (j : Z) (ja : list Z) (m : Machine) :
  let out := commit_job placements j ja m in
  exists cs,
    backend_log out.2 = backend_log m ++ cs /\
    (forall x, x ≠ j -> untouched x m out.2) /\
    shrinks_by j ja out.1 /\
    (cs = [CallStartElastic j] \/
     cs = [CallStartEssential j StartRequeue] \/
     cs = [CallStartEssential j StartOk; CallStartElastic j] \/
     (cs = [CallStartEssential j StartFatal] /\
      (j ∈ ja -> j ∈ queue (self m) -> j ∈ held_locks m ->
       exists ja' q',
         list_remove j ja = Some ja' /\
         list_remove j (queue (self m)) = Some q' /\
         out.1 = Return ja' /\
         queue (self out.2) = q' /\
         held_locks out.2 = held_locks m ∖ {[j]} /\
         queue_running (self out.2) = queue_running (self m) /\
         additional_exec_state (self out.2) = additional_exec_state (self m)))).
Proof.
  unfold commit_job. rewrite bind_gets.
  destruct (essential_services_running (state m) j); cbn [negb].
  { destruct (start_elastic_and_promote_cases j ja m) as (Hlog & Hun & Hsh).
    exists [CallStartElastic j]. split_and!; [done | done | done | by left]. }
  destruct (start_essential j placements (state m)) as [r st'] eqn:Hstart.
  rewrite !bind_modify.
  set (m1 := with_state _ (log_call _ m)).
  assert (Hm1 : forall x, untouched x m m1) by done.
  destruct r.
  - rewrite bind_modify.
    set (m2 := with_state _ m1).
    destruct (start_elastic_and_promote_cases j ja m2) as (Hlog & Hun & Hsh).
    exists [CallStartEssential j StartOk; CallStartElastic j].
    split_and!; [| | done | by right; right; left].
    + rewrite Hlog. cbn. by rewrite <- app_assoc.
    + intros x Hx. eapply untouched_trans; [|by apply Hun]. done.
  - exists [CallStartEssential j StartRequeue].
    assert (Hq : quiet j (_requeue j >> ret ja)%py).
    { apply quiet_bind; [apply quiet_requeue | intros; apply quiet_ret]. }
    destruct (Hq m1) as [Hlog Hun].
    split_and!; [| | | by right; left].
    + rewrite Hlog. reflexivity.
    + intros x Hx. eapply untouched_trans; [|by apply Hun]. done.
    + intros ja'. unfold bind. destruct (_requeue j m1) as [[[]|e] m2]; cbn; [|done].
      intros [= <-]. by left.
  - exists [CallStartEssential j StartFatal].
    destruct (quiet_throw_away j ja m1) as [Hlog Hun].
    split_and!; [| | apply throw_away_shrinks |].
    + rewrite Hlog. reflexivity.
    + intros x Hx. eapply untouched_trans; [|by apply Hun]. done.
    + right; right; right. split; [done|].
      intros Hja Hq Hheld.
      destruct (throw_away_run j ja m1 Hja Hq Hheld) as (ja' & q' & Hja' & Hq' & Hrun).
      exists ja', q'. rewrite Hrun. done.
Qed.

Lemma list_remove_sublist (j : Z) (l l' : list Z) :
  list_remove j l = Some l' -> l' `sublist_of` l.
Proof.
  intros Hr. apply list_remove_Some in Hr as (l1 & l2 & -> & _ & ->).
  apply sublist_app; [done|]. by apply sublist_cons.
Qed.

Lemma list_remove_elem_of_ne (j x : Z) (l l' : list Z) :
  list_remove j l = Some l' -> x ≠ j -> x ∈ l -> x ∈ l'.
Proof.
  intros Hr Hne Hx. apply list_remove_Some in Hr as (l1 & l2 & -> & _ & ->).
  apply elem_of_app. apply elem_of_app in Hx as [Hx|Hx]; [by left|].
  apply elem_of_cons in Hx as [->|Hx]; [done | by right].
Qed.

Lemma list_remove_NoDup_gone (j : Z) (l l' : list Z) :
  list_remove j l = Some l' -> NoDup l -> j ∉ l'.
Proof.
  intros Hr Hnodup. apply list_remove_Some in Hr as (l1 & l2 & -> & Hn1 & ->).
  apply list.NoDup_app in Hnodup as (_ & _ & Hnodup).
  pose proof (NoDup_cons_1_1 _ _ Hnodup) as Hn2.
  rewrite elem_of_app. tauto.
Qed.

Lemma commit_loop_frame (l ja : list Z) (m : Machine) :
  let out := commit_loop placements l ja m in
  exists cs,
    backend_log out.2 = backend_log m ++ cs /\
    Forall (fun c => exists j', j' ∈ l /\ call_about j' c) cs /\
    (forall x, x ∉ l -> untouched x m out.2) /\
    (forall ja', out.1 = Return ja' ->
       ja' `sublist_of` ja /\ forall x, x ∉ l -> x ∈ ja -> x ∈ ja').
Proof.
  revert ja m; induction l as [|j l IH]; intros ja m; cbn [commit_loop].
  - exists []. rewrite app_nil_r.
    split_and!; [done | constructor | intros; apply untouched_refl |].
    intros ja' [= <-]. done.
  - unfold bind.
    destruct (commit_job_cases j ja m) as (cs1 & Hlog1 & Hun1 & Hsh1 & Hshape).
    assert (Habout1 : Forall (fun c => exists j', j' ∈ j :: l /\ call_about j' c) cs1).
    { assert (Hj : j ∈ j :: l) by left.
      destruct Hshape as [->|[->|[->|[-> _]]]]; repeat constructor; by exists j. }
    clear Hshape.
    destruct (commit_job placements j ja m) as [[ja1|e] m1] eqn:E1; cbn [fst snd] in *.
    + destruct (IH ja1 m1) as (cs2 & Hlog2 & Hab2 & Hun2 & Hret2).
      exists (cs1 ++ cs2). split_and!.
      * rewrite Hlog2, Hlog1. by rewrite app_assoc.
      * apply Forall_app. split; [done|].
        eapply Forall_impl; [|exact Hab2]. cbn. intros c (j' & Hj' & Hc).
        exists j'. split; [by right | done].
      * intros x Hx. apply not_elem_of_cons in Hx as [Hne Hx].
        eapply untouched_trans; [by apply Hun1 | by apply Hun2].
      * intros ja' Hr. destruct (Hret2 ja' Hr) as [Hsub Hin]. split.
        -- transitivity ja1; [done|].
           destruct (Hsh1 ja1 eq_refl) as [->|Hrem]; [done | by eapply list_remove_sublist].
        -- intros x Hx Hxja. apply not_elem_of_cons in Hx as [Hne Hx].
           apply Hin; [done|].
           destruct (Hsh1 ja1 eq_refl) as [->|Hrem]; [done|].
           by eapply list_remove_elem_of_ne.
    + exists cs1. split_and!; [done | done | | done].
      intros x Hx. apply not_elem_of_cons in Hx as [Hne Hx]. by apply Hun1.
Qed.

Lemma requeue_pass_frame (l : list Z) (m : Machine) :
  let out := for_each l _requeue m in
  backend_log out.2 = backend_log m /\
  forall x, x ∉ l -> untouched x m out.2.
Proof.
  revert m; induction l as [|j l IH]; intros m; cbn [for_each].
  - split; [done | intros; apply untouched_refl].
  - unfold bind. destruct (quiet_requeue j m) as [Hlog1 Hun1].
    destruct (_requeue j m) as [[[]|e] m1]; cbn [fst snd] in *.
    + destruct (IH m1) as [Hlog2 Hun2]. split; [congruence|].
      intros x Hx. apply not_elem_of_cons in Hx as [Hne Hx].
      eapply untouched_trans; [by apply Hun1 | by apply Hun2].
    + split; [done|]. intros x Hx. apply not_elem_of_cons in Hx as [Hne Hx]. by apply Hun1.
Qed.

(** After the commit loop: the signal to the core-limit thread and the
    requeue pass. *)
Lemma after_commit_frame (l : list Z) (m : Machine) :
  let out :=
    (modify (with_self (with_core_limit_recalc_trigger true)) >> for_each l _requeue)%py m in
  backend_log out.2 = backend_log m /\
  forall x, x ∉ l -> untouched x m out.2.
Proof.
  rewrite bind_modify.
  destruct (requeue_pass_frame l (with_self (with_core_limit_recalc_trigger true) m))
    as [Hlog Hun].
  split; [by rewrite Hlog|].
  intros x Hx. eapply untouched_trans; [|by apply Hun]. done.
Qed.

Lemma commit_loop_app (pre post ja : list Z) (m : Machine) :
  commit_loop placements (pre ++ post) ja m =
  bind (commit_loop placements pre ja) (fun ja1 => commit_loop placements post ja1) m.
Proof.
  revert ja m; induction pre as [|j pre IH]; intros ja m; cbn [commit_loop app].
  - reflexivity.
  - unfold bind. destruct (commit_job placements j ja m) as [[ja1|e] m1]; [|done].
    rewrite IH. reflexivity.
Qed.

(** The rest of the round after one turn of the commit loop: the turns
    for [post], the signal and the requeue pass; nothing of it when the
    turn raised. *)
Lemma rest_of_round_frame (post : list Z) (r2 : Result (list Z)) (m2 : Machine) :
  let out :=
    match r2 with
    | Return ja2 =>
        (let* ja3 := commit_loop placements post ja2 in
         modify (with_self (with_core_limit_recalc_trigger true)) >>
         for_each ja3 _requeue)%py m2
    | Raise e => (Raise e, m2)
    end in
  exists cs,
    backend_log out.2 = backend_log m2 ++ cs /\
    Forall (fun c => exists j', j' ∈ post /\ call_about j' c) cs /\
    (forall x, x ∉ post -> (forall ja2, r2 = Return ja2 -> x ∉ ja2) ->
               untouched x m2 out.2).
Proof.
  destruct r2 as [ja2|e]; cbn zeta.
  - rewrite (bind_run (commit_loop placements post ja2)).
    destruct (commit_loop_frame post ja2 m2) as (cs & Hlog & Hab & Hun & Hret).
    destruct (commit_loop placements post ja2 m2) as [[ja3|e] m3]; cbn [fst snd] in *.
    + destruct (after_commit_frame ja3 m3) as [Hlog' Hun'].
      exists cs. split_and!; [by rewrite Hlog' | done |].
      intros x Hx Hja2. apply (untouched_trans x m2 m3 _ (Hun x Hx)).
      apply Hun'. intros Hx3. destruct (Hret ja3 eq_refl) as [Hsub _].
      apply (Hja2 ja2 eq_refl). by eapply elem_of_sublist.
    + exists cs. split_and!; [done | done |]. intros x Hx _. by apply Hun.
  - exists []. rewrite app_nil_r. split_and!; [done | constructor |].
    intros; apply untouched_refl.
Qed.

Lemma commit_and_requeue_split (pre post ja : list Z) (job : Z) (m : Machine) :
  commit_and_requeue placements (pre ++ job :: post) ja m =
  match commit_loop placements pre ja m with
  | (Return ja1, m1) =>
      match commit_job placements job ja1 m1 with
      | (Return ja2, m2) =>
          (let* ja3 := commit_loop placements post ja2 in
           modify (with_self (with_core_limit_recalc_trigger true)) >>
           for_each ja3 _requeue)%py m2
      | (Raise e, m2) => (Raise e, m2)
      end
  | (Raise e, m1) => (Raise e, m1)
  end.
Proof.
  unfold commit_and_requeue. unfold bind at 1. rewrite commit_loop_app.
  unfold bind at 1. destruct (commit_loop placements pre ja m) as [[ja1|e] m1]; [|done].
  cbn [commit_loop]. unfold bind at 1.
  destruct (commit_job placements job ja1 m1) as [[ja2|e] m2]; [|done].
  reflexivity.
Qed.

(** A call about a job is made only for a job to launch. *)
Lemma commit_and_requeue_calls (jobs_to_launch ja : list Z) (m : Machine) :
  exists cs,
    backend_log (commit_and_requeue placements jobs_to_launch ja m).2 =
      backend_log m ++ cs /\
    Forall (fun c => exists j', j' ∈ jobs_to_launch /\ call_about j' c) cs.
Proof.
  unfold commit_and_requeue.
  rewrite (bind_run (commit_loop placements jobs_to_launch ja)).
  destruct (commit_loop_frame jobs_to_launch ja m) as (cs & Hlog & Hab & _).
  exists cs. split; [|done].
  destruct (commit_loop placements jobs_to_launch ja m) as [[ja'|e] m1];
    cbn [fst snd] in *; [|done].
  destruct (after_commit_frame ja' m1) as [Hlog' _]. by rewrite Hlog'.
Qed.

(** Lines 259 to 287 (the commit loop, the signal to the core-limit
    thread and the requeue pass), started with distinct jobs to launch and
    distinct candidates: when [start_essential] returns [fatal] for a job
    that is a candidate, is queued and has its termination lock held, then
    at the end the job has lost one occurrence in the pending queue, its
    lock is released, it occurs in the running queue as often as before,
    [start_elastic] was not called for it, its [ExecutionProgress] is what
    it was, and it is not among the candidates that the commit loop hands
    to the requeue pass.  This holds whether or not a later job raises an
    exception. *)
Lemma commit_and_requeue_fatal (jobs_to_launch ja : list Z) (m : Machine) (job : Z) :
  NoDup jobs_to_launch -> NoDup ja ->
  job ∈ ja -> job ∈ queue (self m) -> job ∈ held_locks m ->
  let out := commit_and_requeue placements jobs_to_launch ja m in
  CallStartEssential job StartFatal ∈ calls_since m out.2 ->
  S (occurrences job (queue (self out.2))) = occurrences job (queue (self m)) /\
  (job ∉ held_locks out.2) /\
  occurrences job (queue_running (self out.2)) =
    occurrences job (queue_running (self m)) /\
  (CallStartElastic job ∉ calls_since m out.2) /\
  additional_exec_state (self out.2) !! job = additional_exec_state (self m) !! job /\
  (forall ja', (commit_loop placements jobs_to_launch ja m).1 = Return ja' -> job ∉ ja').
Proof.
  intros Hnd Hndja Hja Hq Hheld out Hfatal. subst out.
  (* the job is one of the jobs to launch *)
  assert (Hin : job ∈ jobs_to_launch).
  { destruct (commit_and_requeue_calls jobs_to_launch ja m) as (cs & Hlog & Hab).
    unfold calls_since in Hfatal. rewrite Hlog, drop_app_length in Hfatal.
    rewrite list.Forall_forall in Hab.
    destruct (Hab _ Hfatal) as (j' & Hj' & Habout). cbn in Habout. by subst. }
  apply list_elem_of_split in Hin as (pre & post & ->).
  apply list.NoDup_app in Hnd as (_ & Hprepost & Hndpost).
  assert (Hnpre : job ∉ pre) by (intros Hp; apply (Hprepost _ Hp); left).
  pose proof (NoDup_cons_1_1 _ _ Hndpost) as Hnpost. clear Hprepost Hndpost.
  assert (Hloop :
    (commit_loop placements (pre ++ job :: post) ja m).1 =
    match commit_loop placements pre ja m with
    | (Return ja1, m1) =>
        match commit_job placements job ja1 m1 with
        | (Return ja2, m2) => (commit_loop placements post ja2 m2).1
        | (Raise e, _) => Raise e
        end
    | (Raise e, _) => Raise e
    end).
  { rewrite commit_loop_app, bind_run.
    destruct (commit_loop placements pre ja m) as [[ja1|e] m1]; [|done].
    cbn [commit_loop]. rewrite bind_run.
    by destruct (commit_job placements job ja1 m1) as [[ja2|e] m2]. }
  rewrite Hloop. clear Hloop.
  revert Hfatal. rewrite commit_and_requeue_split.
  (* the turns before the job *)
  destruct (commit_loop_frame pre ja m) as (cs1 & Hlog1 & Hab1 & Hun1 & Hret1).
  assert (Hcs1 : forall c, call_about job c -> c ∉ cs1).
  { intros c Hc Hc1. rewrite list.Forall_forall in Hab1.
    destruct (Hab1 _ Hc1) as (j' & Hj' & Habout).
    destruct c; cbn in *; try done; by subst. }
  destruct (commit_loop placements pre ja m) as [[ja1|e1] m1]; cbn [fst snd] in *.
  2:{ unfold calls_since. cbn [snd]. rewrite Hlog1, drop_app_length. intros Hc.
      exfalso; eapply Hcs1; [|exact Hc]; reflexivity. }
  destruct (Hret1 ja1 eq_refl) as [Hsub1 Hkeep1].
  pose proof (Hkeep1 job Hnpre Hja) as Hja1.
  pose proof (sublist_NoDup _ _ Hndja Hsub1) as Hndja1.
  destruct (Hun1 job Hnpre) as (Uq1 & Uqr1 & Uh1 & Ua1).
  assert (Hq1 : job ∈ queue (self m1)).
  { apply occurrences_elem_of. rewrite Uq1. by apply occurrences_elem_of. }
  assert (Hheld1 : job ∈ held_locks m1) by (by apply Uh1).
  (* the turn of the job *)
  destruct (commit_job_cases job ja1 m1) as (cs2 & Hlog2 & _ & _ & Hshape).
  destruct (rest_of_round_frame post (commit_job placements job ja1 m1).1
              (commit_job placements job ja1 m1).2) as (cs3 & Hlog3 & Hab3 & Hun3).
  assert (Hcs3 : forall c, call_about job c -> c ∉ cs3).
  { intros c Hc Hc3. rewrite list.Forall_forall in Hab3.
    destruct (Hab3 _ Hc3) as (j' & Hj' & Habout).
    destruct c; cbn in *; try done; by subst. }
  destruct (commit_job placements job ja1 m1) as [r2 m2]; cbn [fst snd] in *.
  set (out := match r2 with
              | Return ja2 => _
              | Raise e => (Raise e, m2)
              end) in *.
  assert (Hcalls : calls_since m out.2 = cs1 ++ cs2 ++ cs3).
  { unfold calls_since. rewrite Hlog3, Hlog2, Hlog1, <- !app_assoc.
    by rewrite drop_app_length. }
  rewrite Hcalls. intros Hfatal.
  apply elem_of_app in Hfatal as [Hc|Hfatal]; [exfalso; eapply Hcs1; [|exact Hc]; reflexivity|].
  apply elem_of_app in Hfatal as [Hfatal|Hc]; [|exfalso; eapply Hcs3; [|exact Hc]; reflexivity].
  destruct Hshape as [->|[->|[->|[-> Hfacts]]]].
  1-3: exfalso;
       repeat (apply elem_of_cons in Hfatal as [Hfatal|Hfatal]; [discriminate Hfatal|]);
       by apply not_elem_of_nil in Hfatal.
  destruct (Hfacts Hja1 Hq1 Hheld1)
    as (ja2 & q' & Hja2 & Hq' & -> & Hqueue2 & Hheld2 & Hqr2 & Haes2).
  pose proof (list_remove_NoDup_gone _ _ _ Hja2 Hndja1) as Hgone.
  destruct (Hun3 job Hnpost) as (Uq3 & Uqr3 & Uh3 & Ua3).
  { intros ? [= <-]. exact Hgone. }
  split_and!.
  - rewrite Uq3, Hqueue2, <- Uq1, (occurrences_list_remove _ _ _ job Hq').
    rewrite decide_True by done. lia.
  - rewrite Uh3, Hheld2, elem_of_difference, elem_of_singleton. tauto.
  - by rewrite Uqr3, Hqr2, Uqr1.
  - intros Hc. apply elem_of_app in Hc as [Hc|Hc]; [exfalso; eapply Hcs1; [|exact Hc]; reflexivity|].
    apply elem_of_cons in Hc as [Hc|Hc]; [discriminate Hc|].
    exfalso; eapply Hcs3; [|exact Hc]; reflexivity.
  - by rewrite Ua3, Haes2, Ua1.
  - intros ja' Hret.
    destruct (commit_loop_frame post ja2 m2) as (_ & _ & _ & _ & Hret3).
    destruct (Hret3 ja' Hret) as [Hsub3 _].
    intros Hin. apply Hgone. by eapply elem_of_sublist.
Qed.

End Commit.

Lemma allocate_essential_all_or_nothing_witness :
  let st := Scenario.store in
  let p := Simulated.new (mkClusterStats [Scenario.N1]) in
  let p' := (Simulated.allocate_essential st 1 p).2 in
  let full := Simulated.new (mkClusterStats [Scenario.N1_full]) in
  Simulated.within_memory p /\
  NoDup (Simulated.services_of st true 1) /\
  (Simulated.allocate_essential st 1 p).1 = true /\
  Simulated.sim_allocation p' !! 11 = Some 0%nat /\
  Simulated.aggregated_free_memory p' = 6 * Scenario.GiB /\
  Simulated.within_memory p' /\
  (Simulated.allocate_essential st 1 full).1 = false /\
  (Simulated.allocate_essential st 1 full).2 = full.
Proof.
  intros st p p' full.
  assert (Hwithin : Simulated.within_memory p).
  { repeat constructor. vm_compute. discriminate. }
  assert (Hnd : NoDup (Simulated.services_of st true 1)).
  { compute_done. }
  assert (Hok : (Simulated.allocate_essential st 1 p).1 = true) by reflexivity.
  assert (Hno : (Simulated.allocate_essential st 1 full).1 = false) by reflexivity.
  pose proof (SimulatedFacts.allocate_essential_all_or_nothing st 1 p) as Hyes.
  pose proof (SimulatedFacts.allocate_essential_all_or_nothing st 1 full) as Hroll.
  cbv zeta in Hyes, Hroll. rewrite Hok in Hyes. rewrite Hno in Hroll.
  destruct Hyes as (_ & Hagg & Hkeep & _). destruct Hroll as [Hsame _].
  split; [exact Hwithin|]. split; [exact Hnd|]. split; [exact Hok|].
  split; [reflexivity|]. split; [unfold p'; rewrite Hagg; reflexivity|].
  split; [exact (Hkeep Hwithin)|]. split; [exact Hno | exact Hsame].
Defined.

(** ** One pass of the inner loop *)

Lemma silent_ret {A} (a : A) : silent (ret a).
Proof. done. Qed.

Lemma silent_raise {A} (e : Exception) : silent (raise (A := A) e).
Proof. done. Qed.

Lemma silent_gets {A} (f : Machine -> A) : silent (gets f).
Proof. done. Qed.

Lemma silent_bind {A B} (c : M Machine A) (k : A -> M Machine B) :
  silent c -> (forall a, silent (k a)) -> silent (bind c k).
Proof.
  intros Hc Hk m. rewrite bind_run. specialize (Hc m).
  destruct (c m) as [[a|e] m1]; cbn [snd] in *; [|exact Hc].
  destruct Hc as (A1 & A2 & A3). destruct (Hk a m1) as (B1 & B2 & B3).
  split_and!; congruence.
Qed.

Lemma silent_for_each {A} (l : list A) (body : A -> M Machine unit) :
  (forall x, silent (body x)) -> silent (for_each l body).
Proof.
  intros Hbody. induction l as [|x l IH]; cbn [for_each]; [apply silent_ret|].
  apply silent_bind; [apply Hbody | intros; apply IH].
Qed.

Lemma silent_refresh_execution_sizes `{Environment} : silent _refresh_execution_sizes.
Proof.
  unfold _refresh_execution_sizes. apply silent_bind; [apply silent_gets|]. intros s.
  repeat (case_decide; [apply silent_ret|]).
  case_decide; [|apply silent_ret].
  apply silent_for_each. intros e. unfold refresh_one.
  apply silent_bind.
  { unfold additional_exec_state_get. apply silent_bind; [apply silent_gets|].
    intros d. destruct (d !! e); [apply silent_ret | apply silent_raise]. }
  intros d. destruct (Qeq_bool _ _); [apply silent_ret|].
  apply silent_bind; [apply silent_gets|]. intros x.
  destruct (Qle_bool _ _); [done|].
  apply silent_bind; [|done].
  unfold time. apply silent_bind; [apply silent_gets|]. intros n.
  apply silent_bind; [done | intros; apply silent_ret].
Qed.

Lemma sort_queue_run (m : Machine) :
  exists q',
    sort_queue m = (Return tt, with_self (with_queue q') m) /\
    q' ≡ₚ queue (self m).
Proof.
  unfold sort_queue. rewrite bind_run. cbn [get].
  case_decide.
  - eexists. split; [reflexivity|]. apply sorted_Permutation.
  - exists (queue (self m)). split; [|done].
    destruct m as [[] ? ? ? ?]; reflexivity.
Qed.

(** [_pop_all] never raises; the candidates it returns are distinct, are
    queued and have their termination lock held by the scheduler. *)
Lemma pop_from_spec (l out : list Z) (m : Machine) :
  NoDup out -> (forall x, x ∈ out -> x ∈ held_locks m) ->
  exists out' m',
    pop_from l out m = (Return out', m') /\
    self m' = self m /\ backend_log m' = backend_log m /\
    NoDup out' /\
    (forall x, x ∈ out' -> x ∈ held_locks m') /\
    (forall x, x ∈ out' -> x ∈ out \/ x ∈ l).
Proof.
  revert out m; induction l as [|e l IH]; intros out m Hnd Hheld; cbn [pop_from].
  - exists out, m. split_and!; try done. intros x Hx. by left.
  - unfold termination_lock_acquire. rewrite bind_run, bind_gets.
    destruct (decide (e ∈ held_locks m)) as [He|He]; cbn [ret].
    + rewrite bind_gets. cbn [andb].
      destruct (IH out m Hnd Hheld) as (out' & m' & Hrun & Hself & Hlog & Hnd' & Hheld' & Hfrom).
      exists out', m'. split_and!; try done.
      intros x Hx. destruct (Hfrom x Hx); [by left | right; by right].
    + rewrite bind_modify. cbn [ret]. rewrite bind_gets. cbn [andb].
      set (m1 := with_held_locks _ m).
      assert (Hheld1 : forall x, x ∈ out -> x ∈ held_locks m1).
      { intros x Hx. cbn. apply elem_of_union. right. by apply Hheld. }
      destruct (bool_decide (exec_status (executions (state m1) e) ≠ TERMINATED_STATUS)).
      * destruct (IH (out ++ [e]) m1)
          as (out' & m' & Hrun & Hself & Hlog & Hnd' & Hheld' & Hfrom).
        { apply list.NoDup_app. split_and!; [done | | apply NoDup_singleton].
          intros x Hx Hxe. apply list_elem_of_singleton in Hxe as ->.
          apply He. by apply Hheld. }
        { intros x Hx. apply elem_of_app in Hx as [Hx|Hx]; [by apply Hheld1|].
          apply list_elem_of_singleton in Hx as ->. cbn.
          apply elem_of_union. left. by apply elem_of_singleton. }
        exists out', m'. split_and!; try done.
        intros x Hx. destruct (Hfrom x Hx) as [Hx'|Hx']; [|right; by right].
        apply elem_of_app in Hx' as [Hx'|Hx']; [by left|].
        apply list_elem_of_singleton in Hx' as ->. right; left.
      * destruct (IH out m1 Hnd Hheld1)
          as (out' & m' & Hrun & Hself & Hlog & Hnd' & Hheld' & Hfrom).
        exists out', m'. split_and!; try done.
        intros x Hx. destruct (Hfrom x Hx); [by left | right; by right].
Qed.

Lemma pop_all_spec (m : Machine) :
  exists ja m',
    _pop_all m = (Return ja, m') /\
    self m' = self m /\ backend_log m' = backend_log m /\
    NoDup ja /\
    (forall x, x ∈ ja -> x ∈ held_locks m') /\
    (forall x, x ∈ ja -> x ∈ queue (self m)).
Proof.
  unfold _pop_all. rewrite bind_gets.
  destruct (pop_from_spec (queue (self m)) [] m)
    as (ja & m' & Hrun & Hself & Hlog & Hnd & Hheld & Hfrom).
  { apply NoDup_nil_2. }
  { intros x Hx. by apply not_elem_of_nil in Hx. }
  exists ja, m'. split_and!; try done.
  intros x Hx. destruct (Hfrom x Hx) as [Hx'|Hx']; [by apply not_elem_of_nil in Hx' | done].
Qed.

Section InnerIteration.
Context `{Environment} `{SimulatedPlatformOps P}.

Lemma metrics_try_run (m : Machine) :
  try_except (let* ps := metrics_current_stats in ret (Some ps))%py ZoeException (ret None) m
  = (Return (current_stats (readings m)), next_reading m).
Proof.
  unfold try_except, metrics_current_stats, bind; cbn.
  destruct (current_stats (readings m)); reflexivity.
Qed.

(** The pass is its first part followed by its second part. *)
Lemma inner_iteration_split (m : Machine) :
  inner_iteration P m = (let* r := pass_until_requeue P in requeue_and_decide r)%py m.
Proof.
  unfold inner_iteration, pass_until_requeue, commit_and_requeue. unfold bind.
  destruct (_refresh_execution_sizes m) as [[[]|e0] m0]; [|reflexivity].
  destruct (sort_queue m0) as [[[]|e1] m1]; [|reflexivity].
  destruct (_pop_all m1) as [[ja|e2] m2]; [|reflexivity].
  destruct (try_except _ _ _ m2) as [[[platform_state|]|e3] m3]; [|reflexivity|reflexivity].
  unfold gets.
  destruct (placement_loop (state m3) ja (SimulatedPlatform platform_state) []
              (aggregated_free_memory (SimulatedPlatform (P := P) platform_state)))
    as [[sim jobs_to_launch] free].
  destruct (commit_loop (get_service_allocation sim) jobs_to_launch ja m3)
    as [[jobs'|e4] m4]; reflexivity.
Qed.

(** C4.  In one pass of the inner loop, from any state of the machine:
    when [start_essential] returns [fatal] for a job, then at the end of
    the pass the job has lost one occurrence in the pending queue, its
    termination lock is released, it occurs in the running queue as often
    as before (it was not appended to it), [start_elastic] was not called
    for it, and its [ExecutionProgress] is what it was on entry.  The job
    was one of the jobs to launch and it has left the candidate list: the
    pass is [pass_until_requeue] followed by [requeue_and_decide], whose
    requeue pass runs over the list that the first part returns, and the
    job is not in that list, so that [_requeue] is not called for it.
    This holds whether or not the pass ends with an exception. *)
Theorem fatal_start_discards_job (m : Machine) (job : Z) :
  let out := inner_iteration P m in
  CallStartEssential job StartFatal ∈ calls_since m out.2 ->
  S (occurrences job (queue (self out.2))) = occurrences job (queue (self m)) /\
  (job ∉ held_locks out.2) /\
  occurrences job (queue_running (self out.2)) =
    occurrences job (queue_running (self m)) /\
  (CallStartElastic job ∉ calls_since m out.2) /\
  additional_exec_state (self out.2) !! job = additional_exec_state (self m) !! job /\
  inner_iteration P m = (let* r := pass_until_requeue P in requeue_and_decide r)%py m /\
  (forall jobs launched,
     (pass_until_requeue P m).1 = Return (jobs, launched) ->
     (job ∉ jobs) /\ exists jobs_to_launch, launched = Some jobs_to_launch /\
                                            job ∈ jobs_to_launch).
Proof.
  intros out. subst out.
  cut (CallStartEssential job StartFatal ∈ calls_since m (inner_iteration P m).2 ->
       S (occurrences job (queue (self (inner_iteration P m).2))) =
         occurrences job (queue (self m)) /\
       (job ∉ held_locks (inner_iteration P m).2) /\
       occurrences job (queue_running (self (inner_iteration P m).2)) =
         occurrences job (queue_running (self m)) /\
       (CallStartElastic job ∉ calls_since m (inner_iteration P m).2) /\
       additional_exec_state (self (inner_iteration P m).2) !! job =
         additional_exec_state (self m) !! job /\
       (forall jobs launched,
          (pass_until_requeue P m).1 = Return (jobs, launched) ->
          (job ∉ jobs) /\ exists jobs_to_launch, launched = Some jobs_to_launch /\
                                                 job ∈ jobs_to_launch)).
  { intros Hcut Hfatal. destruct (Hcut Hfatal) as (C1 & C2 & C3 & C4 & C5 & C7).
    split; [exact C1|]. split; [exact C2|]. split; [exact C3|]. split; [exact C4|].
    split; [exact C5|]. split; [apply inner_iteration_split | exact C7]. }
  unfold inner_iteration, pass_until_requeue.
  (* the refresh of the sizes *)
  rewrite !(bind_run _refresh_execution_sizes).
  destruct (silent_refresh_execution_sizes m) as (Hself0 & Hheld0 & Hlog0).
  destruct (_refresh_execution_sizes m) as [[[]|e0] m0]; cbn [fst snd] in *.
  2:{ unfold calls_since. rewrite Hlog0, drop_all. intros Hc.
      by apply not_elem_of_nil in Hc. }
  (* the sort *)
  rewrite !(bind_run sort_queue).
  destruct (sort_queue_run m0) as (q1 & -> & Hperm).
  set (m1 := with_self (with_queue q1) m0).
  (* the candidates *)
  rewrite !(bind_run _pop_all).
  destruct (pop_all_spec m1) as (ja & m2 & -> & Hself2 & Hlog2 & Hndja & Hheld2 & Hqueue2).
  (* the metrics *)
  rewrite !(bind_run (try_except _ _ _)), !metrics_try_run.
  set (m3 := next_reading m2).
  assert (Hlog3 : backend_log m3 = backend_log m).
  { unfold m3; cbn. rewrite Hlog2. unfold m1; cbn. exact Hlog0. }
  assert (Hself3 : self m3 = with_queue q1 (self m)).
  { unfold m3; cbn. rewrite Hself2. unfold m1; cbn. by rewrite Hself0. }
  destruct (current_stats (readings m2)) as [platform_state|].
  2:{ rewrite (bind_run (for_each ja _requeue)).
      destruct (requeue_pass_frame ja m3) as [Hlog _].
      destruct (for_each ja _requeue m3) as [[[]|e] m4]; cbn [fst snd ret] in *;
        unfold calls_since; rewrite Hlog, Hlog3, drop_all; intros Hc;
        by apply not_elem_of_nil in Hc. }
  rewrite !bind_gets.
  destruct (placement_loop_jobs (state m3) ja (SimulatedPlatform platform_state) []
              (aggregated_free_memory (SimulatedPlatform (P := P) platform_state)))
    as (jl & Hjl & Hsubjl).
  destruct (placement_loop (state m3) ja (SimulatedPlatform platform_state) []
              (aggregated_free_memory (SimulatedPlatform (P := P) platform_state)))
    as [[sim jobs_to_launch] free]. cbn [fst snd app] in Hjl. subst jl.
  set (placements := get_service_allocation sim).
  rewrite (bind_run (commit_and_requeue placements jobs_to_launch ja)).
  (* the final state is the one after the requeue pass *)
  set (out3 := commit_and_requeue placements jobs_to_launch ja m3).
  assert (Hfinal :
    (match out3 with
     | (Return a, m') =>
         (let* q := gets (fun m => queue (self m)) in
          if decide (length q = 0%nat) then ret false
          else if decide (length jobs_to_launch = 0%nat) then ret false
          else ret true)%py m'
     | (Raise e, m') => (Raise e, m')
     end).2 = out3.2).
  { destruct out3 as [[[]|e] m4]; [|done]. rewrite bind_gets.
    repeat case_decide; reflexivity. }
  rewrite Hfinal. clear Hfinal.
  assert (Hcalls : calls_since m out3.2 = calls_since m3 out3.2).
  { unfold calls_since. by rewrite Hlog3. }
  rewrite Hcalls. intros Hfatal.
  (* the job is a job to launch, hence a candidate *)
  assert (Hjob : job ∈ jobs_to_launch).
  { destruct (commit_and_requeue_calls placements jobs_to_launch ja m3) as (cs & Hlog & Hab).
    unfold calls_since in Hfatal. fold out3 in Hlog.
    rewrite Hlog, drop_app_length in Hfatal.
    rewrite list.Forall_forall in Hab.
    destruct (Hab _ Hfatal) as (j' & Hj' & Habout). cbn in Habout. by subst. }
  assert (Hja : job ∈ ja) by (by eapply elem_of_sublist).
  assert (Hq3 : job ∈ queue (self m3)).
  { rewrite Hself3. cbn. apply Hqueue2 in Hja. exact Hja. }
  destruct (commit_and_requeue_fatal placements jobs_to_launch ja m3 job
              (sublist_NoDup _ _ Hndja Hsubjl) Hndja Hja Hq3 (Hheld2 _ Hja) Hfatal)
    as (C1 & C2 & C3 & C4 & C5 & C6).
  fold out3 in C1, C2, C3, C4, C5.
  split; [|split; [exact C2|split; [|split; [exact C4|split]]]].
  - rewrite C1, Hself3. cbn. unfold occurrences.
    apply Permutation_count_occ. by rewrite Hperm, Hself0.
  - rewrite C3, Hself3. reflexivity.
  - rewrite C5, Hself3. reflexivity.
  - (* the list handed to the requeue pass *)
    intros jobs launched. rewrite (bind_run (commit_loop placements jobs_to_launch ja)).
    destruct (commit_loop placements jobs_to_launch ja m3) as [[jobs'|e] m4] eqn:Hloop;
      cbn [fst snd ret]; [|intros [=]].
    intros [= <- <-]. split.
    + apply C6. reflexivity.
    + by exists jobs_to_launch.
Qed.

End InnerIteration.

Lemma fatal_start_discards_job_witness :
  let m :=
    Scenario.machine "FIFO" [1; 2] []
      {[1 := ExecutionProgress_init; 2 := ExecutionProgress_init]} in
  let out := inner_iteration (H := Scenario.env) Simulated.Platform m in
  (CallStartEssential 1 StartFatal ∈ calls_since m out.2) /\
  S (occurrences 1 (queue (self out.2))) = occurrences 1 (queue (self m)) /\
  (1 ∉ held_locks out.2) /\
  (CallStartElastic 1 ∉ calls_since m out.2) /\
  exists jobs,
    (pass_until_requeue (H := Scenario.env) Simulated.Platform m).1 =
      Return (jobs, Some [1; 2]) /\
    (1 ∉ jobs).
Proof.
  intros m out.
  assert (Hfatal : CallStartEssential 1 StartFatal ∈ calls_since m out.2).
  { vm_compute. left. }
  split; [exact Hfatal|].
  destruct (fatal_start_discards_job (H := Scenario.env) (P := Simulated.Platform)
              m 1 Hfatal) as (H1 & H2 & _ & H4 & _ & _ & H7).
  split; [exact H1|]. split; [exact H2|]. split; [exact H4|].
  assert (Hrun : exists jobs,
            (pass_until_requeue (H := Scenario.env) Simulated.Platform m).1 =
              Return (jobs, Some [1; 2])).
  { eexists. vm_compute. reflexivity. }
  destruct Hrun as [jobs Hrun]. exists jobs. split; [exact Hrun|].
  exact (proj1 (H7 jobs (Some [1; 2]) Hrun)).
Defined.

(* ===================================================================== *)
(** * Part II, continued: further properties of the scheduler *)
(* ===================================================================== *)

(** ** [__init__] *)

Lemma foldl_recover `{Environment} (st : Store) (l : list Z) (s : Scheduler) :
  let s' := foldl (fun s e => recover st e s) s l in
  policy s' = policy s /\
  queue s' = queue s ++ filter (fun e => all_services_running st e = false) l /\
  queue_running s' =
    queue_running s ++ filter (fun e => all_services_running st e = true) l /\
  async_threads s' = async_threads s /\
  trigger_semaphore s' = trigger_semaphore s /\
  (forall e, additional_exec_state s' !! e =
             if decide (e ∈ filter (fun e => all_services_running st e = false) l)
             then Some ExecutionProgress_init
             else additional_exec_state s !! e).
Proof.
  revert s; induction l as [|x l IH]; intros s; cbn [foldl].
  - cbn. rewrite !app_nil_r. split_and!; done.
  - destruct (IH (recover st x s)) as (Hp & Hq & Hqr & Hth & Hsem & Haes).
    cbn zeta. rewrite Hp, Hq, Hqr, Hth, Hsem.
    unfold recover in *. rewrite !filter_cons.
    destruct (all_services_running st x) eqn:Hx.
    + rewrite decide_False by done. rewrite decide_True by done.
      destruct s; cbn in *. rewrite <- app_assoc. split_and!; try done.
    + rewrite decide_True by done. rewrite decide_False by done.
      destruct s as [pol q qr aes th sem clt lq]; cbn in *.
      rewrite <- app_assoc. split_and!; try done.
      intros e. rewrite Haes.
      destruct (decide (e ∈ filter (fun e => all_services_running st e = false) l))
        as [Hin|Hnin].
      * rewrite decide_True; [done | by right].
      * destruct (decide (e = x)) as [->|Hne].
        -- rewrite decide_True by left. apply lookup_insert_eq.
        -- rewrite decide_False; [by apply lookup_insert_ne|].
           rewrite not_elem_of_cons. done.
Qed.

(** X1.  [__init__] refuses every policy other than FIFO, SIZE and
    DYNSIZE.  With one of the three it recovers the executions that the
    store has in status [running], in the order of the store: those whose
    services are all running make up the running queue, the others the
    pending queue, and exactly the executions of the pending queue get a
    fresh [ExecutionProgress].  No lock is held, no thread is recorded, no
    backend call is made. *)
Theorem init_recovers_running_executions `{Environment} (st : Store) (pol : string) :
  let running :=
    filter (fun e => exec_status (executions st e) = RUNNING_STATUS) (execution_rows st) in
  (pol ≠ "FIFO" /\ pol ≠ "SIZE" /\ pol ≠ "DYNSIZE" ->
   init st pol = Raise UnsupportedSchedulerPolicyError) /\
  (pol = "FIFO" \/ pol = "SIZE" \/ pol = "DYNSIZE" ->
   exists m,
     init st pol = Return m /\
     policy (self m) = pol /\
     queue_running (self m) = filter (fun e => all_services_running st e = true) running /\
     queue (self m) = filter (fun e => all_services_running st e = false) running /\
     (forall e, additional_exec_state (self m) !! e =
                if decide (e ∈ queue (self m)) then Some ExecutionProgress_init else None) /\
     async_threads (self m) = [] /\
     held_locks m = ∅ /\ backend_log m = [] /\ state m = st).
Proof.
  intros running. unfold init. split.
  - intros Hpol. by rewrite decide_True.
  - intros Hpol.
    rewrite decide_False by (intros (? & ? & ?); destruct Hpol as [?|[?|?]]; done).
    eexists. split; [reflexivity|]. cbn [self held_locks backend_log state].
    fold running.
    destruct (foldl_recover st running (mkScheduler pol [] [] ∅ [] 0%nat false false))
      as (Hp & Hq & Hqr & Hth & _ & Haes).
    cbn in Hp, Hq, Hqr, Hth, Haes.
    split_and!; try done.
    all: intros e; rewrite Haes, Hq; by rewrite ?lookup_empty.
Qed.

Lemma init_recovers_running_executions_witness :
  ("LIFO" ≠ "FIFO" /\ "LIFO" ≠ "SIZE" /\ "LIFO" ≠ "DYNSIZE") /\
  init (H := Scenario.env) Scenario.store "LIFO" = Raise UnsupportedSchedulerPolicyError /\
  ("SIZE" = "FIFO" \/ "SIZE" = "SIZE" \/ "SIZE" = "DYNSIZE") /\
  exists m,
    init (H := Scenario.env) Scenario.store "SIZE" = Return m /\
    queue_running (self m) = [1; 2] /\ queue (self m) = [].
Proof.
  assert (H1 : "LIFO" ≠ "FIFO" /\ "LIFO" ≠ "SIZE" /\ "LIFO" ≠ "DYNSIZE") by done.
  assert (H2 : "SIZE" = "FIFO" \/ "SIZE" = "SIZE" \/ "SIZE" = "DYNSIZE") by (right; by left).
  destruct (init_recovers_running_executions (H := Scenario.env) Scenario.store "LIFO")
    as [Hbad _].
  destruct (init_recovers_running_executions (H := Scenario.env) Scenario.store "SIZE")
    as [_ Hgood].
  destruct (Hgood H2) as (m & Hm & _ & Hqr & Hq & _).
  split; [exact H1|]. split; [exact (Hbad H1)|]. split; [exact H2|].
  exists m. split; [exact Hm|]. split; [rewrite Hqr | rewrite Hq]; reflexivity.
Defined.

(** ** [incoming], [terminate] and the [ExecutionProgress] entries *)

(** X2.  [incoming] keeps the invariant that every queued execution has
    its [ExecutionProgress]; so does [terminate], for an execution that is
    queued at most once. *)
Theorem incoming_and_terminate_keep_progress (e : Z) (m : Machine) :
  queue_has_progress (self m) ->
  queue_has_progress (self (incoming e m).2) /\
  ((occurrences e (queue (self m)) <= 1)%nat ->
   queue_has_progress (self (terminate e m).2)).
Proof.
  intros Hinv. split; [by apply incoming_queue_has_progress|].
  intros Honce.
  destruct (list_remove e (queue (self m))) as [q'|] eqn:E1.
  - rewrite (terminate_from_queue _ _ _ E1).
    pose proof (occurrences_list_remove _ _ _ e E1) as Hocc.
    rewrite decide_True in Hocc by done.
    assert (Hgone : e ∉ q').
    { intros Hin. apply occurrences_elem_of in Hin. lia. }
    pose proof (list_remove_sublist _ _ _ E1) as Hsub.
    destruct m as [[pol q qr aes th sem clt lq] st h lg rd]; cbn in *.
    intros x Hx; cbn in *.
    rewrite lookup_delete_ne by (intros ->; done).
    apply Hinv; cbn. by eapply elem_of_sublist.
  - apply list_remove_None in E1.
    destruct (list_remove e (queue_running (self m))) as [qr'|] eqn:E2.
    + rewrite (terminate_from_queue_running _ _ _ (proj2 (list_remove_None _ _) E1) E2).
      destruct m as [[pol q qr aes th sem clt lq] st h lg rd]; cbn in *.
      intros x Hx; cbn in *.
      rewrite lookup_delete_ne by (intros ->; done).
      by apply Hinv.
    + by rewrite (terminate_in_no_queue _ _ (proj2 (list_remove_None _ _) E1) E2).
Qed.

Lemma incoming_and_terminate_keep_progress_witness :
  let m := Scenario.machine "FIFO" [1] [2] {[1 := ExecutionProgress_init]} in
  queue_has_progress (self m) /\
  (occurrences 1 (queue (self m)) <= 1)%nat /\
  queue_has_progress (self (incoming 3 m).2) /\
  queue_has_progress (self (terminate 1 m).2).
Proof.
  intros m.
  assert (Hinv : queue_has_progress (self m)).
  { intros x Hx. apply list_elem_of_singleton in Hx as ->. by eexists. }
  assert (Honce : (occurrences 1 (queue (self m)) <= 1)%nat) by (vm_compute; lia).
  split; [exact Hinv|]. split; [exact Honce|].
  split.
  - exact (proj1 (incoming_and_terminate_keep_progress 3 m Hinv)).
  - exact (proj2 (incoming_and_terminate_keep_progress 1 m Hinv) Honce).
Defined.

(** ** [_pop_all] *)

Lemma pop_from_exact (l out : list Z) (m : Machine) :
  exists added m',
    pop_from l out m = (Return (out ++ added), m') /\
    self m' = self m /\ state m' = state m /\
    backend_log m' = backend_log m /\ readings m' = readings m /\
    held_locks m' = held_locks m ∪ list_to_set l /\
    added `sublist_of` l /\
    NoDup added /\
    (forall x, x ∈ added <->
               x ∈ l /\ (x ∉ held_locks m) /\
               exec_status (executions (state m) x) ≠ TERMINATED_STATUS).
Proof.
  revert out m; induction l as [|e l IH]; intros out m; cbn [pop_from].
  - exists [], m. rewrite app_nil_r. cbn.
    split_and!; try done.
    + by rewrite union_empty_r_L.
    + apply NoDup_nil_2.
    + intros x. split; [intros Hx; by apply not_elem_of_nil in Hx|].
      intros (Hx & _). by apply not_elem_of_nil in Hx.
  - unfold termination_lock_acquire. rewrite bind_run, bind_gets.
    destruct (decide (e ∈ held_locks m)) as [He|He]; cbn [ret].
    + rewrite bind_gets. cbn [andb].
      destruct (IH out m)
        as (added & m' & Hrun & Hself & Hst & Hlog & Hrd & Hheld & Hsub & Hnd & Hiff).
      exists added, m'. split_and!; try done.
      * rewrite Hheld. cbn. apply set_eq. intros x.
        rewrite !elem_of_union, elem_of_singleton. split; [tauto|].
        intros [?|[->|?]]; tauto.
      * by apply sublist_cons.
      * intros x. rewrite Hiff, elem_of_cons. split; [tauto|].
        intros ([->|Hx] & Hn & Hs); [done | tauto].
    + rewrite bind_modify. cbn [ret]. rewrite bind_gets. cbn [andb].
      set (m1 := with_held_locks _ m).
      destruct (bool_decide_reflect
                  (exec_status (executions (state m1) e) ≠ TERMINATED_STATUS)) as [Hs|Hs].
      * destruct (IH (out ++ [e]) m1)
          as (added & m' & Hrun & Hself & Hst & Hlog & Hrd & Hheld & Hsub & Hnd & Hiff).
        exists (e :: added), m'. rewrite <- app_assoc in Hrun.
        split_and!; try done.
        -- rewrite Hheld. cbn. apply set_eq. intros x.
           rewrite !elem_of_union, elem_of_singleton. tauto.
        -- by apply sublist_skip.
        -- apply list.NoDup_cons. split; [|done].
           intros Hin. apply Hiff in Hin as (_ & Hn & _). apply Hn. cbn.
           apply elem_of_union. left. by apply elem_of_singleton.
        -- intros x. rewrite !elem_of_cons, Hiff. cbn.
           rewrite elem_of_union, elem_of_singleton. split.
           ++ intros [->|(Hx & Hn & Hst')]; [|tauto].
              split_and!; [by left | done | exact Hs].
           ++ intros ([->|Hx] & Hn & Hst'); [by left|].
              destruct (decide (x = e)) as [->|Hne]; [by left | right; tauto].
      * destruct (IH out m1)
          as (added & m' & Hrun & Hself & Hst & Hlog & Hrd & Hheld & Hsub & Hnd & Hiff).
        exists added, m'. split_and!; try done.
        -- rewrite Hheld. cbn. apply set_eq. intros x.
           rewrite !elem_of_union, elem_of_singleton. tauto.
        -- by apply sublist_cons.
        -- intros x. rewrite Hiff, elem_of_cons. cbn.
           rewrite elem_of_union, elem_of_singleton. split.
           ++ intros (Hx & Hn & Hst'). tauto.
           ++ intros ([->|Hx] & Hn & Hst'); [done|].
              split_and!; [done | | done]. intros [->|?]; done.
Qed.

(** X3.  [_pop_all] never raises and changes nothing but the locks: it
    takes the termination lock of every queued execution whose lock was
    free.  The candidates it returns are distinct, come in the order of the
    queue, and are exactly the queued executions whose lock was free and
    whose status is not [terminated]; a queued execution whose lock is held
    by someone else is skipped and stays in the queue. *)
Theorem pop_all_candidates (m : Machine) :
  exists ja m',
    _pop_all m = (Return ja, m') /\
    self m' = self m /\ state m' = state m /\ backend_log m' = backend_log m /\
    held_locks m' = held_locks m ∪ list_to_set (queue (self m)) /\
    ja `sublist_of` queue (self m) /\
    NoDup ja /\
    (forall x, x ∈ ja <->
               x ∈ queue (self m) /\ (x ∉ held_locks m) /\
               exec_status (executions (state m) x) ≠ TERMINATED_STATUS).
Proof.
  unfold _pop_all. rewrite bind_gets.
  destruct (pop_from_exact (queue (self m)) [] m)
    as (ja & m' & Hrun & Hself & Hst & Hlog & _ & Hheld & Hsub & Hnd & Hiff).
  exists ja, m'. done.
Qed.

(** ** [_requeue] *)

(** X4.  The three outcomes of [_requeue].  When the termination lock of
    the execution is not held, the release raises [RuntimeError] and nothing
    has changed.  When it is held but the execution has no
    [ExecutionProgress], [KeyError] is raised after the lock was released
    and the clock was read.  Otherwise the lock is released and
    [last_time_scheduled] is set to the time read, while the queues, the
    state store and the log of backend calls stay as they are. *)
Theorem requeue_outcomes `{Environment} (e : Z) (m : Machine) :
  (e ∉ held_locks m -> _requeue e m = (Raise RuntimeError, m)) /\
  (e ∈ held_locks m -> additional_exec_state (self m) !! e = None ->
   _requeue e m =
   (Raise KeyError, next_reading (with_held_locks (fun h => h ∖ {[e]}) m))) /\
  (forall d, e ∈ held_locks m -> additional_exec_state (self m) !! e = Some d ->
   exists m',
     _requeue e m = (Return tt, m') /\
     held_locks m' = held_locks m ∖ {[e]} /\
     additional_exec_state (self m') =
       <[e := mkExecutionProgress (time_time (readings m)) (progress_sequence d)]>
         (additional_exec_state (self m)) /\
     queue (self m') = queue (self m) /\
     queue_running (self m') = queue_running (self m) /\
     state m' = state m /\ backend_log m' = backend_log m /\
     readings m' = S (readings m)).
Proof.
  unfold _requeue, termination_lock_release, time, additional_exec_state_get.
  split_and!.
  - intros Hn. rewrite bind_run, bind_gets. by rewrite decide_False.
  - intros Hh Hd. rewrite bind_run, bind_gets. rewrite decide_True by done.
    unfold bind, gets, modify, ret, raise; cbn. by rewrite Hd.
  - intros d Hh Hd. rewrite bind_run, bind_gets. rewrite decide_True by done.
    unfold bind, gets, modify, ret, raise; cbn. rewrite Hd.
    eexists. split; [reflexivity|]. done.
Qed.

Lemma requeue_outcomes_witness :
  let m := with_held_locks (fun _ => {[1; 2]})
             (Scenario.machine "FIFO" [1; 2] [] {[1 := ExecutionProgress_init]}) in
  (3 ∉ held_locks m) /\ (2 ∈ held_locks m) /\ (1 ∈ held_locks m) /\
  additional_exec_state (self m) !! 2 = None /\
  additional_exec_state (self m) !! 1 = Some ExecutionProgress_init /\
  _requeue (H := Scenario.env) 3 m = (Raise RuntimeError, m) /\
  (_requeue (H := Scenario.env) 2 m).1 = Raise KeyError /\
  exists m', _requeue (H := Scenario.env) 1 m = (Return tt, m') /\
             held_locks m' = held_locks m ∖ {[1]}.
Proof.
  intros m.
  assert (H3 : 3 ∉ held_locks m) by compute_done.
  assert (H2 : 2 ∈ held_locks m) by compute_done.
  assert (H1 : 1 ∈ held_locks m) by compute_done.
  assert (Hd2 : additional_exec_state (self m) !! 2 = None) by reflexivity.
  assert (Hd1 : additional_exec_state (self m) !! 1 = Some ExecutionProgress_init)
    by reflexivity.
  destruct (requeue_outcomes (H := Scenario.env) 3 m) as (R3 & _ & _).
  destruct (requeue_outcomes (H := Scenario.env) 2 m) as (_ & R2 & _).
  destruct (requeue_outcomes (H := Scenario.env) 1 m) as (_ & _ & R1).
  split; [exact H3|]. split; [exact H2|]. split; [exact H1|].
  split; [exact Hd2|]. split; [exact Hd1|].
  split; [exact (R3 H3)|].
  split; [by rewrite (R2 H2 Hd2)|].
  destruct (R1 _ H1 Hd1) as (m' & Hrun & Hheld & _). by exists m'.
Defined.

(** ** [_refresh_execution_sizes] without an [ExecutionProgress] *)

Lemma for_each_app {St A} (l1 l2 : list A) (body : A -> M St unit) (s : St) :
  for_each (l1 ++ l2) body s =
  match for_each l1 body s with
  | (Return _, s') => for_each l2 body s'
  | (Raise e, s') => (Raise e, s')
  end.
Proof.
  revert s; induction l1 as [|x l1 IH]; intros s; cbn [for_each app]; [done|].
  unfold bind. destruct (body x s) as [[[]|e] s1]; [apply IH | done].
Qed.

Lemma for_each_refresh_one_returns `{Environment} (l : list Z) (m : Machine) :
  (forall e, e ∈ l -> is_Some (additional_exec_state (self m) !! e)) ->
  exists m',
    for_each l refresh_one m = (Return tt, m') /\
    self m' = self m /\
    (readings m <= readings m')%nat /\
    (forall e, e ∉ l -> executions (state m') e = executions (state m) e).
Proof.
  revert m; induction l as [|e l IH]; intros m Hprogress.
  - by exists m.
  - destruct (Hprogress e) as [d Hd]; [left|].
    destruct (refresh_one_run e d m Hd) as (m1 & Hrun1 & Hself1 & Hrd1 & Hother1 & _).
    destruct (IH m1) as (m' & Hrun & Hself & Hrd & Hother).
    { intros e' He'. rewrite Hself1. apply Hprogress. by right. }
    exists m'. split_and!.
    + cbn [for_each]. unfold bind. rewrite Hrun1. exact Hrun.
    + congruence.
    + lia.
    + intros e' He'. apply not_elem_of_cons in He' as [Hne He'].
      rewrite Hother by done. by apply Hother1.
Qed.

(** X5.  Under DYNSIZE the refresh of the sizes raises [KeyError] at the
    first queued execution that has no [ExecutionProgress]: the executions
    queued before it have been refreshed, those queued after it have not,
    and the scheduler object is as it was. *)
Theorem refresh_execution_sizes_raises_KeyError `{Environment}
    (m : Machine) (pre post : list Z) (e : Z) :
  policy (self m) = "DYNSIZE" ->
  queue (self m) = pre ++ e :: post ->
  (forall x, x ∈ pre -> is_Some (additional_exec_state (self m) !! x)) ->
  additional_exec_state (self m) !! e = None ->
  exists m',
    _refresh_execution_sizes m = (Raise KeyError, m') /\
    self m' = self m /\
    (forall x, x ∉ pre -> executions (state m') x = executions (state m) x).
Proof.
  intros Hp Hq Hpre He.
  destruct (for_each_refresh_one_returns pre m Hpre) as (m1 & Hrun & Hself & _ & Hother).
  exists m1. split_and!; try done.
  unfold _refresh_execution_sizes. rewrite bind_gets, Hp.
  rewrite decide_False by done. rewrite decide_False by done.
  rewrite decide_True by done.
  rewrite Hq, for_each_app, Hrun. cbn [for_each].
  unfold refresh_one, additional_exec_state_get, bind, gets.
  rewrite Hself, He. reflexivity.
Qed.

Lemma refresh_execution_sizes_raises_KeyError_witness :
  let m := Scenario.machine "DYNSIZE" [1; 2] [] {[1 := ExecutionProgress_init]} in
  policy (self m) = "DYNSIZE" /\
  queue (self m) = [1] ++ 2 :: [] /\
  (forall x, x ∈ [1] -> is_Some (additional_exec_state (self m) !! x)) /\
  additional_exec_state (self m) !! 2 = None /\
  exists m', _refresh_execution_sizes (H := Scenario.env) m = (Raise KeyError, m').
Proof.
  intros m.
  assert (Hpre : forall x, x ∈ [1] -> is_Some (additional_exec_state (self m) !! x)).
  { intros x Hx. apply list_elem_of_singleton in Hx as ->. by eexists. }
  split; [reflexivity|]. split; [reflexivity|]. split; [exact Hpre|].
  split; [reflexivity|].
  destruct (refresh_execution_sizes_raises_KeyError (H := Scenario.env) m [1] [] 2
              eq_refl eq_refl Hpre eq_refl) as (m' & Hrun & _).
  by exists m'.
Defined.

(** ** The sort of the queue, and [stats] *)

Lemma insert_by_key_stable {A} (key : A -> Q) (k : Q) (x : A) (l : list A) :
  List.filter (fun a => Qeq_bool (key a) k) (insert_by_key key x l) =
  List.filter (fun a => Qeq_bool (key a) k) (x :: l).
Proof.
  induction l as [|y l IH]; [done|].
  cbn [insert_by_key]. destruct (Qle_bool (key x) (key y)) eqn:Hxy; [done|].
  cbn [List.filter] in *. rewrite IH.
  destruct (Qeq_bool (key x) k) eqn:Ex, (Qeq_bool (key y) k) eqn:Ey; try done.
  apply Qeq_bool_iff in Ex, Ey.
  assert (Hle : Qle_bool (key x) (key y) = true).
  { apply Qle_bool_iff. rewrite Ex, Ey. apply Qle_refl. }
  congruence.
Qed.

Lemma sorted_stable {A} (l : list A) (key : A -> Q) (k : Q) :
  List.filter (fun a => Qeq_bool (key a) k) (sorted l key) =
  List.filter (fun a => Qeq_bool (key a) k) l.
Proof.
  unfold sorted. induction l as [|x l IH]; [done|].
  cbn [foldr]. rewrite insert_by_key_stable. cbn [List.filter]. by rewrite IH.
Qed.

(** X6.  The sort at the head of a pass.  Under FIFO the machine is left
    as it is.  Under SIZE and DYNSIZE only the pending queue changes: it
    holds the same executions, in ascending order of their sizes, and
    executions of equal size keep the order they had. *)
Theorem sort_queue_by_policy (m : Machine) :
  let size_of e := exec_size (executions (state m) e) in
  (policy (self m) = "FIFO" -> sort_queue m = (Return tt, m)) /\
  (policy (self m) = "SIZE" \/ policy (self m) = "DYNSIZE" ->
   exists q',
     sort_queue m = (Return tt, with_self (with_queue q') m) /\
     q' ≡ₚ queue (self m) /\
     StronglySorted (fun a b => (size_of a <= size_of b)%Q) q' /\
     (forall k, List.filter (fun a => Qeq_bool (size_of a) k) q' =
                List.filter (fun a => Qeq_bool (size_of a) k) (queue (self m)))).
Proof.
  intros size_of. unfold sort_queue. rewrite bind_run. cbn [get]. split.
  - intros Hp. rewrite decide_False; [done|]. rewrite Hp. intros [?|?]; done.
  - intros Hp. rewrite decide_True by done.
    eexists. split; [reflexivity|]. split_and!.
    + apply sorted_Permutation.
    + apply (sorted_ascending (queue (self m)) size_of).
    + intros k. apply (sorted_stable (queue (self m)) size_of).
Qed.

Lemma sort_queue_by_policy_witness :
  let m := Scenario.machine "SIZE" [1; 2] [] ∅ in
  (policy (self m) = "SIZE" \/ policy (self m) = "DYNSIZE") /\
  exists q', sort_queue m = (Return tt, with_self (with_queue q') m) /\
             q' ≡ₚ queue (self m).
Proof.
  intros m.
  assert (Hp : policy (self m) = "SIZE" \/ policy (self m) = "DYNSIZE") by (by left).
  split; [exact Hp|].
  destruct (proj2 (sort_queue_by_policy m) Hp) as (q' & Hrun & Hperm & _).
  by exists q'.
Defined.

(** X7.  What [stats] reports is consistent: the two lengths are those
    of the two lists reported, the list
    reported for the pending queue holds the executions of the pending
    queue, and the running queue is reported as it is.  Under SIZE the
    pending queue is reported in ascending order of the sizes, with
    executions of equal size in queue order. *)
Theorem stats_reports_the_queues (m : Machine) :
  let size_of e := exec_size (executions (state m) e) in
  stats_queue (stats m) ≡ₚ queue (self m) /\
  queue_length (stats m) = length (stats_queue (stats m)) /\
  running_length (stats m) = length (stats_running_queue (stats m)) /\
  stats_running_queue (stats m) = queue_running (self m) /\
  termination_threads_count (stats m) = length (async_threads (self m)) /\
  (policy (self m) = "SIZE" ->
   StronglySorted (fun a b => (size_of a <= size_of b)%Q) (stats_queue (stats m)) /\
   forall k, List.filter (fun a => Qeq_bool (size_of a) k) (stats_queue (stats m)) =
             List.filter (fun a => Qeq_bool (size_of a) k) (queue (self m))).
Proof.
  intros size_of.
  assert (Hperm : stats_queue (stats m) ≡ₚ queue (self m)).
  { unfold stats; cbn. case_decide; [apply sorted_Permutation | done]. }
  split_and!; try done.
  - cbn [stats queue_length]. by rewrite Hperm.
  - intros Hp. rewrite (stats_queue_SIZE m Hp). split.
    + apply (sorted_ascending (queue (self m)) size_of).
    + intros k. apply (sorted_stable (queue (self m)) size_of).
Qed.

Lemma stats_reports_the_queues_witness :
  let m := Scenario.machine "SIZE" [1; 2] [] ∅ in
  policy (self m) = "SIZE" /\
  stats_queue (stats m) ≡ₚ queue (self m) /\
  StronglySorted
    (fun a b => (exec_size (executions (state m) a) <= exec_size (executions (state m) b))%Q)
    (stats_queue (stats m)).
Proof.
  intros m.
  destruct (stats_reports_the_queues m) as (Hperm & _ & _ & _ & _ & Hsize).
  split; [reflexivity|]. split; [exact Hperm|].
  exact (proj1 (Hsize eq_refl)).
Defined.

(** ** The requeue pass *)

Lemma requeue_not_held `{Environment} (j : Z) (m : Machine) :
  j ∉ held_locks m -> _requeue j m = (Raise RuntimeError, m).
Proof.
  intros Hn. unfold _requeue, termination_lock_release.
  rewrite bind_run, bind_gets. by rewrite decide_False.
Qed.

Lemma requeue_run `{Environment} (j : Z) (d : ExecutionProgress) (m : Machine) :
  j ∈ held_locks m -> additional_exec_state (self m) !! j = Some d ->
  _requeue j m =
  (Return tt,
   with_self (fun s =>
     with_additional_exec_state
       (<[j := mkExecutionProgress (time_time (readings m)) (progress_sequence d)]>
          (additional_exec_state s)) s)
     (next_reading (with_held_locks (fun h => h ∖ {[j]}) m))).
Proof.
  intros Hh Hd. unfold _requeue, termination_lock_release, time, additional_exec_state_get.
  rewrite bind_run, bind_gets. rewrite decide_True by done.
  unfold bind, gets, modify, ret, raise; cbn. by rewrite Hd.
Qed.

Lemma requeue_pass_returns `{Environment} (l : list Z) (m : Machine) :
  NoDup l ->
  (forall x, x ∈ l -> x ∈ held_locks m /\ is_Some (additional_exec_state (self m) !! x)) ->
  exists m',
    for_each l _requeue m = (Return tt, m') /\
    held_locks m' = held_locks m ∖ list_to_set l /\
    queue (self m') = queue (self m) /\
    queue_running (self m') = queue_running (self m) /\
    async_threads (self m') = async_threads (self m) /\
    state m' = state m /\ backend_log m' = backend_log m /\
    (readings m <= readings m')%nat /\
    (forall x, x ∉ l ->
       additional_exec_state (self m') !! x = additional_exec_state (self m) !! x) /\
    (forall x d, x ∈ l -> additional_exec_state (self m) !! x = Some d ->
       exists k, (readings m <= k < readings m')%nat /\
                 additional_exec_state (self m') !! x =
                   Some (mkExecutionProgress (time_time k) (progress_sequence d))).
Proof.
  revert m; induction l as [|j l IH]; intros m Hnd Hall.
  - exists m. cbn. split_and!; try done.
    + by rewrite difference_empty_L.
    + intros x d Hx. by apply not_elem_of_nil in Hx.
  - pose proof (NoDup_cons_1_1 _ _ Hnd) as Hj. apply NoDup_cons_1_2 in Hnd.
    destruct (Hall j) as [Hheld [d Hd]]; [left|].
    cbn [for_each]. rewrite bind_run, (requeue_run j d m Hheld Hd).
    set (m1 := with_self _ _).
    destruct (IH m1 Hnd) as (m' & Hrun & Hh & Hq & Hqr & Hth & Hst & Hlog & Hrd & Hout & Hin).
    { intros x Hx. destruct (Hall x) as [Hxh Hxd]; [by right|].
      assert (Hne : x ≠ j) by (intros ->; done).
      split.
      - cbn. rewrite elem_of_difference, elem_of_singleton. done.
      - cbn. by rewrite lookup_insert_ne. }
    exists m'. split_and!; try done.
    + rewrite Hh. cbn. apply set_eq. intros x.
      rewrite !elem_of_difference, elem_of_union, elem_of_singleton. tauto.
    + cbn in Hrd. lia.
    + intros x Hx. apply not_elem_of_cons in Hx as [Hne Hx].
      rewrite (Hout x Hx). cbn. by rewrite lookup_insert_ne.
    + intros x d' Hx Hd'. apply elem_of_cons in Hx as [->|Hx].
      * assert (d' = d) as -> by congruence.
        exists (readings m). split; [cbn in Hrd; lia|].
        rewrite (Hout j Hj). cbn. by rewrite lookup_insert_eq.
      * assert (Hne : x ≠ j) by (intros ->; done).
        destruct (Hin x d' Hx) as (k & Hk & Hx').
        { cbn. by rewrite lookup_insert_ne. }
        exists k. split; [cbn in Hk; lia | done].
Qed.

Lemma requeue_pass_raises `{Environment} (l : list Z) (j : Z) (m : Machine) :
  j ∈ l -> j ∉ held_locks m -> exists e, (for_each l _requeue m).1 = Raise e.
Proof.
  revert m; induction l as [|j0 l IH]; intros m Hin Hn.
  - by apply not_elem_of_nil in Hin.
  - cbn [for_each]. rewrite bind_run.
    destruct (decide (j0 = j)) as [->|Hne].
    + rewrite (requeue_not_held j m Hn). by eexists.
    + destruct (quiet_requeue j0 m) as [_ Hun].
      destruct (_requeue j0 m) as [[[]|e] m1]; cbn [snd] in Hun; [|by eexists].
      apply IH.
      * apply elem_of_cons in Hin as [->|Hin]; done.
      * destruct (Hun j) as (_ & _ & Hheld & _); [done|]. tauto.
Qed.

(** X8.  The requeue pass, [for job in jobs_to_attempt_scheduling:
    self._requeue(job)].  Over distinct executions that all have their
    termination lock held and their [ExecutionProgress], it ends normally,
    releases exactly their locks and sets the [last_time_scheduled] of each
    to a time read during the pass, keeping its progress sequence; the
    queues, the state store and the backend are left alone.  When the lock
    of an execution of the list is not held, the pass stops there with
    [RuntimeError]: the locks of the executions before it are released,
    those of the executions after it are left as they are. *)
Theorem requeue_pass_outcomes `{Environment} (pre post : list Z) (j : Z) (m : Machine) :
  NoDup pre ->
  (forall x, x ∈ pre -> x ∈ held_locks m /\ is_Some (additional_exec_state (self m) !! x)) ->
  (exists m',
     for_each pre _requeue m = (Return tt, m') /\
     held_locks m' = held_locks m ∖ list_to_set pre /\
     queue (self m') = queue (self m) /\
     queue_running (self m') = queue_running (self m) /\
     state m' = state m /\ backend_log m' = backend_log m /\
     (forall x, x ∉ pre ->
        additional_exec_state (self m') !! x = additional_exec_state (self m) !! x) /\
     (forall x d, x ∈ pre -> additional_exec_state (self m) !! x = Some d ->
        exists k, (readings m <= k < readings m')%nat /\
                  additional_exec_state (self m') !! x =
                    Some (mkExecutionProgress (time_time k) (progress_sequence d)))) /\
  (j ∉ held_locks m ->
   exists m',
     for_each (pre ++ j :: post) _requeue m = (Raise RuntimeError, m') /\
     held_locks m' = held_locks m ∖ list_to_set pre /\
     (forall x, x ∈ post -> x ∉ pre -> (x ∈ held_locks m' <-> x ∈ held_locks m))).
Proof.
  intros Hnd Hall.
  destruct (requeue_pass_returns pre m Hnd Hall)
    as (m' & Hrun & Hh & Hq & Hqr & Hth & Hst & Hlog & Hrd & Hout & Hin).
  split.
  - exists m'. split_and!; done.
  - intros Hj. exists m'. split_and!.
    + rewrite for_each_app, Hrun. cbn [for_each]. rewrite bind_run.
      rewrite requeue_not_held; [done|].
      rewrite Hh, elem_of_difference. tauto.
    + done.
    + intros x _ Hx. rewrite Hh, elem_of_difference, elem_of_list_to_set. tauto.
Qed.

Lemma requeue_pass_outcomes_witness :
  let m := with_held_locks (fun _ => {[1; 3]})
             (Scenario.machine "FIFO" [1; 2; 3] []
                {[1 := ExecutionProgress_init; 2 := ExecutionProgress_init;
                  3 := ExecutionProgress_init]}) in
  NoDup [1] /\
  (forall x, x ∈ [1] -> x ∈ held_locks m /\ is_Some (additional_exec_state (self m) !! x)) /\
  (2 ∉ held_locks m) /\
  (exists m', for_each [1] (_requeue (H := Scenario.env)) m = (Return tt, m')) /\
  (exists m', for_each ([1] ++ 2 :: [3]) (_requeue (H := Scenario.env)) m =
                (Raise RuntimeError, m') /\
              held_locks m' = held_locks m ∖ list_to_set [1]).
Proof.
  intros m.
  assert (Hnd : NoDup [1]) by compute_done.
  assert (Hall : forall x, x ∈ [1] ->
            x ∈ held_locks m /\ is_Some (additional_exec_state (self m) !! x)).
  { intros x Hx. apply list_elem_of_singleton in Hx as ->.
    split; [compute_done | by eexists]. }
  assert (Hj : 2 ∉ held_locks m) by compute_done.
  split; [exact Hnd|]. split; [exact Hall|]. split; [exact Hj|].
  destruct (requeue_pass_outcomes (H := Scenario.env) [1] [3] 2 m Hnd Hall)
    as [(m1 & Hrun1 & _) Hraise].
  split; [by exists m1|].
  destruct (Hraise Hj) as (m2 & Hrun2 & Hheld2 & _).
  exists m2. done.
Defined.

(** ** One pass of the inner loop, phase by phase *)

Lemma refresh_one_keeps_status `{Environment} (e x : Z) (m : Machine) :
  exec_status (executions (state (refresh_one e m).2) x) =
  exec_status (executions (state m) x).
Proof.
  unfold refresh_one, additional_exec_state_get, time.
  unfold bind, gets, modify, ret, raise; cbn.
  destruct (additional_exec_state (self m) !! e) as [d|]; cbn; [|done].
  destruct (Qeq_bool (last_time_scheduled d) 0); cbn; [done|].
  destruct (Qle_bool (exec_size (executions (state m) e)) 0); cbn.
  - destruct (decide (x = e)) as [->|Hne].
    + by rewrite fn_lookup_insert.
    + by rewrite fn_lookup_insert_ne.
  - destruct (decide (x = e)) as [->|Hne].
    + by rewrite fn_lookup_insert.
    + by rewrite fn_lookup_insert_ne.
Qed.

Lemma for_each_refresh_one_keeps_status `{Environment} (l : list Z) (x : Z) (m : Machine) :
  exec_status (executions (state (for_each l refresh_one m).2) x) =
  exec_status (executions (state m) x).
Proof.
  revert m; induction l as [|e l IH]; intros m; cbn [for_each]; [done|].
  rewrite bind_run. pose proof (refresh_one_keeps_status e x m) as Hone.
  destruct (refresh_one e m) as [[[]|ex] m1]; cbn [snd] in *; [|done].
  by rewrite IH.
Qed.

Lemma refresh_execution_sizes_keeps_status `{Environment} (x : Z) (m : Machine) :
  exec_status (executions (state (_refresh_execution_sizes m).2) x) =
  exec_status (executions (state m) x).
Proof.
  unfold _refresh_execution_sizes. rewrite bind_gets.
  repeat (case_decide; [done|]). case_decide; [|done].
  apply for_each_refresh_one_keeps_status.
Qed.

Section Pass.
Context `{Environment} `{SimulatedPlatformOps P}.

(** The pass as a sequence of phases: the refresh of the sizes, the sort,
    the choice of the candidates, the reading of the metrics, and then
    either the requeue of every candidate or the placement, the commit loop
    and the requeue pass. *)
Lemma inner_iteration_anatomy (m : Machine) :
  let out := inner_iteration P m in
  (exists e m0, _refresh_execution_sizes m = (Raise e, m0) /\ out = (Raise e, m0)) \/
  (exists m0 q1 ja m2,
     _refresh_execution_sizes m = (Return tt, m0) /\
     q1 ≡ₚ queue (self m) /\
     sort_queue m0 = (Return tt, with_self (with_queue q1) m0) /\
     _pop_all (with_self (with_queue q1) m0) = (Return ja, m2) /\
     ((current_stats (readings m2) = None /\
       out = (for_each ja _requeue >> ret false)%py (next_reading m2)) \/
      (exists ps placements jl,
         current_stats (readings m2) = Some ps /\
         jl `sublist_of` ja /\
         out.2 = (commit_and_requeue placements jl ja (next_reading m2)).2 /\
         (forall e, (commit_and_requeue placements jl ja (next_reading m2)).1 = Raise e ->
                    out.1 = Raise e) /\
         ((commit_and_requeue placements jl ja (next_reading m2)).1 = Return tt ->
          exists again, out.1 = Return again) /\
         (out.1 = Return true -> queue (self out.2) ≠ [] /\ jl ≠ [])))).
Proof.
  intros out. subst out. unfold inner_iteration.
  rewrite (bind_run _refresh_execution_sizes).
  destruct (silent_refresh_execution_sizes m) as (Hself0 & _ & _).
  destruct (_refresh_execution_sizes m) as [[[]|e0] m0]; cbn [fst snd] in *.
  2:{ left. by exists e0, m0. }
  right.
  rewrite (bind_run sort_queue).
  destruct (sort_queue_run m0) as (q1 & Hsort & Hperm). rewrite Hsort.
  rewrite (bind_run _pop_all).
  destruct (pop_all_spec (with_self (with_queue q1) m0)) as (ja & m2 & Hpop & _).
  rewrite Hpop.
  exists m0, q1, ja, m2. split; [done|]. split; [by rewrite Hperm, Hself0|].
  split; [done|]. split; [done|].
  rewrite (bind_run (try_except _ _ _)), metrics_try_run.
  destruct (current_stats (readings m2)) as [ps|]; [|by left].
  right. rewrite bind_gets.
  destruct (placement_loop_jobs (state (next_reading m2)) ja (SimulatedPlatform ps) []
              (aggregated_free_memory (SimulatedPlatform (P := P) ps)))
    as (jl & Hjl & Hsubjl).
  destruct (placement_loop (state (next_reading m2)) ja (SimulatedPlatform ps) []
              (aggregated_free_memory (SimulatedPlatform (P := P) ps)))
    as [[sim jobs_to_launch] free]. cbn [fst snd app] in Hjl. subst jl.
  exists ps, (get_service_allocation sim), jobs_to_launch.
  split; [done|]. split; [done|].
  rewrite (bind_run (commit_and_requeue _ _ _)).
  destruct (commit_and_requeue (get_service_allocation sim) jobs_to_launch ja
              (next_reading m2)) as [[[]|e] m4]; cbn [fst snd].
  - rewrite bind_gets. split_and!.
    + repeat case_decide; reflexivity.
    + intros e [=].
    + intros _. repeat case_decide; by eexists.
    + repeat case_decide; cbn; intros [=].
      split; intros Hnil; rewrite Hnil in *; done.
  - split_and!; [done | intros e' [= <-]; done | intros [=] | intros [=]].
Qed.

Lemma commit_and_requeue_frame (placements : Placements) (jl ja : list Z)
    (m : Machine) (x : Z) :
  x ∉ jl -> x ∉ ja ->
  untouched x m (commit_and_requeue placements jl ja m).2.
Proof.
  intros Hjl Hja. unfold commit_and_requeue.
  rewrite (bind_run (commit_loop placements jl ja)).
  destruct (commit_loop_frame placements jl ja m) as (cs & _ & _ & Hun & Hret).
  destruct (commit_loop placements jl ja m) as [[ja'|e] m1]; cbn [fst snd] in *.
  - destruct (after_commit_frame ja' m1) as [_ Hun'].
    eapply untouched_trans; [by apply Hun|]. apply Hun'.
    intros Hx. destruct (Hret ja' eq_refl) as [Hsub _].
    apply Hja. by eapply elem_of_sublist.
  - by apply Hun.
Qed.

(** X9.  Every backend call of a pass is about an execution that, when
    the pass began, was in the pending queue, had its termination lock free
    and was not in status [terminated]. *)
Theorem pass_calls_only_for_candidates (m : Machine) :
  Forall (fun c => exists j,
            call_about j c /\ j ∈ queue (self m) /\ (j ∉ held_locks m) /\
            exec_status (executions (state m) j) ≠ TERMINATED_STATUS)
         (calls_since m (inner_iteration P m).2).
Proof.
  destruct (silent_refresh_execution_sizes m) as (Hself0 & Hheld0 & Hlog0).
  destruct (inner_iteration_anatomy m)
    as [(e & m0 & Hrefresh & ->)|(m0 & q1 & ja & m2 & Hrefresh & Hperm & _ & Hpop & Hrest)];
    rewrite Hrefresh in Hself0, Hheld0, Hlog0; cbn [snd] in *.
  { unfold calls_since. rewrite Hlog0, drop_all. constructor. }
  destruct (pop_all_candidates (with_self (with_queue q1) m0))
    as (ja' & m2' & Hpop' & Hself2 & Hst2 & Hlog2 & Hheld2 & Hsub & Hnd & Hiff).
  rewrite Hpop in Hpop'. injection Hpop' as <- <-.
  assert (Hlog3 : backend_log (next_reading m2) = backend_log m).
  { cbn. rewrite Hlog2. cbn. exact Hlog0. }
  destruct Hrest as [[_ ->]|(ps & placements & jl & _ & Hsubjl & -> & _)].
  - rewrite (bind_run (for_each ja _requeue)).
    destruct (requeue_pass_frame ja (next_reading m2)) as [Hlog _].
    destruct (for_each ja _requeue (next_reading m2)) as [[[]|e] m4]; cbn [fst snd ret] in *;
      unfold calls_since; rewrite Hlog, Hlog3, drop_all; constructor.
  - destruct (commit_and_requeue_calls placements jl ja (next_reading m2))
      as (cs & Hlog & Hab).
    unfold calls_since. rewrite Hlog, Hlog3, drop_app_length.
    eapply Forall_impl; [|exact Hab]. cbn.
    intros c (j & Hj & Hc). exists j. split; [done|].
    assert (Hja : j ∈ ja) by (by eapply elem_of_sublist).
    apply Hiff in Hja as (Hq & Hn & Hs). cbn in Hq, Hn, Hs.
    split_and!.
    + by rewrite <- Hperm.
    + by rewrite <- Hheld0.
    + pose proof (refresh_execution_sizes_keeps_status j m) as Hst.
      rewrite Hrefresh in Hst. cbn [snd] in Hst. by rewrite <- Hst.
Qed.

(** X10.  An execution whose termination lock is held when the pass
    begins, or that is not in the pending queue, is left alone by the pass:
    it occurs in each queue as often as before, its lock is in the same
    state and its [ExecutionProgress] is the same. *)
Theorem pass_leaves_locked_execution_alone (m : Machine) (x : Z) :
  x ∈ held_locks m \/ x ∉ queue (self m) ->
  untouched x m (inner_iteration P m).2.
Proof.
  intros Hx.
  destruct (silent_refresh_execution_sizes m) as (Hself0 & Hheld0 & Hlog0).
  destruct (inner_iteration_anatomy m)
    as [(e & m0 & Hrefresh & ->)|(m0 & q1 & ja & m2 & Hrefresh & Hperm & _ & Hpop & Hrest)];
    rewrite Hrefresh in Hself0, Hheld0, Hlog0; cbn [snd] in *.
  { unfold untouched. rewrite Hself0, Hheld0. done. }
  destruct (pop_all_candidates (with_self (with_queue q1) m0))
    as (ja' & m2' & Hpop' & Hself2 & Hst2 & Hlog2 & Hheld2 & Hsub & Hnd & Hiff).
  rewrite Hpop in Hpop'. injection Hpop' as <- <-.
  assert (Hnot : x ∉ ja).
  { intros Hja. apply Hiff in Hja as (Hq & Hn & _). cbn in Hq, Hn.
    rewrite Hheld0 in Hn. rewrite Hperm in Hq. tauto. }
  assert (Hbefore : untouched x m (next_reading m2)).
  { unfold untouched; cbn. rewrite Hself2, Hheld2. cbn. rewrite Hself0, Hheld0.
    split_and!; try done.
    - unfold occurrences. apply Permutation_count_occ. done.
    - rewrite elem_of_union, elem_of_list_to_set, Hperm. tauto. }
  eapply untouched_trans; [exact Hbefore|].
  destruct Hrest as [[_ ->]|(ps & placements & jl & _ & Hsubjl & -> & _)].
  - rewrite (bind_run (for_each ja _requeue)).
    destruct (requeue_pass_frame ja (next_reading m2)) as [_ Hun].
    specialize (Hun x Hnot).
    by destruct (for_each ja _requeue (next_reading m2)) as [[[]|e] m4].
  - apply commit_and_requeue_frame; [|done].
    intros Hjl. apply Hnot. by eapply elem_of_sublist.
Qed.

End Pass.

Lemma pass_leaves_locked_execution_alone_witness :
  let m := with_held_locks (fun _ => {[2]})
             (Scenario.machine "FIFO" [1; 2] []
                {[1 := ExecutionProgress_init; 2 := ExecutionProgress_init]}) in
  (2 ∈ held_locks m \/ 2 ∉ queue (self m)) /\
  untouched 2 m (inner_iteration (H := Scenario.env) Simulated.Platform m).2.
Proof.
  intros m.
  assert (Hx : 2 ∈ held_locks m \/ 2 ∉ queue (self m)) by (left; compute_done).
  split; [exact Hx|].
  exact (pass_leaves_locked_execution_alone (H := Scenario.env) (P := Simulated.Platform)
           m 2 Hx).
Defined.

(** ** What a pass does to the two queues *)

Lemma occurrences_singleton_eq (j : Z) : occurrences j [j] = 1%nat.
Proof. unfold occurrences; cbn. destruct (Z.eq_dec j j); done. Qed.

Lemma requeue_keeps_queues `{Environment} (j : Z) (m : Machine) :
  queue (self (_requeue j m).2) = queue (self m) /\
  queue_running (self (_requeue j m).2) = queue_running (self m).
Proof.
  unfold _requeue, termination_lock_release, time, additional_exec_state_get.
  unfold bind, gets, modify, ret, raise; cbn.
  case_decide; cbn; [|done].
  destruct (additional_exec_state (self m) !! j); cbn; done.
Qed.

Lemma requeue_pass_keeps_queues `{Environment} (l : list Z) (m : Machine) :
  queue (self (for_each l _requeue m).2) = queue (self m) /\
  queue_running (self (for_each l _requeue m).2) = queue_running (self m).
Proof.
  revert m; induction l as [|j l IH]; intros m; cbn [for_each]; [done|].
  rewrite bind_run. destruct (requeue_keeps_queues j m) as [Hq Hqr].
  destruct (_requeue j m) as [[[]|e] m1]; cbn [snd] in *; [|done].
  destruct (IH m1) as [Hq' Hqr']. split; congruence.
Qed.

Lemma requeue_no_progress `{Environment} (j : Z) (m : Machine) :
  j ∈ held_locks m -> additional_exec_state (self m) !! j = None ->
  (_requeue j m).1 = Raise KeyError.
Proof.
  intros Hh Hd. unfold _requeue, termination_lock_release, time, additional_exec_state_get.
  rewrite bind_run, bind_gets. rewrite decide_True by done.
  unfold bind, gets, modify, ret, raise; cbn. by rewrite Hd.
Qed.

(** What happened to an execution between two states of the machine, as
    far as the queues go: nothing, a move of one occurrence from the
    pending queue to the running queue, or the loss of one occurrence of
    the pending queue. *)
Section Moves.
Context `{Environment} (placements : Placements).

Lemma promote_if_active_moves (j : Z) (ja : list Z) (m : Machine) :
  let out := promote_if_active j ja m in
  (occurrences j (queue (self out.2)) = occurrences j (queue (self m)) /\
   occurrences j (queue_running (self out.2)) = occurrences j (queue_running (self m))) \/
  (S (occurrences j (queue (self out.2))) = occurrences j (queue (self m)) /\
   occurrences j (queue_running (self out.2)) = S (occurrences j (queue_running (self m)))).
Proof.
  unfold promote_if_active, termination_lock_release, local_remove, queue_remove.
  unfold bind, gets, modify, ret, raise; cbn.
  destruct (all_services_active (state m) j); cbn; [|by left].
  case_decide; cbn; [|by left].
  destruct (list_remove j ja) as [ja'|]; cbn; [|by left].
  destruct (list_remove j (queue (self m))) as [q'|] eqn:Hq; cbn; [|by left].
  right. rewrite (occurrences_list_remove _ _ _ j Hq), decide_True by done.
  rewrite occurrences_app, occurrences_singleton_eq. lia.
Qed.

Lemma throw_away_moves (j : Z) (ja : list Z) (m : Machine) :
  let out := throw_away j ja m in
  occurrences j (queue_running (self out.2)) = occurrences j (queue_running (self m)) /\
  (occurrences j (queue (self out.2)) = occurrences j (queue (self m)) \/
   S (occurrences j (queue (self out.2))) = occurrences j (queue (self m))).
Proof.
  unfold throw_away, termination_lock_release, local_remove, queue_remove.
  unfold bind, gets, modify, ret, raise; cbn.
  destruct (list_remove j ja) as [ja'|]; cbn; [|by split; [|left]].
  destruct (list_remove j (queue (self m))) as [q'|] eqn:Hq; cbn; [|by split; [|left]].
  assert (Hocc : S (occurrences j q') = occurrences j (queue (self m))).
  { rewrite (occurrences_list_remove _ _ _ j Hq), decide_True by done. lia. }
  case_decide; cbn; (split; [done | by right]).
Qed.

Lemma commit_job_moves (j : Z) (ja : list Z) (m : Machine) :
  let out := commit_job placements j ja m in
  exists cs,
    backend_log out.2 = backend_log m ++ cs /\
    ((occurrences j (queue (self out.2)) = occurrences j (queue (self m)) /\
      occurrences j (queue_running (self out.2)) = occurrences j (queue_running (self m))) \/
     (S (occurrences j (queue (self out.2))) = occurrences j (queue (self m)) /\
      occurrences j (queue_running (self out.2)) =
        S (occurrences j (queue_running (self m))) /\
      CallStartElastic j ∈ cs) \/
     (S (occurrences j (queue (self out.2))) = occurrences j (queue (self m)) /\
      occurrences j (queue_running (self out.2)) = occurrences j (queue_running (self m)) /\
      CallStartEssential j StartFatal ∈ cs)).
Proof.
  assert (Hpromote : forall m0 : Machine,
    let out := start_elastic_and_promote placements j ja m0 in
    backend_log out.2 = backend_log m0 ++ [CallStartElastic j] /\
    ((occurrences j (queue (self out.2)) = occurrences j (queue (self m0)) /\
      occurrences j (queue_running (self out.2)) =
        occurrences j (queue_running (self m0))) \/
     (S (occurrences j (queue (self out.2))) = occurrences j (queue (self m0)) /\
      occurrences j (queue_running (self out.2)) =
        S (occurrences j (queue_running (self m0)))))).
  { intros m0. destruct (start_elastic_and_promote_cases placements j ja m0) as (Hlog & _).
    split; [exact Hlog|].
    unfold start_elastic_and_promote. rewrite !bind_modify.
    apply (promote_if_active_moves j ja
             (with_state (start_elastic j placements) (log_call (CallStartElastic j) m0))). }
  unfold commit_job. rewrite bind_gets.
  destruct (essential_services_running (state m) j); cbn [negb].
  { destruct (Hpromote m) as [Hlog Hmv]. eexists. split; [exact Hlog|].
    destruct Hmv as [?|[? ?]]; [by left|]. right; left. split_and!; [done | done | left]. }
  destruct (start_essential j placements (state m)) as [r st'] eqn:Hstart.
  rewrite !bind_modify.
  set (m1 := with_state _ (log_call _ m)).
  destruct r.
  - rewrite bind_modify.
    set (m2 := with_state _ m1).
    destruct (Hpromote m2) as [Hlog Hmv].
    exists [CallStartEssential j StartOk; CallStartElastic j]. split.
    + rewrite Hlog. cbn. by rewrite <- app_assoc.
    + destruct Hmv as [?|[? ?]]; [by left|]. right; left.
      split_and!; [done | done | right; left].
  - exists [CallStartEssential j StartRequeue]. rewrite bind_run.
    destruct (quiet_requeue j m1) as [Hlog _].
    destruct (requeue_keeps_queues j m1) as [Hq Hqr].
    destruct (_requeue j m1) as [[[]|e] m2]; cbn [fst snd ret] in *;
      (split; [by rewrite Hlog | left; by rewrite Hq, Hqr]).
  - exists [CallStartEssential j StartFatal].
    destruct (quiet_throw_away j ja m1) as [Hlog _].
    destruct (throw_away_moves j ja m1) as [Hqr Hq].
    split; [by rewrite Hlog|].
    destruct Hq as [Hq|Hq]; [left; by rewrite Hq, Hqr|].
    right; right. split_and!; [done | done | left].
Qed.

Lemma commit_job_requeued (j : Z) (ja : list Z) (m : Machine) :
  let out := commit_job placements j ja m in
  CallStartEssential j StartRequeue ∈ calls_since m out.2 ->
  (exists e, out.1 = Raise e) \/ (out.1 = Return ja /\ j ∉ held_locks out.2).
Proof.
  unfold commit_job. rewrite bind_gets.
  destruct (essential_services_running (state m) j); cbn [negb].
  { destruct (start_elastic_and_promote_cases placements j ja m) as (Hlog & _).
    unfold calls_since. rewrite Hlog, drop_app_length. intros Hc.
    apply list_elem_of_singleton in Hc. discriminate Hc. }
  destruct (start_essential j placements (state m)) as [r st'] eqn:Hstart.
  rewrite !bind_modify.
  set (m1 := with_state _ (log_call _ m)).
  assert (Hlog1 : backend_log m1 = backend_log m ++ [CallStartEssential j r]) by done.
  destruct r.
  - rewrite bind_modify.
    set (m2 := with_state _ m1).
    destruct (start_elastic_and_promote_cases placements j ja m2) as (Hlog & _).
    unfold calls_since. rewrite Hlog. unfold m2; cbn. rewrite <- app_assoc, drop_app_length.
    intros Hc.
    repeat (apply elem_of_cons in Hc as [Hc|Hc]; [discriminate Hc|]).
    by apply not_elem_of_nil in Hc.
  - intros _. rewrite bind_run.
    destruct (decide (j ∈ held_locks m1)) as [Hh|Hn].
    + destruct (additional_exec_state (self m1) !! j) as [d|] eqn:Hd.
      * rewrite (requeue_run j d m1 Hh Hd). right. cbn. split; [done|].
        rewrite elem_of_difference, elem_of_singleton. tauto.
      * pose proof (requeue_no_progress j m1 Hh Hd) as Hr.
        destruct (_requeue j m1) as [[[]|e] m2]; cbn in Hr; [done|].
        left. by eexists.
    + rewrite (requeue_not_held j m1 Hn). left. by eexists.
  - destruct (quiet_throw_away j ja m1) as [Hlog _].
    unfold calls_since. rewrite Hlog, Hlog1, drop_app_length. intros Hc.
    apply list_elem_of_singleton in Hc. discriminate Hc.
Qed.

(** The commit loop for [post] and the requeue pass leave the occurrences
    of an execution that is not in [post] as they are, and make no call
    about it. *)
Lemma rest_of_round_queues (post : list Z) (r2 : Result (list Z)) (m2 : Machine) (x : Z) :
  let out :=
    match r2 with
    | Return ja2 =>
        (let* ja3 := commit_loop placements post ja2 in
         modify (with_self (with_core_limit_recalc_trigger true)) >>
         for_each ja3 _requeue)%py m2
    | Raise e => (Raise e, m2)
    end in
  x ∉ post ->
  exists cs,
    backend_log out.2 = backend_log m2 ++ cs /\
    (forall c, call_about x c -> c ∉ cs) /\
    occurrences x (queue (self out.2)) = occurrences x (queue (self m2)) /\
    occurrences x (queue_running (self out.2)) = occurrences x (queue_running (self m2)).
Proof.
  intros out Hx. subst out. destruct r2 as [ja2|e].
  - rewrite (bind_run (commit_loop placements post ja2)).
    destruct (commit_loop_frame placements post ja2 m2) as (cs & Hlog & Hab & Hun & _).
    assert (Hcs : forall c, call_about x c -> c ∉ cs).
    { intros c Hc Hin. rewrite list.Forall_forall in Hab.
      destruct (Hab _ Hin) as (j' & Hj' & Habout).
      destruct c; cbn in *; try done; by subst. }
    destruct (Hun x Hx) as (Uq & Uqr & _ & _).
    destruct (commit_loop placements post ja2 m2) as [[ja3|e] m3]; cbn [fst snd] in *.
    + rewrite bind_modify.
      destruct (after_commit_frame ja3 m3) as [Hlog' _]. rewrite bind_modify in Hlog'.
      destruct (requeue_pass_keeps_queues ja3
                  (with_self (with_core_limit_recalc_trigger true) m3)) as [Hq Hqr].
      exists cs. split_and!; [by rewrite Hlog' | done | |].
      * rewrite Hq. exact Uq.
      * rewrite Hqr. exact Uqr.
    + exists cs. done.
  - exists []. rewrite app_nil_r. split_and!; try done.
    intros c _ Hin. by apply not_elem_of_nil in Hin.
Qed.

Lemma commit_and_requeue_moves (jl ja : list Z) (m : Machine) (x : Z) :
  NoDup jl ->
  let out := commit_and_requeue placements jl ja m in
  (occurrences x (queue (self out.2)) = occurrences x (queue (self m)) /\
   occurrences x (queue_running (self out.2)) = occurrences x (queue_running (self m))) \/
  (S (occurrences x (queue (self out.2))) = occurrences x (queue (self m)) /\
   occurrences x (queue_running (self out.2)) = S (occurrences x (queue_running (self m))) /\
   CallStartElastic x ∈ calls_since m out.2) \/
  (S (occurrences x (queue (self out.2))) = occurrences x (queue (self m)) /\
   occurrences x (queue_running (self out.2)) = occurrences x (queue_running (self m)) /\
   CallStartEssential x StartFatal ∈ calls_since m out.2).
Proof.
  intros Hnd out. subst out.
  destruct (decide (x ∈ jl)) as [Hin|Hout].
  - apply list_elem_of_split in Hin as (pre & post & ->).
    apply list.NoDup_app in Hnd as (_ & Hprepost & Hndpost).
    assert (Hnpre : x ∉ pre) by (intros Hp; apply (Hprepost _ Hp); left).
    pose proof (NoDup_cons_1_1 _ _ Hndpost) as Hnpost. clear Hprepost Hndpost.
    rewrite commit_and_requeue_split.
    destruct (commit_loop_frame placements pre ja m) as (cs1 & Hlog1 & _ & Hun1 & _).
    destruct (Hun1 x Hnpre) as (Uq1 & Uqr1 & _ & _).
    destruct (commit_loop placements pre ja m) as [[ja1|e1] m1]; cbn [fst snd] in *;
      [|by left].
    destruct (commit_job_moves x ja1 m1) as (cs2 & Hlog2 & Hmv).
    destruct (rest_of_round_queues post (commit_job placements x ja1 m1).1
                (commit_job placements x ja1 m1).2 x Hnpost)
      as (cs3 & Hlog3 & _ & Uq3 & Uqr3).
    destruct (commit_job placements x ja1 m1) as [r2 m2]; cbn [fst snd] in *.
    set (out := match r2 with
                | Return ja2 => _
                | Raise e => (Raise e, m2)
                end) in *.
    assert (Hcalls : calls_since m out.2 = cs1 ++ cs2 ++ cs3).
    { unfold calls_since. rewrite Hlog3, Hlog2, Hlog1, <- !app_assoc.
      by rewrite drop_app_length. }
    rewrite Hcalls, Uq3, Uqr3, <- Uq1, <- Uqr1.
    destruct Hmv as [Hmv|[(? & ? & Hc)|(? & ? & Hc)]]; [by left | right; left | right; right];
      (split_and!; [done | done |]);
      apply elem_of_app; right; apply elem_of_app; by left.
  - left. unfold commit_and_requeue.
    rewrite (bind_run (commit_loop placements jl ja)).
    destruct (commit_loop_frame placements jl ja m) as (cs & _ & _ & Hun & _).
    destruct (Hun x Hout) as (Uq & Uqr & _ & _).
    destruct (commit_loop placements jl ja m) as [[ja'|e] m1]; cbn [fst snd] in *; [|done].
    rewrite bind_modify.
    destruct (requeue_pass_keeps_queues ja'
                (with_self (with_core_limit_recalc_trigger true) m1)) as [Hq Hqr].
    rewrite Hq, Hqr. done.
Qed.

Lemma commit_and_requeue_requeued (jl ja : list Z) (m : Machine) (x : Z) :
  NoDup jl -> x ∈ ja ->
  CallStartEssential x StartRequeue ∈ calls_since m (commit_and_requeue placements jl ja m).2 ->
  exists e, (commit_and_requeue placements jl ja m).1 = Raise e.
Proof.
  intros Hnd Hja Hcall.
  assert (Hin : x ∈ jl).
  { destruct (commit_and_requeue_calls placements jl ja m) as (cs & Hlog & Hab).
    unfold calls_since in Hcall. rewrite Hlog, drop_app_length in Hcall.
    rewrite list.Forall_forall in Hab.
    destruct (Hab _ Hcall) as (j' & Hj' & Habout). cbn in Habout. by subst. }
  apply list_elem_of_split in Hin as (pre & post & ->).
  apply list.NoDup_app in Hnd as (_ & Hprepost & Hndpost).
  assert (Hnpre : x ∉ pre) by (intros Hp; apply (Hprepost _ Hp); left).
  pose proof (NoDup_cons_1_1 _ _ Hndpost) as Hnpost. clear Hprepost Hndpost.
  revert Hcall. rewrite commit_and_requeue_split.
  destruct (commit_loop_frame placements pre ja m) as (cs1 & Hlog1 & Hab1 & _ & Hret1).
  assert (Hcs1 : forall c, call_about x c -> c ∉ cs1).
  { intros c Hc Hc1. rewrite list.Forall_forall in Hab1.
    destruct (Hab1 _ Hc1) as (j' & Hj' & Habout).
    destruct c; cbn in *; try done; by subst. }
  destruct (commit_loop placements pre ja m) as [[ja1|e1] m1]; cbn [fst snd] in *;
    [|intros _; by eexists].
  destruct (Hret1 ja1 eq_refl) as [_ Hkeep1].
  pose proof (Hkeep1 x Hnpre Hja) as Hja1.
  destruct (commit_job_cases placements x ja1 m1) as (cs2 & Hlog2 & _ & _ & _).
  pose proof (commit_job_requeued x ja1 m1) as Hreq.
  destruct (rest_of_round_queues post (commit_job placements x ja1 m1).1
              (commit_job placements x ja1 m1).2 x Hnpost)
    as (cs3 & Hlog3 & Hcs3 & _ & _).
  destruct (commit_job placements x ja1 m1) as [r2 m2]; cbn [fst snd] in *.
  intros Hcall.
  assert (Hc2 : CallStartEssential x StartRequeue ∈ calls_since m1 m2).
  { unfold calls_since in *. rewrite Hlog2, drop_app_length.
    rewrite Hlog3, Hlog2, Hlog1, <- !app_assoc, drop_app_length in Hcall.
    apply elem_of_app in Hcall as [Hc|Hcall];
      [exfalso; eapply Hcs1; [|exact Hc]; reflexivity|].
    apply elem_of_app in Hcall as [Hc|Hc]; [done|].
    exfalso; eapply Hcs3; [|exact Hc]; reflexivity. }
  clear Hcall Hlog3 Hcs3.
  destruct (Hreq Hc2) as [[e ->]|[-> Hfree]]; [by eexists|].
  rewrite (bind_run (commit_loop placements post ja1)).
  destruct (commit_loop_frame placements post ja1 m2) as (_ & _ & _ & Hun3 & Hret3).
  destruct (commit_loop placements post ja1 m2) as [[ja3|e3] m3]; cbn [fst snd] in *;
    [|by eexists].
  destruct (Hret3 ja3 eq_refl) as [_ Hkeep3].
  destruct (Hun3 x Hnpost) as (_ & _ & Uh3 & _).
  rewrite bind_modify.
  apply (requeue_pass_raises ja3 x).
  - by apply Hkeep3.
  - cbn. tauto.
Qed.

End Moves.

Section PassQueues.
Context `{Environment} `{SimulatedPlatformOps P}.

(** The state in which the commit loop starts has the log of calls of the
    state in which the pass began, the same running queue and a pending
    queue with the same executions. *)
Lemma pass_before_commit (m m0 m2 : Machine) (q1 ja : list Z) :
  _refresh_execution_sizes m = (Return tt, m0) ->
  q1 ≡ₚ queue (self m) ->
  _pop_all (with_self (with_queue q1) m0) = (Return ja, m2) ->
  backend_log (next_reading m2) = backend_log m /\
  self (next_reading m2) = with_queue q1 (self m) /\
  state m2 = state m0 /\
  held_locks m2 = held_locks m ∪ list_to_set q1 /\
  readings m2 = readings m0 /\
  NoDup ja /\
  (forall x, x ∈ ja -> x ∈ held_locks m2) /\
  (forall x, x ∈ ja <->
     x ∈ queue (self m) /\ (x ∉ held_locks m) /\
     exec_status (executions (state m) x) ≠ TERMINATED_STATUS).
Proof.
  intros Hrefresh Hperm Hpop.
  destruct (silent_refresh_execution_sizes m) as (Hself0 & Hheld0 & Hlog0).
  rewrite Hrefresh in Hself0, Hheld0, Hlog0; cbn [snd] in *.
  assert (Hstatus : forall x, exec_status (executions (state m0) x) =
                              exec_status (executions (state m) x)).
  { intros x. pose proof (refresh_execution_sizes_keeps_status x m) as Hst.
    by rewrite Hrefresh in Hst. }
  clear Hrefresh.
  destruct (pop_from_exact q1 [] (with_self (with_queue q1) m0))
    as (ja' & m2' & Hpop' & Hself2 & Hst2 & Hlog2 & Hrd2 & Hheld2 & Hsub & Hnd & Hiff).
  unfold _pop_all in Hpop. rewrite bind_gets in Hpop. cbn in Hpop.
  rewrite Hpop in Hpop'. injection Hpop' as <- <-.
  cbn in *. split_and!; try done.
  - by rewrite Hlog2.
  - by rewrite Hself2, Hself0.
  - by rewrite Hheld2, Hheld0.
  - intros x Hx. rewrite Hheld2. apply elem_of_union. right.
    apply elem_of_list_to_set. by eapply elem_of_sublist.
  - intros x. by rewrite Hiff, Hperm, Hheld0, Hstatus.
Qed.

(** X11.  What a pass does to an execution, as far as the two queues go,
    is one of three things: nothing; the move of one occurrence from the
    pending queue to the running queue, after [start_elastic] was called
    for it; the loss of one occurrence of the pending queue, after
    [start_essential] answered [fatal] for it.  So a pass never adds an
    execution to the pending queue, never takes one off the running queue,
    and loses an execution only by a fatal start; and this holds whether or
    not the pass ends with an exception. *)
Theorem pass_moves_executions_forward (m : Machine) (x : Z) :
  let out := inner_iteration P m in
  (occurrences x (queue (self out.2)) = occurrences x (queue (self m)) /\
   occurrences x (queue_running (self out.2)) = occurrences x (queue_running (self m))) \/
  (S (occurrences x (queue (self out.2))) = occurrences x (queue (self m)) /\
   occurrences x (queue_running (self out.2)) = S (occurrences x (queue_running (self m))) /\
   CallStartElastic x ∈ calls_since m out.2) \/
  (S (occurrences x (queue (self out.2))) = occurrences x (queue (self m)) /\
   occurrences x (queue_running (self out.2)) = occurrences x (queue_running (self m)) /\
   CallStartEssential x StartFatal ∈ calls_since m out.2).
Proof.
  intros out. subst out.
  destruct (inner_iteration_anatomy m)
    as [(e & m0 & Hrefresh & ->)|(m0 & q1 & ja & m2 & Hrefresh & Hperm & _ & Hpop & Hrest)].
  { destruct (silent_refresh_execution_sizes m) as (Hself0 & _).
    rewrite Hrefresh in Hself0; cbn [snd] in *. left. by rewrite Hself0. }
  destruct (pass_before_commit m m0 m2 q1 ja Hrefresh Hperm Hpop)
    as (Hlog3 & Hself3 & _ & _ & _ & Hnd & _ & _).
  assert (Hq3 : occurrences x (queue (self (next_reading m2))) =
                occurrences x (queue (self m))).
  { rewrite Hself3. cbn. unfold occurrences. by apply Permutation_count_occ. }
  assert (Hqr3 : queue_running (self (next_reading m2)) = queue_running (self m)).
  { by rewrite Hself3. }
  destruct Hrest as [[_ ->]|(ps & placements & jl & _ & Hsubjl & -> & _)].
  - left. rewrite (bind_run (for_each ja _requeue)).
    destruct (requeue_pass_keeps_queues ja (next_reading m2)) as [Hq Hqr].
    destruct (for_each ja _requeue (next_reading m2)) as [[[]|e] m4]; cbn [fst snd ret] in *;
      by rewrite Hq, Hqr, Hq3, Hqr3.
  - assert (Hcalls : forall m', calls_since m m' = calls_since (next_reading m2) m').
    { intros m'. unfold calls_since. by rewrite Hlog3. }
    rewrite !Hcalls, <- Hq3, <- Hqr3.
    apply commit_and_requeue_moves. by eapply sublist_NoDup.
Qed.

(** X12.  A pass in which [start_essential] answers [requeue] ends with
    an exception.  [_requeue] releases the termination lock of the job and
    leaves the job among the candidates, so the requeue pass at the end
    calls [_requeue] for it again, and releasing its lock a second time
    raises, unless something raised before. *)
Theorem requeue_answer_ends_pass_with_exception (m : Machine) (job : Z) :
  let out := inner_iteration P m in
  CallStartEssential job StartRequeue ∈ calls_since m out.2 ->
  exists e, out.1 = Raise e.
Proof.
  intros out. subst out.
  destruct (inner_iteration_anatomy m)
    as [(e & m0 & Hrefresh & ->)|(m0 & q1 & ja & m2 & Hrefresh & Hperm & _ & Hpop & Hrest)].
  { intros _. by eexists. }
  destruct (pass_before_commit m m0 m2 q1 ja Hrefresh Hperm Hpop)
    as (Hlog3 & _ & _ & _ & _ & Hnd & _ & _).
  destruct Hrest as [[_ ->]|(ps & placements & jl & _ & Hsubjl & Hout & Hraise & _)].
  - rewrite (bind_run (for_each ja _requeue)).
    destruct (requeue_pass_frame ja (next_reading m2)) as [Hlog _].
    destruct (for_each ja _requeue (next_reading m2)) as [[[]|e] m4]; cbn [fst snd ret] in *;
      unfold calls_since; rewrite Hlog, Hlog3, drop_all; intros Hc;
      by apply not_elem_of_nil in Hc.
  - rewrite Hout. intros Hcall.
    assert (Hcall' : CallStartEssential job StartRequeue ∈
              calls_since (next_reading m2)
                (commit_and_requeue placements jl ja (next_reading m2)).2).
    { unfold calls_since in *. by rewrite Hlog3. }
    assert (Hjl : job ∈ jl).
    { destruct (commit_and_requeue_calls placements jl ja (next_reading m2))
        as (cs & Hlog & Hab).
      unfold calls_since in Hcall'. rewrite Hlog, drop_app_length in Hcall'.
      rewrite list.Forall_forall in Hab.
      destruct (Hab _ Hcall') as (j' & Hj' & Habout). cbn in Habout. by subst. }
    destruct (commit_and_requeue_requeued placements jl ja (next_reading m2) job)
      as [e He]; [by eapply sublist_NoDup | by eapply elem_of_sublist | exact Hcall' |].
    exists e. by apply Hraise.
Qed.

(** X13.  A pass during which the metrics are not available.  When every
    queued execution has its [ExecutionProgress], the pass ends normally and
    asks to leave the inner loop; no backend call was made; the pending
    queue holds the same executions and the running queue is as it was.
    Every candidate got its termination lock back, so that afterwards the
    locks held are those held before, and those of the queued executions in
    status [terminated], which [_pop_all] took and nothing releases. *)
Theorem pass_without_metrics (m : Machine) :
  (forall n, (readings m <= n)%nat -> current_stats n = None) ->
  queue_has_progress (self m) ->
  exists m',
    inner_iteration P m = (Return false, m') /\
    backend_log m' = backend_log m /\
    queue (self m') ≡ₚ queue (self m) /\
    queue_running (self m') = queue_running (self m) /\
    queue_has_progress (self m') /\
    (forall x, x ∈ held_locks m' <->
       x ∈ held_locks m \/
       (x ∈ queue (self m) /\
        exec_status (executions (state m) x) = TERMINATED_STATUS)).
Proof.
  intros Hnone Hprogress.
  assert (Hrefresh : exists m0,
    _refresh_execution_sizes m = (Return tt, m0) /\ (readings m <= readings m0)%nat).
  { unfold _refresh_execution_sizes. rewrite bind_gets.
    repeat (case_decide; [by exists m|]). case_decide; [|by exists m].
    destruct (for_each_refresh_one_returns (queue (self m)) m Hprogress)
      as (m0 & Hrun & _ & Hrd & _).
    by exists m0. }
  destruct Hrefresh as (m0 & Hrefresh & Hrd0).
  destruct (inner_iteration_anatomy m)
    as [(e & m0' & Hrefresh' & _)|(m0' & q1 & ja & m2 & Hrefresh' & Hperm & _ & Hpop & Hrest)];
    rewrite Hrefresh in Hrefresh'; [discriminate Hrefresh'|].
  injection Hrefresh' as <-.
  destruct (pass_before_commit m m0 m2 q1 ja Hrefresh Hperm Hpop)
    as (Hlog3 & Hself3 & _ & Hheld2 & Hrd2 & Hnd & Hheldja & Hiff).
  destruct Hrest as [[_ Hout]|(ps & placements & jl & Hsome & _)].
  2:{ rewrite Hnone in Hsome; [discriminate Hsome | lia]. }
  destruct (requeue_pass_returns ja (next_reading m2) Hnd)
    as (m' & Hrun & Hh & Hq & Hqr & _ & _ & Hlog & _ & Hother & Hset).
  { intros x Hx. split; [cbn; by apply Hheldja|].
    rewrite Hself3. cbn. apply Hprogress. by apply Hiff in Hx as (? & _). }
  exists m'. split_and!.
  - rewrite Hout, (bind_run (for_each ja _requeue)), Hrun. reflexivity.
  - by rewrite Hlog.
  - rewrite Hq, Hself3. cbn. exact Hperm.
  - rewrite Hqr, Hself3. reflexivity.
  - intros x Hx. rewrite Hq, Hself3 in Hx. cbn in Hx. rewrite Hperm in Hx.
    destruct (Hprogress x Hx) as [d Hd].
    destruct (decide (x ∈ ja)) as [Hja|Hnja].
    + destruct (Hset x d Hja) as (k & _ & ->); [by rewrite Hself3 | by eexists].
    + rewrite (Hother x Hnja), Hself3. cbn. by eexists.
  - intros x. rewrite Hh. cbn. rewrite Hheld2.
    rewrite elem_of_difference, elem_of_union, !elem_of_list_to_set, Hiff, Hperm.
    destruct (decide (x ∈ held_locks m));
      destruct (decide (exec_status (executions (state m) x) = TERMINATED_STATUS));
      tauto.
Qed.

End PassQueues.

Lemma requeue_answer_ends_pass_with_exception_witness :
  let m :=
    Scenario.machine "FIFO" [1; 2] []
      {[1 := ExecutionProgress_init; 2 := ExecutionProgress_init]} in
  let out := inner_iteration (H := Answers.env_requeue) Simulated.Platform m in
  (CallStartEssential 1 StartRequeue ∈ calls_since m out.2) /\
  exists e, out.1 = Raise e.
Proof.
  intros m out.
  assert (Hcall : CallStartEssential 1 StartRequeue ∈ calls_since m out.2).
  { vm_compute. left. }
  split; [exact Hcall|].
  exact (requeue_answer_ends_pass_with_exception (H := Answers.env_requeue)
           (P := Simulated.Platform) m 1 Hcall).
Defined.

Lemma pass_without_metrics_witness :
  let m :=
    Scenario.machine "FIFO" [1; 2] []
      {[1 := ExecutionProgress_init; 2 := ExecutionProgress_init]} in
  (forall n, (readings m <= n)%nat ->
             current_stats (Environment := Answers.env_outage) n = None) /\
  queue_has_progress (self m) /\
  exists m',
    inner_iteration (H := Answers.env_outage) Simulated.Platform m = (Return false, m') /\
    backend_log m' = backend_log m.
Proof.
  intros m.
  assert (Hnone : forall n, (readings m <= n)%nat ->
            current_stats (Environment := Answers.env_outage) n = None) by done.
  assert (Hprogress : queue_has_progress (self m)).
  { intros x Hx. cbn in Hx.
    apply elem_of_cons in Hx as [->|Hx]; [by eexists|].
    apply list_elem_of_singleton in Hx as ->. by eexists. }
  split; [exact Hnone|]. split; [exact Hprogress|].
  destruct (pass_without_metrics (H := Answers.env_outage) (P := Simulated.Platform)
              m Hnone Hprogress) as (m' & Hrun & Hlog & _).
  by exists m'.
Defined.

(** ** [_check_dead_services], from any state *)

Lemma occurrences_singleton (x j : Z) :
  occurrences x [j] = if decide (x = j) then 1%nat else 0%nat.
Proof.
  case_decide as Hx.
  - subst. apply occurrences_singleton_eq.
  - by apply occurrences_singleton_ne.
Qed.

(** A loop over a live list keeps an invariant that each turn keeps, when
    no turn raises. *)
Lemma for_each_live_inv {St A} (current : St -> list A) (body : A -> M St unit)
    (I : St -> Prop) :
  (forall x s, I s -> x ∈ current s -> (body x s).1 = Return tt /\ I (body x s).2) ->
  forall (fuel i : nat) (s : St),
    I s ->
    (for_each_live fuel current i body s).1 = Return tt /\
    I (for_each_live fuel current i body s).2.
Proof.
  intros Hbody. induction fuel as [|fuel IH]; intros i s Hs; cbn; [done|].
  unfold bind, gets. destruct (current s !! i) as [x|] eqn:Hx; [|done].
  destruct (Hbody x s Hs) as [Hr Hi]; [by eapply list_elem_of_lookup_2|].
  destruct (body x s) as [[[]|e] s1]; cbn in *; [|done].
  by apply IH.
Qed.

(** What the detector keeps between two states: the number of places an
    execution has in the two queues and among the termination threads, the
    locks, and a log that grew by calls to [terminate_service] only. *)
Lemma terminate_accounts (e : Z) (m : Machine) :
  (terminate e m).1 = Return tt /\
  (forall x,
     (occurrences x (queue (self (terminate e m).2)) +
      occurrences x (queue_running (self (terminate e m).2)) +
      occurrences x (async_threads (self (terminate e m).2)) =
      occurrences x (queue (self m)) + occurrences x (queue_running (self m)) +
      occurrences x (async_threads (self m)))%nat) /\
  held_locks (terminate e m).2 = held_locks m /\
  backend_log (terminate e m).2 = backend_log m /\
  state (terminate e m).2 = state m.
Proof.
  destruct (list_remove e (queue (self m))) as [q'|] eqn:E1.
  - rewrite (terminate_from_queue _ _ _ E1). split_and!; try done.
    intros x. cbn. rewrite occurrences_app, occurrences_singleton.
    rewrite (occurrences_list_remove _ _ _ x E1). lia.
  - destruct (list_remove e (queue_running (self m))) as [qr'|] eqn:E2.
    + rewrite (terminate_from_queue_running _ _ _ E1 E2). split_and!; try done.
      intros x. cbn. rewrite occurrences_app, occurrences_singleton.
      rewrite (occurrences_list_remove _ _ _ x E2). lia.
    + by rewrite (terminate_in_no_queue _ _ E1 E2).
Qed.

Lemma check_dead_services_run (m : Machine) :
  exists m' cs,
    _check_dead_services m = (Return tt, m') /\
    (forall x,
       (occurrences x (queue (self m')) + occurrences x (queue_running (self m')) +
        occurrences x (async_threads (self m')) =
        occurrences x (queue (self m)) + occurrences x (queue_running (self m)) +
        occurrences x (async_threads (self m)))%nat) /\
    held_locks m' = held_locks m /\
    backend_log m' = backend_log m ++ cs /\
    Forall (fun c => exists service, c = CallTerminateService service) cs.
Proof.
  set (I := fun m' : Machine =>
    (forall x,
       (occurrences x (queue (self m')) + occurrences x (queue_running (self m')) +
        occurrences x (async_threads (self m')) =
        occurrences x (queue (self m)) + occurrences x (queue_running (self m)) +
        occurrences x (async_threads (self m)))%nat) /\
    held_locks m' = held_locks m /\
    exists cs, backend_log m' = backend_log m ++ cs /\
               Forall (fun c => exists service, c = CallTerminateService service) cs).
  assert (H0 : I m).
  { split_and!; [done | done |]. exists []. by rewrite app_nil_r. }
  assert (H1 : forall x s, I s -> x ∈ queue_running (self s) ->
            (terminate_if_essential_died x s).1 = Return tt /\
            I (terminate_if_essential_died x s).2).
  { intros x s (Hacc & Hheld & cs & Hlog & Hcs) _.
    unfold terminate_if_essential_died. rewrite bind_gets.
    destruct (first_dead_service (state s) true x) as [service|].
    2:{ split; [done|]. split_and!; [done | done | by exists cs]. }
    rewrite !bind_modify.
    set (s1 := with_state _ (with_state _ s)).
    destruct (terminate_accounts x s1) as (Hr & Hacc1 & Hheld1 & Hlog1 & _).
    split; [exact Hr|]. split_and!.
    - intros y. rewrite Hacc1. apply Hacc.
    - by rewrite Hheld1.
    - exists cs. by rewrite Hlog1. }
  assert (H2 : forall x s, I s -> x ∈ queue_running (self s) ->
            (reschedule_if_elastic_died x s).1 = Return tt /\
            I (reschedule_if_elastic_died x s).2).
  { intros x s (Hacc & Hheld & cs & Hlog & Hcs) Hx.
    unfold reschedule_if_elastic_died. rewrite bind_gets.
    destruct (first_dead_service (state s) false x) as [service|].
    2:{ split; [done|]. split_and!; [done | done | by exists cs]. }
    rewrite !bind_modify. unfold queue_running_remove. rewrite bind_run, bind_gets. cbn.
    destruct (list_remove_is_Some _ _ Hx) as [qr' Hqr']. rewrite Hqr'. cbn.
    split; [done|]. split_and!.
    - intros y. rewrite <- Hacc. cbn. rewrite occurrences_app, occurrences_singleton.
      rewrite (occurrences_list_remove _ _ _ y Hqr'). lia.
    - done.
    - exists (cs ++ [CallTerminateService service]). split.
      + cbn. rewrite Hlog. by rewrite <- app_assoc.
      + apply Forall_app. split; [done|]. repeat constructor. by eexists. }
  unfold _check_dead_services, sweep. rewrite bind_run, bind_gets.
  destruct (for_each_live_inv (fun m : Machine => queue_running (self m))
              terminate_if_essential_died I H1
              (length (queue_running (self m))) 0%nat m H0) as [Hr1 Hi1].
  destruct (for_each_live _ _ _ terminate_if_essential_died m) as [r1 m1].
  cbn [fst snd] in *. subst r1. rewrite bind_gets.
  destruct (for_each_live_inv (fun m : Machine => queue_running (self m))
              reschedule_if_elastic_died I H2
              (length (queue_running (self m1))) 0%nat m1 Hi1) as [Hr2 Hi2].
  destruct (for_each_live _ _ _ reschedule_if_elastic_died m1) as [r2 m2].
  cbn [fst snd] in *. subst r2.
  destruct Hi2 as (Hacc & Hheld & cs & Hlog & Hcs).
  exists m2, cs. done.
Qed.

Lemma check_dead_services_nothing_dead (m : Machine) :
  (forall e essential, e ∈ queue_running (self m) ->
     first_dead_service (state m) essential e = None) ->
  _check_dead_services m = (Return tt, m).
Proof.
  intros Hnone.
  assert (H1 : forall (body : Z -> M Machine unit),
            (forall x, x ∈ queue_running (self m) -> body x m = (Return tt, m)) ->
            sweep body m = (Return tt, m)).
  { intros body Hbody. unfold sweep. rewrite bind_gets.
    destruct (for_each_live_inv (fun m : Machine => queue_running (self m)) body
                (fun s => s = m)) with (fuel := length (queue_running (self m)))
                (i := 0%nat) (s := m) as [Hr Hs]; [|done|].
    - intros x s -> Hx. by rewrite Hbody.
    - destruct (for_each_live _ _ _ body m) as [r s]. cbn in *. by subst. }
  unfold _check_dead_services. rewrite bind_run, H1.
  - apply H1. intros x Hx. unfold reschedule_if_elastic_died.
    rewrite bind_gets. by rewrite Hnone.
  - intros x Hx. unfold terminate_if_essential_died.
    rewrite bind_gets. by rewrite Hnone.
Qed.

(** X14.  [_check_dead_services] never raises and loses no execution:
    every execution has as many places in the pending queue, the running
    queue and the list of termination threads together as it had before.
    It takes or releases no termination lock, and the only backend calls it
    makes are calls to [terminate_service].  When no service of a running
    execution is dead it changes nothing. *)
Theorem check_dead_services_loses_no_execution (m : Machine) :
  exists m',
    _check_dead_services m = (Return tt, m') /\
    (forall x,
       (occurrences x (queue (self m')) + occurrences x (queue_running (self m')) +
        occurrences x (async_threads (self m')) =
        occurrences x (queue (self m)) + occurrences x (queue_running (self m)) +
        occurrences x (async_threads (self m)))%nat) /\
    held_locks m' = held_locks m /\
    Forall (fun c => exists service, c = CallTerminateService service) (calls_since m m') /\
    ((forall e essential, e ∈ queue_running (self m) ->
        first_dead_service (state m) essential e = None) ->
     m' = m).
Proof.
  destruct (check_dead_services_run m) as (m' & cs & Hrun & Hacc & Hheld & Hlog & Hcs).
  exists m'. split_and!; try done.
  - unfold calls_since. by rewrite Hlog, drop_app_length.
  - intros Hnone. rewrite (check_dead_services_nothing_dead m Hnone) in Hrun.
    by injection Hrun.
Qed.

Lemma check_dead_services_loses_no_execution_witness :
  let m := Scenario.machine "FIFO" [] [1; 2] ∅ in
  (forall e essential, e ∈ queue_running (self m) ->
     first_dead_service (state m) essential e = None) /\
  exists m', _check_dead_services m = (Return tt, m') /\ m' = m.
Proof.
  intros m.
  assert (Hnone : forall e essential, e ∈ queue_running (self m) ->
            first_dead_service (state m) essential e = None).
  { intros e essential He. cbn in He.
    apply elem_of_cons in He as [->|He];
      [|apply list_elem_of_singleton in He as ->]; by destruct essential. }
  split; [exact Hnone|].
  destruct (check_dead_services_loses_no_execution m) as (m' & Hrun & _ & _ & _ & Hsame).
  exists m'. split; [exact Hrun | exact (Hsame Hnone)].
Defined.

(** ** [_cleanup_async_threads] *)

Lemma cleanup_loop_run (isAlive : nat -> Z -> bool) (remaining survivors : list Z)
    (probe : nat) (m : Machine) :
  async_threads (self m) = remaining ++ survivors ->
  cleanup_loop isAlive (length remaining) probe m =
  (Return tt,
   with_self (with_async_threads (survivors ++ found_alive isAlive probe remaining)) m).
Proof.
  revert survivors probe m.
  induction remaining as [|th rest IH]; intros survivors probe m Hts.
  - cbn. rewrite app_nil_r. cbn in Hts. rewrite <- Hts.
    by destruct m as [[] ? ? ? ?].
  - cbn [cleanup_loop length]. rewrite bind_gets, Hts. cbn [app].
    rewrite bind_modify. cbn [found_alive].
    destruct (isAlive probe th).
    + rewrite bind_modify.
      rewrite (IH (survivors ++ [th])); [|cbn; by rewrite <- app_assoc].
      destruct m as [[] ? ? ? ?]; cbn. by rewrite <- app_assoc.
    + rewrite bind_run. cbn [ret].
      rewrite (IH survivors); [|done].
      by destruct m as [[] ? ? ? ?].
Qed.

Lemma cleanup_async_threads_run (isAlive : nat -> Z -> bool) (m : Machine) :
  _cleanup_async_threads isAlive m =
  (Return tt,
   with_self (with_async_threads (found_alive isAlive 0 (async_threads (self m)))) m).
Proof.
  unfold _cleanup_async_threads. rewrite bind_gets.
  rewrite (cleanup_loop_run isAlive (async_threads (self m)) []); [done|].
  by rewrite app_nil_r.
Qed.

Lemma found_alive_sublist (isAlive : nat -> Z -> bool) (probe : nat) (ts : list Z) :
  found_alive isAlive probe ts `sublist_of` ts.
Proof.
  revert probe; induction ts as [|th rest IH]; intros probe; cbn; [done|].
  destruct (isAlive probe th); cbn; [by apply sublist_skip | by apply sublist_cons].
Qed.

Lemma found_alive_lookup (isAlive : nat -> Z -> bool) (probe : nat) (ts : list Z) (th : Z) :
  th ∈ found_alive isAlive probe ts <->
  exists i, ts !! i = Some th /\ isAlive (probe + i)%nat th = true.
Proof.
  revert probe; induction ts as [|th0 rest IH]; intros probe; cbn.
  - split; [intros Hin; by apply not_elem_of_nil in Hin | intros (i & Hi & _); done].
  - rewrite elem_of_app, IH. split.
    + intros [Hin|(i & Hi & Ha)].
      * destruct (isAlive probe th0) eqn:Ha; [|by apply not_elem_of_nil in Hin].
        apply list_elem_of_singleton in Hin as ->.
        exists 0%nat. by rewrite Nat.add_0_r.
      * exists (S i). split; [done|]. by rewrite Nat.add_succ_r.
    + intros ([|i] & Hi & Ha); cbn in Hi.
      * injection Hi as ->. rewrite Nat.add_0_r in Ha. rewrite Ha. left. left.
      * right. exists i. split; [done|]. by rewrite Nat.add_succ_r in Ha.
Qed.

(** X15.  [_cleanup_async_threads] never raises and changes nothing but
    the list of termination threads.  It looks at each thread of the list
    once, in order, and keeps the threads that say they are alive, in their
    order: the thread at position [i] is kept exactly when it is alive at
    the [i]-th look. *)
Theorem cleanup_async_threads_keeps_the_living (isAlive : nat -> Z -> bool) (m : Machine) :
  exists ts,
    _cleanup_async_threads isAlive m = (Return tt, with_self (with_async_threads ts) m) /\
    ts `sublist_of` async_threads (self m) /\
    (forall th, th ∈ ts <->
       exists i, async_threads (self m) !! i = Some th /\ isAlive i th = true) /\
    (length ts <= length (async_threads (self m)))%nat.
Proof.
  exists (found_alive isAlive 0 (async_threads (self m))). split_and!.
  - apply cleanup_async_threads_run.
  - apply found_alive_sublist.
  - intros th. apply (found_alive_lookup isAlive 0).
  - apply sublist_length, found_alive_sublist.
Qed.

(** ** [quit] and the scheduler thread *)

Section SchedulerThread.
Context `{Environment} `{SimulatedPlatformOps P}.

(** X16.  After [quit], the scheduler thread ends at its next turn: the
    semaphore that [quit] released is acquired, [loop_quit] is found set and
    the loop is left, so that the decorated function returns without an
    exception.  No wake-up is run: the queues, the termination threads, the
    state store, the locks and the log of backend calls are as they were
    before [quit]; the permits of the semaphore are as many as before, and
    the event of the core-limit thread is set. *)
Theorem quit_ends_scheduler_thread (isAlive : nat -> nat -> Z -> bool)
    (fuel turns attempts : nat) (auto_trigger : Z) (m : Machine) :
  exists m',
    (quit >>
     catch_exceptions_and_retry
       (scheduler_loop P isAlive fuel (S turns) auto_trigger) (S attempts))%py m
    = (Return true, m') /\
    scheduler_loop P isAlive fuel (S turns) auto_trigger (quit m).2 = (Return LoopBreak, m') /\
    loop_quit (self m') = true /\
    core_limit_recalc_trigger (self m') = true /\
    trigger_semaphore (self m') = trigger_semaphore (self m) /\
    queue (self m') = queue (self m) /\
    queue_running (self m') = queue_running (self m) /\
    async_threads (self m') = async_threads (self m) /\
    additional_exec_state (self m') = additional_exec_state (self m) /\
    state m' = state m /\ held_locks m' = held_locks m /\
    backend_log m' = backend_log m.
Proof.
  destruct m as [[pol q qr aes th sem clt lq] st h lg rd].
  eexists. split_and!; reflexivity.
Qed.

Lemma scheduler_loop_timeouts (isAlive : nat -> nat -> Z -> bool) (fuel turns : nat)
    (auto_trigger : Z) (m : Machine) :
  trigger_semaphore (self m) = 0%nat ->
  0 < auto_trigger -> Z.of_nat turns <= auto_trigger ->
  exists m',
    scheduler_loop P isAlive fuel turns auto_trigger m =
      (Return (LoopGoesOn (if decide (Z.of_nat turns = auto_trigger)
                           then SELF_TRIGGER_TIMEOUT
                           else auto_trigger - Z.of_nat turns)), m') /\
    trigger_semaphore (self m') =
      (if decide (Z.of_nat turns = auto_trigger) then 1%nat else 0%nat) /\
    queue (self m') = queue (self m) /\
    queue_running (self m') = queue_running (self m) /\
    additional_exec_state (self m') = additional_exec_state (self m) /\
    async_threads (self m') `sublist_of` async_threads (self m) /\
    state m' = state m /\ held_locks m' = held_locks m /\
    backend_log m' = backend_log m.
Proof.
  revert auto_trigger m. induction turns as [|turns IH]; intros auto_trigger m Hsem Hpos Hle.
  - exists m. cbn [scheduler_loop]. rewrite !decide_False by lia.
    rewrite Z.sub_0_r. split_and!; done.
  - cbn [scheduler_loop]. unfold trigger_semaphore_acquire at 1.
    rewrite bind_run, bind_gets, Hsem. cbn [ret negb].
    rewrite bind_run, cleanup_async_threads_run.
    set (m1 := with_self _ m).
    assert (Hsub1 : async_threads (self m1) `sublist_of` async_threads (self m)).
    { unfold m1; cbn. apply found_alive_sublist. }
    destruct (decide (auto_trigger - 1 = 0)) as [Hz|Hnz].
    + assert (turns = 0%nat) as -> by lia.
      unfold trigger. rewrite bind_modify. cbn [scheduler_loop].
      eexists. split; [|split_and!].
      * rewrite decide_True by lia. reflexivity.
      * rewrite decide_True by lia. cbn. by rewrite Hsem.
      * done.
      * done.
      * done.
      * exact Hsub1.
      * done.
      * done.
      * done.
    + destruct (IH (auto_trigger - 1) m1) as (m' & Hrun & Hs & Hq & Hqr & Ha & Hth & Hst & Hh & Hl);
        [exact Hsem | lia | lia |].
      exists m'. split_and!; try done.
      * rewrite Hrun. repeat f_equal.
        destruct (decide (Z.of_nat turns = auto_trigger - 1));
          destruct (decide (Z.of_nat (S turns) = auto_trigger)); lia.
      * rewrite Hs.
        destruct (decide (Z.of_nat turns = auto_trigger - 1));
          destruct (decide (Z.of_nat (S turns) = auto_trigger)); lia.
      * by transitivity (async_threads (self m1)).
Qed.

(** X17.  A scheduler thread that nobody triggers wakes itself up.  With
    no permit in the semaphore, each of its first 59 turns is a timeout
    that only cleans up the termination threads; at the 60th the thread
    releases the semaphore itself and starts counting from 60 again.  Until
    then the queues, the state store, the locks and the log of backend calls
    are as they were. *)
Theorem idle_scheduler_triggers_itself (isAlive : nat -> nat -> Z -> bool)
    (fuel turns : nat) (m : Machine) :
  trigger_semaphore (self m) = 0%nat ->
  (turns <= 60)%nat ->
  exists m',
    scheduler_thread P isAlive fuel turns m =
      (Return (LoopGoesOn (if decide (turns = 60%nat) then 60 else 60 - Z.of_nat turns)), m') /\
    trigger_semaphore (self m') = (if decide (turns = 60%nat) then 1%nat else 0%nat) /\
    queue (self m') = queue (self m) /\
    queue_running (self m') = queue_running (self m) /\
    additional_exec_state (self m') = additional_exec_state (self m) /\
    async_threads (self m') `sublist_of` async_threads (self m) /\
    state m' = state m /\ held_locks m' = held_locks m /\
    backend_log m' = backend_log m.
Proof.
  intros Hsem Hturns.
  destruct (scheduler_loop_timeouts isAlive fuel turns SELF_TRIGGER_TIMEOUT m Hsem)
    as (m' & Hrun & Hs & Hrest); [done | unfold SELF_TRIGGER_TIMEOUT; lia |].
  exists m'. unfold scheduler_thread. split; [|split; [|exact Hrest]].
  - rewrite Hrun. unfold SELF_TRIGGER_TIMEOUT. repeat f_equal.
    destruct (decide (Z.of_nat turns = 60)); destruct (decide (turns = 60%nat)); lia.
  - rewrite Hs. unfold SELF_TRIGGER_TIMEOUT.
    destruct (decide (Z.of_nat turns = 60)); destruct (decide (turns = 60%nat)); lia.
Qed.

(** X18.  A wake-up that finds the pending queue empty and no dead
    service among the running executions does nothing but set the event of
    the core-limit thread: no pass of the inner loop is run and no backend
    call is made. *)
Theorem wake_up_with_empty_queue (fuel : nat) (m : Machine) :
  queue (self m) = [] ->
  (forall e essential, e ∈ queue_running (self m) ->
     first_dead_service (state m) essential e = None) ->
  loop_start_th P fuel m =
  (Return tt, with_self (with_core_limit_recalc_trigger true) m).
Proof.
  intros Hq Hnone. unfold loop_start_th.
  rewrite bind_run, (check_dead_services_nothing_dead m Hnone).
  rewrite bind_gets, Hq. reflexivity.
Qed.

End SchedulerThread.

Lemma idle_scheduler_triggers_itself_witness :
  let m := Scenario.machine "FIFO" [] [1; 2] ∅ in
  trigger_semaphore (self m) = 0%nat /\ (60 <= 60)%nat /\
  exists m',
    scheduler_thread (H := Scenario.env) Simulated.Platform (fun _ _ _ => true) 1 60 m =
      (Return (LoopGoesOn 60), m') /\
    trigger_semaphore (self m') = 1%nat.
Proof.
  intros m.
  assert (Hsem : trigger_semaphore (self m) = 0%nat) by reflexivity.
  assert (Hle : (60 <= 60)%nat) by lia.
  split; [exact Hsem|]. split; [exact Hle|].
  destruct (idle_scheduler_triggers_itself (H := Scenario.env) (P := Simulated.Platform)
              (fun _ _ _ => true) 1 60 m Hsem Hle) as (m' & Hrun & Hs & _).
  exists m'. split; [exact Hrun | exact Hs].
Defined.

Lemma wake_up_with_empty_queue_witness :
  let m := Scenario.machine "FIFO" [] [1; 2] ∅ in
  queue (self m) = [] /\
  (forall e essential, e ∈ queue_running (self m) ->
     first_dead_service (state m) essential e = None) /\
  loop_start_th (H := Scenario.env) Simulated.Platform 1 m =
  (Return tt, with_self (with_core_limit_recalc_trigger true) m).
Proof.
  intros m.
  assert (Hnone : forall e essential, e ∈ queue_running (self m) ->
            first_dead_service (state m) essential e = None).
  { intros e essential He. cbn in He.
    apply elem_of_cons in He as [->|He];
      [|apply list_elem_of_singleton in He as ->]; by destruct essential. }
  split; [reflexivity|]. split; [exact Hnone|].
  exact (wake_up_with_empty_queue (H := Scenario.env) (P := Simulated.Platform)
           1 m eq_refl Hnone).
Defined.

(** ** The core-limit rebalancer: who gets a call, and the floor *)

Lemma spec_node_calls_floor (st : Store) (node : NodeStats) :
  Forall (fun c => exists service v,
            c = CallUpdateServiceResourceLimits service [("cores", v)] /\
            service ∈ services_select st (node_name node) BACKEND_START_STATUS /\
            (service_cores_min (services st service) <= v)%Q)
         (spec_node_calls st node).
Proof.
  unfold spec_node_calls.
  destruct (services_select st (node_name node) BACKEND_START_STATUS) as [|sv l] eqn:Hsel;
    [constructor|].
  apply Forall_map, list.Forall_forall. intros service Hservice. cbn beta.
  eexists service, _. split; [reflexivity|]. split; [done|].
  pose proof (spec_extra_nonneg node (length (sv :: l))) as Hextra.
  assert (0 <= spec_extra node (length (sv :: l)))%Q by (apply Hextra; cbn; lia).
  lra.
Qed.

(** X19.  One cycle of the core-limit thread.  When the metrics are not
    available the cycle ends with [ZoeException] before any call is made,
    and the event is not cleared.  Otherwise every call of the cycle sets
    the cores of a service that is started on a node of the snapshot, to no
    less than the [cores.min] of the service; and the event is cleared at
    the end. *)
Theorem adjust_core_limits_never_below_min `{Environment} (m : Machine) :
  (current_stats (readings m) = None ->
   _adjust_core_limits m = (Raise ZoeException, next_reading m)) /\
  (forall stats, current_stats (readings m) = Some stats ->
   (_adjust_core_limits m).1 = Return tt /\
   core_limit_recalc_trigger (self (_adjust_core_limits m).2) = false /\
   Forall (fun c => exists service node v,
             c = CallUpdateServiceResourceLimits service [("cores", v)] /\
             node ∈ nodes stats /\
             service ∈ services_select (state m) (node_name node) BACKEND_START_STATUS /\
             (service_cores_min (services (state m) service) <= v)%Q)
          (calls_since m (_adjust_core_limits m).2)).
Proof.
  split.
  - intros Hstats. unfold _adjust_core_limits, metrics_current_stats.
    unfold bind at 1. unfold bind at 1. cbn [gets]. unfold bind at 1. cbn [modify].
    by rewrite Hstats.
  - intros stats Hstats.
    assert (Hrun : _adjust_core_limits m =
      (Return tt,
       with_self (with_core_limit_recalc_trigger false)
         (log_calls (concat (map (spec_node_calls (state m)) (nodes stats)))
            (next_reading m)))).
    { unfold _adjust_core_limits, metrics_current_stats.
      unfold bind at 1. unfold bind at 1. cbn [gets]. unfold bind at 1. cbn [modify].
      rewrite Hstats. cbn [ret]. unfold bind at 1.
      rewrite for_each_adjust_node. reflexivity. }
    rewrite Hrun. split_and!; [done | done |].
    unfold calls_since; cbn. rewrite drop_app_length.
    apply Forall_concat, Forall_map, list.Forall_forall. intros node Hnode. cbn beta.
    eapply Forall_impl; [|apply spec_node_calls_floor].
    cbn beta. intros c (service & v & Hc & Hsv & Hle).
    by exists service, node, v.
Qed.

Lemma adjust_core_limits_never_below_min_witness :
  let m := Scenario.machine "FIFO" [] [1; 2] ∅ in
  current_stats (Environment := Answers.env_outage) (readings m) = None /\
  current_stats (Environment := Scenario.env) (readings m) =
    Some (mkClusterStats [Scenario.N1]) /\
  _adjust_core_limits (H := Answers.env_outage) m = (Raise ZoeException, next_reading m) /\
  (_adjust_core_limits (H := Scenario.env) m).1 = Return tt /\
  core_limit_recalc_trigger (self (_adjust_core_limits (H := Scenario.env) m).2) = false.
Proof.
  intros m.
  assert (Hnone : current_stats (Environment := Answers.env_outage) (readings m) = None)
    by reflexivity.
  assert (Hsome : current_stats (Environment := Scenario.env) (readings m) =
                  Some (mkClusterStats [Scenario.N1])) by reflexivity.
  split; [exact Hnone|]. split; [exact Hsome|].
  split; [exact (proj1 (adjust_core_limits_never_below_min (H := Answers.env_outage) m) Hnone)|].
  destruct (proj2 (adjust_core_limits_never_below_min (H := Scenario.env) m) _ Hsome)
    as (Hr & Hclear & _).
  split; [exact Hr | exact Hclear].
Defined.

(** ** How often a pass starts a job, and when the inner loop goes on *)

Section Starts.
Context `{Environment} `{SimulatedPlatformOps P}.

Lemma commit_job_starts (placements : Placements) (j : Z) (ja : list Z) (m : Machine) :
  exists cs,
    backend_log (commit_job placements j ja m).2 = backend_log m ++ cs /\
    cs ≠ [] /\
    (forall x,
       (length (List.filter (starts_essential x) cs) <= if decide (x = j) then 1 else 0)%nat /\
       (length (List.filter (starts_elastic x) cs) <= if decide (x = j) then 1 else 0)%nat).
Proof.
  destruct (commit_job_cases placements j ja m) as (cs & Hlog & _ & _ & Hshape).
  exists cs. split; [done|].
  destruct Hshape as [->|[->|[->|[-> _]]]]; (split; [done|]); intros x; cbn;
    destruct (decide (x = j)) as [->|Hne];
    rewrite ?bool_decide_eq_true_2 by done;
    rewrite ?bool_decide_eq_false_2 by (intros ?; by subst);
    cbn; lia.
Qed.

Lemma commit_loop_starts (placements : Placements) (l ja : list Z) (m : Machine) :
  NoDup l ->
  exists cs,
    backend_log (commit_loop placements l ja m).2 = backend_log m ++ cs /\
    (l ≠ [] -> cs ≠ []) /\
    (forall x,
       (length (List.filter (starts_essential x) cs) <= 1)%nat /\
       (length (List.filter (starts_elastic x) cs) <= 1)%nat /\
       (x ∉ l -> List.filter (starts_essential x) cs = [] /\
                 List.filter (starts_elastic x) cs = [])).
Proof.
  revert ja m; induction l as [|j l IH]; intros ja m Hnd; cbn [commit_loop].
  - exists []. rewrite app_nil_r. split_and!; try done. intros x. cbn. split_and!; done || lia.
  - pose proof (NoDup_cons_1_1 _ _ Hnd) as Hj. apply NoDup_cons_1_2 in Hnd.
    rewrite bind_run.
    destruct (commit_job_starts placements j ja m) as (cs1 & Hlog1 & Hne1 & Hcount1).
    destruct (commit_job placements j ja m) as [[ja1|e] m1]; cbn [fst snd] in *.
    + destruct (IH ja1 m1 Hnd) as (cs2 & Hlog2 & _ & Hcount2).
      exists (cs1 ++ cs2). split_and!.
      * rewrite Hlog2, Hlog1. by rewrite app_assoc.
      * intros _ Happ. apply app_eq_nil in Happ as [? _]. done.
      * intros x. rewrite !List.filter_app, !length_app.
        destruct (Hcount1 x) as [He1 Hl1]. destruct (Hcount2 x) as (He2 & Hl2 & Hout2).
        destruct (decide (x = j)) as [->|Hne].
        -- destruct (Hout2 Hj) as [-> ->]. cbn. split_and!; try lia.
           intros Hout. exfalso. apply Hout. left.
        -- assert (Hz1 : List.filter (starts_essential x) cs1 = [])
             by (apply length_zero_iff_nil; lia).
           assert (Hz2 : List.filter (starts_elastic x) cs1 = [])
             by (apply length_zero_iff_nil; lia).
           rewrite Hz1, Hz2. cbn. split_and!; try lia.
           intros Hout. apply not_elem_of_cons in Hout as [_ Hout].
           exact (Hout2 Hout).
    + exists cs1. split_and!; [done | done |].
      intros x. destruct (Hcount1 x) as [He1 Hl1].
      destruct (decide (x = j)) as [->|Hne].
      * split_and!; try lia. intros Hout. exfalso. apply Hout. left.
      * split_and!; try lia. intros _.
        split; apply length_zero_iff_nil; lia.
Qed.

Lemma commit_and_requeue_starts (placements : Placements) (jl ja : list Z) (m : Machine) :
  NoDup jl ->
  let out := commit_and_requeue placements jl ja m in
  (jl ≠ [] -> calls_since m out.2 ≠ []) /\
  (forall x,
     (length (List.filter (starts_essential x) (calls_since m out.2)) <= 1)%nat /\
     (length (List.filter (starts_elastic x) (calls_since m out.2)) <= 1)%nat).
Proof.
  intros Hnd out. subst out. unfold commit_and_requeue.
  rewrite (bind_run (commit_loop placements jl ja)).
  destruct (commit_loop_starts placements jl ja m Hnd) as (cs & Hlog & Hne & Hcount).
  assert (Hcalls : calls_since m
    (match commit_loop placements jl ja m with
     | (Return a, m') =>
         (modify (with_self (with_core_limit_recalc_trigger true)) >>
          for_each a _requeue)%py m'
     | (Raise e, m') => (Raise e, m')
     end).2 = cs).
  { destruct (commit_loop placements jl ja m) as [[ja'|e] m1]; cbn [fst snd] in *.
    - destruct (after_commit_frame ja' m1) as [Hlog' _].
      unfold calls_since. by rewrite Hlog', Hlog, drop_app_length.
    - unfold calls_since. by rewrite Hlog, drop_app_length. }
  rewrite Hcalls. split; [exact Hne|].
  intros x. destruct (Hcount x) as (? & ? & _). done.
Qed.

(** X20.  In one pass [start_essential] is called at most once for an
    execution, and so is [start_elastic]. *)
Theorem pass_starts_each_job_at_most_once (m : Machine) (x : Z) :
  let calls := calls_since m (inner_iteration P m).2 in
  (length (List.filter (starts_essential x) calls) <= 1)%nat /\
  (length (List.filter (starts_elastic x) calls) <= 1)%nat.
Proof.
  intros calls. subst calls.
  destruct (inner_iteration_anatomy m)
    as [(e & m0 & Hrefresh & ->)|(m0 & q1 & ja & m2 & Hrefresh & Hperm & _ & Hpop & Hrest)].
  { destruct (silent_refresh_execution_sizes m) as (_ & _ & Hlog0).
    rewrite Hrefresh in Hlog0; cbn [snd] in *.
    unfold calls_since. rewrite Hlog0, drop_all. cbn. lia. }
  destruct (pass_before_commit m m0 m2 q1 ja Hrefresh Hperm Hpop)
    as (Hlog3 & _ & _ & _ & _ & Hnd & _ & _).
  destruct Hrest as [[_ ->]|(ps & placements & jl & _ & Hsubjl & -> & _)].
  - rewrite (bind_run (for_each ja _requeue)).
    destruct (requeue_pass_frame ja (next_reading m2)) as [Hlog _].
    destruct (for_each ja _requeue (next_reading m2)) as [[[]|e] m4]; cbn [fst snd ret] in *;
      unfold calls_since; rewrite Hlog, Hlog3, drop_all; cbn; lia.
  - assert (Hcalls : forall m', calls_since m m' = calls_since (next_reading m2) m').
    { intros m'. unfold calls_since. by rewrite Hlog3. }
    rewrite !Hcalls.
    apply commit_and_requeue_starts. by eapply sublist_NoDup.
Qed.

(** X21.  The inner loop goes on to another pass only after a pass that
    made a backend call and left the pending queue non-empty: a pass that
    started nothing, or that emptied the queue, is the last one. *)
Theorem inner_loop_goes_on_after_progress_only (m m' : Machine) :
  inner_iteration P m = (Return true, m') ->
  queue (self m') ≠ [] /\ calls_since m m' ≠ [].
Proof.
  intros Hrun.
  destruct (inner_iteration_anatomy m)
    as [(e & m0 & Hrefresh & Hout)|(m0 & q1 & ja & m2 & Hrefresh & Hperm & _ & Hpop & Hrest)].
  { rewrite Hrun in Hout. discriminate Hout. }
  destruct (pass_before_commit m m0 m2 q1 ja Hrefresh Hperm Hpop)
    as (Hlog3 & _ & _ & _ & _ & Hnd & _ & _).
  destruct Hrest as [[_ Hout]|(ps & placements & jl & _ & Hsubjl & Hout & _ & _ & Htrue)].
  - rewrite Hrun in Hout. rewrite (bind_run (for_each ja _requeue)) in Hout.
    destruct (for_each ja _requeue (next_reading m2)) as [[[]|e] m4]; discriminate Hout.
  - rewrite Hrun in Hout, Htrue. cbn [fst snd] in *.
    destruct (Htrue eq_refl) as [Hq Hjl]. split; [exact Hq|].
    destruct (commit_and_requeue_starts placements jl ja (next_reading m2))
      as [Hne _]; [by eapply sublist_NoDup|].
    rewrite <- Hout in Hne. unfold calls_since in *. rewrite Hlog3 in Hne.
    by apply Hne.
Qed.

End Starts.

Lemma inner_loop_goes_on_after_progress_only_witness :
  let m :=
    with_held_locks (fun _ => {[2]})
      (Scenario.machine "FIFO" [1; 2] []
         {[1 := ExecutionProgress_init; 2 := ExecutionProgress_init]}) in
  exists m',
    inner_iteration (H := Scenario.env) Simulated.Platform m = (Return true, m') /\
    queue (self m') ≠ [] /\ calls_since m m' ≠ [].
Proof.
  intros m.
  assert (Hrun : exists m',
            inner_iteration (H := Scenario.env) Simulated.Platform m = (Return true, m')).
  { eexists. vm_compute. reflexivity. }
  destruct Hrun as [m' Hrun]. exists m'. split; [exact Hrun|].
  exact (inner_loop_goes_on_after_progress_only (H := Scenario.env)
           (P := Simulated.Platform) m m' Hrun).
Defined.
